(** * The clone manager of the Seafile daemon (daemon/clone-mgr.c)

    A shallow embedding of the clone task state machine and of its
    orchestration, and the properties of it that the specification states.

    Conventions of the embedding.
    - C strings are [string]s; a nullable [char *] is an [option string].
      [task->root_id] is a zero-initialised [char[41]]: read as a C string
      it is [""] exactly when [root_id[0] == 0].
    - The collaborators of the clone manager (repository store, transfer
      manager, job manager, peer layer, SQLite, file system) are not part
      of the file.  What they answer is read from an [Env]; what the clone
      manager asks of them is appended to the [calls] of the [daemon], and
      the work handed to them (index and merge jobs, checkout tasks,
      downloads) is kept in [pending] until its completion is delivered.
    - The text of an SQL statement is built as the code builds it
      ([sql_text]).  Whether SQLite executes a statement is the
      environment's choice ([sqlite_fails]); when it does, a statement
      whose values have no quote character and that fits its buffer has the
      effect its text denotes ([sql_effect]), and what SQLite makes of any
      other text is the environment's as well ([sqlite_raw]).
    - [task->repo_id] and [task->peer_id] are arrays filled by [memcpy]
      with 37 and 41 bytes ([c_array]).  A longer string leaves the array
      without its terminator; where the code then reads the array as a
      string, the read runs past the array ([OutOfBounds]).
    - A [GError **] is modelled by the message left in it; the message of
      [seaf_transfer_manager_add_download] is read from the environment.
    - [seaf_message], [seaf_warning] and reference counting are left out.
    - A [CloneTask] carries two ghost fields: [addr], the address of the
      heap object ([IndexAux] and [MergeAux] hold a [CloneTask *]), and
      [trail], the states the object has entered, latest first. *)

From stdpp Require Import base gmap strings list fin_maps pretty.
From Stdlib Require Import ZArith Lia Ascii.

Local Open Scope string_scope.
Local Open Scope Z_scope.

(** ** States and errors *)

Inductive CloneState :=
| CLONE_STATE_INIT
| CLONE_STATE_CONNECT
| CLONE_STATE_INDEX
| CLONE_STATE_FETCH
| CLONE_STATE_CHECKOUT
| CLONE_STATE_MERGE
| CLONE_STATE_DONE
| CLONE_STATE_ERROR
| CLONE_STATE_CANCEL_PENDING
| CLONE_STATE_CANCELED.

Inductive CloneError :=
| CLONE_OK
| CLONE_ERROR_CONNECT
| CLONE_ERROR_INDEX
| CLONE_ERROR_FETCH
| CLONE_ERROR_PASSWD
| CLONE_ERROR_CHECKOUT
| CLONE_ERROR_MERGE
| CLONE_ERROR_INTERNAL.

#[global] Instance CloneState_eq_dec : EqDecision CloneState.
Proof. solve_decision. Defined.

#[global] Instance CloneError_eq_dec : EqDecision CloneError.
Proof. solve_decision. Defined.

Definition N_CLONE_STATES : Z := 10.
Definition N_CLONE_ERRORS : Z := 8.

Definition state_str : list string :=
  ["init"; "connect"; "index"; "fetch"; "checkout"; "merge"; "done"; "error";
   "canceling"; "canceled"].

Definition error_str : list string :=
  ["ok"; "connect"; "index"; "fetch"; "password"; "checkout"; "merge"; "internal"].

Definition clone_task_state_to_str (state : Z) : option string :=
  if (state <? 0) || (N_CLONE_STATES <=? state) then None
  else state_str !! Z.to_nat state.

Definition clone_task_error_to_str (error : Z) : option string :=
  if (error <? 0) || (N_CLONE_ERRORS <=? error) then None
  else error_str !! Z.to_nat error.

Definition state_code (s : CloneState) : Z :=
  match s with
  | CLONE_STATE_INIT => 0
  | CLONE_STATE_CONNECT => 1
  | CLONE_STATE_INDEX => 2
  | CLONE_STATE_FETCH => 3
  | CLONE_STATE_CHECKOUT => 4
  | CLONE_STATE_MERGE => 5
  | CLONE_STATE_DONE => 6
  | CLONE_STATE_ERROR => 7
  | CLONE_STATE_CANCEL_PENDING => 8
  | CLONE_STATE_CANCELED => 9
  end.

(** The three states in which [transition_state] removes the durable row. *)
Definition is_terminal (s : CloneState) : bool :=
  bool_decide (s = CLONE_STATE_DONE)
  || bool_decide (s = CLONE_STATE_ERROR)
  || bool_decide (s = CLONE_STATE_CANCELED).

(** ** Data of the collaborators, as far as clone-mgr.c reads it *)

Module SeafRepo.
Record t := mk {
  id : string;
  head : option string;        (* repo->head, NULL until checked out *)
  worktree : option string;
  encrypted : bool;
  enc_version : Z }.
End SeafRepo.

Module SeafCommit.
Record t := mk {
  commit_id : string;
  root_id : string;
  creator_name : string }.
End SeafCommit.

Module SeafBranch.
Record t := mk { commit_id : string }.
End SeafBranch.

Inductive PeerNetState := PEER_DOWN | PEER_CONNECTED.

#[global] Instance PeerNetState_eq_dec : EqDecision PeerNetState.
Proof. solve_decision. Defined.

Module CcnetPeer.
Record t := mk { net_state : PeerNetState }.
End CcnetPeer.

Inductive TaskState :=
| TASK_STATE_NORMAL
| TASK_STATE_CANCELED
| TASK_STATE_FINISHED
| TASK_STATE_ERROR.

#[global] Instance TaskState_eq_dec : EqDecision TaskState.
Proof. solve_decision. Defined.

Module TransferTask.
Record t := mk {
  is_clone : bool;
  repo_id : string;
  state : TaskState }.
End TransferTask.

Module CheckoutTask.
Record t := mk { success : bool }.
End CheckoutTask.

(** ** The clone task *)

Record CloneTask := mkCloneTask {
  repo_id : string;
  peer_id : string;
  repo_name : option string;
  token : string;
  worktree : string;
  passwd : option string;
  peer_addr : string;
  peer_port : string;
  email : string;
  state : CloneState;
  error : CloneError;
  tx_id : option string;
  root_id : string;
  addr : nat;                   (* ghost: address of the object *)
  trail : list CloneState       (* ghost: states entered, latest first *)
}.

Definition set_state (s : CloneState) (t : CloneTask) : CloneTask :=
  mkCloneTask (repo_id t) (peer_id t) (repo_name t) (token t) (worktree t)
    (passwd t) (peer_addr t) (peer_port t) (email t) s (error t) (tx_id t)
    (root_id t) (addr t) (s :: trail t).

Definition set_error (er : CloneError) (t : CloneTask) : CloneTask :=
  mkCloneTask (repo_id t) (peer_id t) (repo_name t) (token t) (worktree t)
    (passwd t) (peer_addr t) (peer_port t) (email t) (state t) er (tx_id t)
    (root_id t) (addr t) (trail t).

Definition set_tx_id (tx : option string) (t : CloneTask) : CloneTask :=
  mkCloneTask (repo_id t) (peer_id t) (repo_name t) (token t) (worktree t)
    (passwd t) (peer_addr t) (peer_port t) (email t) (state t) (error t) tx
    (root_id t) (addr t) (trail t).

Definition set_root_id (r : string) (t : CloneTask) : CloneTask :=
  mkCloneTask (repo_id t) (peer_id t) (repo_name t) (token t) (worktree t)
    (passwd t) (peer_addr t) (peer_port t) (email t) (state t) (error t)
    (tx_id t) r (addr t) (trail t).

(** [memcpy (dst, src, n)] into a zeroed array, read back as a C string as
    far as the array goes: the first [n] bytes of [src], or all of [src]
    when its terminator is among them (the bytes [memcpy] then takes from
    behind the terminator of [src] are never read back). *)
Definition c_array (n : nat) (src : string) : string := String.substring 0 n src.

(** The terminator of [src] is among the [n] bytes copied. *)
Definition terminated (n : nat) (src : string) : bool :=
  (String.length src <? n)%nat.

(** [g_new0] zeroes the object: state INIT, error OK, no transfer, empty
    root id.  [a] is the address the allocator returns. *)
Definition clone_task_new (a : nat) (repo_id peer_id : string)
    (repo_name : option string) (token worktree : string)
    (passwd : option string) (peer_addr peer_port email : string) : CloneTask :=
  mkCloneTask (c_array 37 repo_id) (c_array 41 peer_id) repo_name token worktree
    passwd peer_addr peer_port email CLONE_STATE_INIT CLONE_OK None "" a [].

(** ** The durable table *)

Record Row := mkRow {
  col_repo_id : string;
  col_repo_name : string;
  col_token : string;
  col_dest_id : string;
  col_worktree_parent : string;
  col_passwd : option string;
  col_server_addr : string;
  col_server_port : string;
  col_email : string }.

Inductive Sql :=
| SqlCreateTable                 (* CREATE TABLE IF NOT EXISTS CloneTasks *)
| SqlSelectAll                   (* SELECT * FROM CloneTasks *)
| SqlReplace (r : Row)           (* REPLACE INTO CloneTasks VALUES (...) *)
| SqlDelete (repo_id : string).  (* DELETE FROM CloneTasks WHERE repo_id=.. *)

(** ** Work handed to the collaborators, and calls made to them *)

Inductive Job :=
| JIndex (repo_id : string) (task : nat)
| JMerge (repo_id : string) (task : nat) (repo : SeafRepo.t)
| JCheckout (repo_id : string)
| JTransfer (repo_id : string).

Inductive Call :=
| SendCommand (cmd : string)
| Mkdir (path : string)
| IndexWorktree (repo_id worktree : string)
| MergeRecursive (repo_id head_root remote_root ancestor : string)
| UnpackTrees (repo_id from_root to_root : string)
| UpdateWorktree (repo_id commit_id : string)
| SetHead (repo_id commit_id : string)
| SetRepoWorktree (repo_id worktree : string)
| SetRepoToken (repo_id token : string)
| SetRepoEmail (repo_id email : string)
| SetRepoRelayInfo (repo_id addr port : string)
| SetRepoPasswd (repo_id passwd : string)
| CancelTransfer (tx_id : option string)
| RemoveTransfer (tx_id : string).

Inductive StatResult :=
| StatNoEnt                      (* rc < 0, errno == ENOENT *)
| StatFail                       (* rc < 0, another errno *)
| StatMode (is_dir : bool).      (* rc == 0, S_ISDIR (st.st_mode) *)

(** ** What the collaborators answer *)

Record Env := mkEnv {
  seaf_repo_manager_get_repo : string -> option SeafRepo.t;
  seaf_repo_manager_get_repo_list : list SeafRepo.t;
  seaf_repo_verify_passwd : SeafRepo.t -> string -> Z;
  seaf_repo_manager_set_repo_passwd : SeafRepo.t -> string -> Z;
  seaf_repo_index_worktree_files :
    string -> string -> option string -> string -> Z * string;
  seaf_branch_manager_get_branch : string -> string -> option SeafBranch.t;
  seaf_commit_manager_get_commit : string -> option SeafCommit.t;
  seaf_commit_manager_traverse_commit_tree : string -> list SeafCommit.t * bool;
  read_index_from : string -> Z;
  unpack_trees : string -> string -> Z;
  update_worktree : string -> Z;
  ccnet_get_peer : string -> option CcnetPeer.t;
  seaf_transfer_manager_add_download :
    string -> string -> string -> string -> string -> option string;
  (* the message the same call leaves in [*error] *)
  add_download_error :
    string -> string -> string -> string -> string -> option string;
  sqlite_fails : Sql -> bool;
  (* the table after a statement SQLite executes whose text was built from
     a value with a quote character, or was cut by its buffer *)
  sqlite_raw : string -> list Row -> list Row;
  g_lstat : string -> StatResult;
  g_access : string -> Z;
  g_mkdir_with_parents : string -> Z;
  g_dir_open : string -> option (list string) }.

(** ** The state of the daemon the clone manager works on *)

Record daemon := mkDaemon {
  tasks : gmap string CloneTask;   (* mgr->tasks *)
  db : list Row;                   (* table CloneTasks of mgr->db *)
  pending : list Job;              (* scheduled, completion not delivered *)
  calls : list Call;               (* calls made, oldest first *)
  next_addr : nat                  (* ghost: next address of the allocator *)
}.

Definition with_tasks (m : gmap string CloneTask) (d : daemon) : daemon :=
  mkDaemon m (db d) (pending d) (calls d) (next_addr d).

Definition with_db (rows : list Row) (d : daemon) : daemon :=
  mkDaemon (tasks d) rows (pending d) (calls d) (next_addr d).

Definition with_pending (js : list Job) (d : daemon) : daemon :=
  mkDaemon (tasks d) (db d) js (calls d) (next_addr d).

Definition schedule (j : Job) (d : daemon) : daemon :=
  with_pending (pending d ++ [j]) d.

Definition call (c : Call) (d : daemon) : daemon :=
  mkDaemon (tasks d) (db d) (pending d) (calls d ++ [c]) (next_addr d).

Definition alloc (d : daemon) : nat * daemon :=
  (next_addr d, mkDaemon (tasks d) (db d) (pending d) (calls d) (S (next_addr d))).

(** Failures of an operation: [g_assert], a read before the start or past
    the end of a buffer, the use of a freed task. *)
Inductive fault := AssertionFailed | OutOfBounds | UseAfterFree.

Inductive res (A : Type) :=
| Ret (a : A)
| Fault (f : fault).
Arguments Ret {A} a.
Arguments Fault {A} f.

(** ** SQLite *)

(** [Sql] names a statement by the values the code formats into it with
    [%s]; [sql_text] is the text that results.  The DELETE is built by
    [snprintf] in a buffer of 256 bytes. *)
Definition sql_values (r : Row) : string :=
  "('" +:+ col_repo_id r +:+ "', '" +:+ col_repo_name r +:+ "', '"
  +:+ col_token r +:+ "', '" +:+ col_dest_id r +:+ "', '"
  +:+ col_worktree_parent r +:+ "', "
  +:+ match col_passwd r with
      | Some pw => "'" +:+ pw +:+ "'"
      | None => "NULL"
      end
  +:+ ", '" +:+ col_server_addr r +:+ "', '" +:+ col_server_port r +:+ "', '"
  +:+ col_email r +:+ "')".

Definition delete_text (repo_id : string) : string :=
  "DELETE FROM CloneTasks WHERE repo_id='" +:+ repo_id +:+ "'".

Definition sql_text (q : Sql) : string :=
  match q with
  | SqlCreateTable =>
      "CREATE TABLE IF NOT EXISTS CloneTasks (repo_id TEXT, repo_name TEXT, "
      +:+ "token TEXT, dest_id TEXT,worktree_parent TEXT, passwd TEXT, "
      +:+ "server_addr TEXT, server_port TEXT, email TEXT);"
  | SqlSelectAll => "SELECT * FROM CloneTasks"
  | SqlReplace r => "REPLACE INTO CloneTasks VALUES " +:+ sql_values r
  | SqlDelete rid => String.substring 0 255 (delete_text rid)
  end.

(** The value can stand between two quote characters as it is. *)
Definition quote_free (s : string) : bool :=
  forallb (λ c, negb (Ascii.eqb c "'"%char)) (String.list_ascii_of_string s).

Definition plain_row (r : Row) : bool :=
  quote_free (col_repo_id r) && quote_free (col_repo_name r)
  && quote_free (col_token r) && quote_free (col_dest_id r)
  && quote_free (col_worktree_parent r)
  && match col_passwd r with Some pw => quote_free pw | None => true end
  && quote_free (col_server_addr r) && quote_free (col_server_port r)
  && quote_free (col_email r).

(** The text of the statement is the statement [q] names: every value is
    a string literal, and the text was not cut. *)
Definition plain_sql (q : Sql) : bool :=
  match q with
  | SqlCreateTable | SqlSelectAll => true
  | SqlReplace r => plain_row r
  | SqlDelete rid =>
      quote_free rid && (String.length (delete_text rid) <=? 255)%nat
  end.

Definition sql_effect (q : Sql) (rows : list Row) : list Row :=
  match q with
  | SqlCreateTable | SqlSelectAll => rows
  | SqlReplace r => rows ++ [r]   (* the table has no key: REPLACE inserts *)
  | SqlDelete rid => filter (λ r, col_repo_id r ≠ rid) rows
  end.

(** The table after a statement that SQLite executes. *)
Definition sql_result (e : Env) (q : Sql) (rows : list Row) : list Row :=
  if plain_sql q then sql_effect q rows else sqlite_raw e (sql_text q) rows.

Definition sqlite_query_exec (e : Env) (q : Sql) (d : daemon) : Z * daemon :=
  if sqlite_fails e q then (-1, d)
  else (0, with_db (sql_result e q (db d)) d).

(** The values [save_task_to_db] formats into its statement; [%s] prints a
    NULL [repo_name] as [(null)]. *)
Definition row_of_task (task : CloneTask) : Row :=
  mkRow (repo_id task) (default "(null)" (repo_name task)) (token task)
    (peer_id task) (worktree task) (passwd task) (peer_addr task)
    (peer_port task) (email task).

Definition save_task_to_db (e : Env) (task : CloneTask) (d : daemon) : Z * daemon :=
  let '(rc, d1) := sqlite_query_exec e (SqlReplace (row_of_task task)) d in
  if rc <? 0 then (-1, d1) else (0, d1).

Definition remove_task_from_db (e : Env) (repo_id : string) (d : daemon) : Z * daemon :=
  let '(rc, d1) := sqlite_query_exec e (SqlDelete repo_id) d in
  if rc <? 0 then (-1, d1) else (0, d1).

(** ** Transitions *)

Definition transition_state (e : Env) (task : CloneTask) (new_state : CloneState)
    (d : daemon) : CloneTask * daemon :=
  let d1 :=
    if bool_decide (new_state = CLONE_STATE_DONE)
       || bool_decide (new_state = CLONE_STATE_ERROR)
       || bool_decide (new_state = CLONE_STATE_CANCELED)
    then (remove_task_from_db e (repo_id task) d).2
    else d in
  (set_state new_state task, d1).

Definition transition_to_error (e : Env) (task : CloneTask) (error : CloneError)
    (d : daemon) : CloneTask * daemon :=
  let d1 := (remove_task_from_db e (repo_id task) d).2 in
  (set_error error (set_state CLONE_STATE_ERROR task), d1).

(** Besides the result, the message the transfer manager leaves in
    [*error]; a caller that passes NULL drops it. *)
Definition add_transfer_task (e : Env) (task : CloneTask) (d : daemon)
    : Z * option string * CloneTask * daemon :=
  let tx := seaf_transfer_manager_add_download e (repo_id task) (peer_id task)
              "fetch_head" "master" (token task) in
  let error := add_download_error e (repo_id task) (peer_id task)
                 "fetch_head" "master" (token task) in
  let task1 := set_tx_id tx task in
  match tx with
  | None => (-1, error, task1, d)
  | Some _ => (0, error, task1, schedule (JTransfer (repo_id task)) d)
  end.

(** ** Indexing the files already in the worktree *)

Definition index_files_job (e : Env) (task : CloneTask) (d : daemon)
    : bool * CloneTask * daemon :=
  let '(rc, root) := seaf_repo_index_worktree_files e (repo_id task)
                       (worktree task) (passwd task) (root_id task) in
  (bool_decide (rc = 0), set_root_id root task,
   call (IndexWorktree (repo_id task) (worktree task)) d).

Definition index_files_done (e : Env) (success : bool) (task : CloneTask)
    (d : daemon) : CloneTask * daemon :=
  if negb success then transition_to_error e task CLONE_ERROR_INDEX d
  else if bool_decide (state task = CLONE_STATE_CANCEL_PENDING)
  then transition_state e task CLONE_STATE_CANCELED d
  else
    let '(rc, _, task1, d1) := add_transfer_task e task d in
    if rc <? 0 then transition_to_error e task1 CLONE_ERROR_FETCH d1
    else transition_state e task1 CLONE_STATE_FETCH d1.

Definition is_non_empty_directory (e : Env) (path : string) : bool :=
  match g_dir_open e path with
  | Some (_ :: _) => true
  | _ => false
  end.

(** Like [add_transfer_task], returns the message left in [*error]. *)
Definition start_index_or_transfer (e : Env) (task : CloneTask) (d : daemon)
    : Z * option string * CloneTask * daemon :=
  if is_non_empty_directory e (worktree task) then
    let '(task1, d1) := transition_state e task CLONE_STATE_INDEX d in
    (0, None, task1, schedule (JIndex (repo_id task1) (addr task1)) d1)
  else
    let '(ret, error, task1, d1) := add_transfer_task e task d in
    if ret =? 0 then
      let '(task2, d2) := transition_state e task1 CLONE_STATE_FETCH d1 in
      (ret, error, task2, d2)
    else
      let '(task2, d2) := transition_to_error e task1 CLONE_ERROR_FETCH d1 in
      (ret, error, task2, d2).

(** ** Connecting to the relay *)

Definition is_task_relay_connected (e : Env) (task : CloneTask) : bool :=
  match ccnet_get_peer e (peer_id task) with
  | Some peer => bool_decide (CcnetPeer.net_state peer = PEER_CONNECTED)
  | None => false
  end.

Definition start_connect_task_relay (e : Env) (task : CloneTask) (d : daemon)
    : CloneTask * daemon :=
  match ccnet_get_peer e (peer_id task) with
  | None =>
      let buf := "add-relay --id " +:+ peer_id task +:+ " --addr "
                 +:+ peer_addr task +:+ ":" +:+ peer_port task in
      transition_state e task CLONE_STATE_CONNECT (call (SendCommand buf) d)
  | Some _ => transition_state e task CLONE_STATE_CONNECT d
  end.

Definition continue_task_when_peer_connected (e : Env) (task : CloneTask)
    (d : daemon) : CloneTask * daemon :=
  match ccnet_get_peer e (peer_id task) with
  | Some peer =>
      if bool_decide (CcnetPeer.net_state peer = PEER_CONNECTED)
      then let '(_, _, task1, d1) := start_index_or_transfer e task d in (task1, d1)
      else (task, d)
  | None => (task, d)
  end.

(** ** Checkout and merge *)

Record CompareAux := mkCompareAux {
  fast_forward : bool;
  aux_root_id : string }.

(** Returns the updated [aux], the value left in [*stop] and the result. *)
Definition compare_root (commit : SeafCommit.t) (aux : CompareAux)
    : CompareAux * bool * bool :=
  if fast_forward aux then (aux, true, true)
  else if bool_decide (SeafCommit.root_id commit = aux_root_id aux)
  then (mkCompareAux true (aux_root_id aux), true, true)
  else (aux, false, true).

(** The commits the traversal hands to the callback, in its order; [*stop]
    prunes the ancestors of a commit, which the environment's list already
    accounts for.  A callback returning FALSE ends the traversal. *)
Fixpoint traverse_with (commits : list SeafCommit.t) (aux : CompareAux)
    : CompareAux * bool :=
  match commits with
  | [] => (aux, true)
  | c :: rest =>
      let '(aux1, _, ret) := compare_root c aux in
      if ret then traverse_with rest aux1 else (aux1, false)
  end.

Definition check_fast_forward (e : Env) (head : SeafCommit.t) (root_id : string)
    : bool :=
  let aux := mkCompareAux false root_id in
  let '(commits, ok) :=
    seaf_commit_manager_traverse_commit_tree e (SeafCommit.commit_id head) in
  let '(aux1, cb_ok) := traverse_with commits aux in
  if negb (ok && cb_ok) then false else fast_forward aux1.

Definition EMPTY_SHA1 : string := "0000000000000000000000000000000000000000".

Definition real_merge (e : Env) (repo : SeafRepo.t) (head : SeafCommit.t)
    (task : CloneTask) (d : daemon) : Z * daemon :=
  if read_index_from e (SeafRepo.id repo) <? 0 then (-1, d)
  else (0, call (MergeRecursive (SeafRepo.id repo) (root_id task)
                   (SeafCommit.root_id head) EMPTY_SHA1) d).

Definition fast_forward_checkout (e : Env) (repo : SeafRepo.t)
    (head : SeafCommit.t) (task : CloneTask) (d : daemon) : Z * daemon :=
  if bool_decide (SeafCommit.root_id head = root_id task) then (0, d)
  else if read_index_from e (SeafRepo.id repo) <? 0 then (-1, d)
  else
    let d1 := call (UnpackTrees (SeafRepo.id repo) (root_id task)
                      (SeafCommit.root_id head)) d in
    if unpack_trees e (root_id task) (SeafCommit.root_id head) <? 0 then (-1, d1)
    else
      let d2 := call (UpdateWorktree (SeafRepo.id repo)
                        (SeafCommit.commit_id head)) d1 in
      if update_worktree e (SeafCommit.commit_id head) <? 0 then (-1, d2)
      else (0, d2).

(** [aux->success] starts FALSE ([g_new0]); the result is the flag, the
    task with the root id the job may have written, and the calls made. *)
Definition merge_job (e : Env) (repo : SeafRepo.t) (task : CloneTask)
    (d : daemon) : bool * CloneTask * daemon :=
  let indexed :=
    if bool_decide (root_id task = "") then
      let '(rc, root) := seaf_repo_index_worktree_files e (repo_id task)
                           (worktree task) (passwd task) (root_id task) in
      (rc, set_root_id root task,
       call (IndexWorktree (repo_id task) (worktree task)) d)
    else (0, task, d) in
  let '(rc, task1, d1) := indexed in
  if rc <? 0 then (false, task1, d1)
  else
    match seaf_branch_manager_get_branch e (SeafRepo.id repo) "local" with
    | None => (false, task1, d1)
    | Some local =>
        match seaf_commit_manager_get_commit e (SeafBranch.commit_id local) with
        | None => (false, task1, d1)
        | Some head =>
            let '(mrc, d2) :=
              if check_fast_forward e head (root_id task1)
              then fast_forward_checkout e repo head task1 d1
              else real_merge e repo head task1 d1 in
            if mrc <? 0 then (false, task1, d2)
            else (true, task1,
                  call (SetHead (SeafRepo.id repo) (SeafCommit.commit_id head)) d2)
        end
    end.

Definition merge_job_done (e : Env) (success : bool) (repo : SeafRepo.t)
    (task : CloneTask) (d : daemon) : res (CloneTask * daemon) :=
  if negb success then Ret (transition_to_error e task CLONE_ERROR_MERGE d)
  else
    let d1 := call (SetRepoWorktree (SeafRepo.id repo) (worktree task)) d in
    if bool_decide (state task = CLONE_STATE_CANCEL_PENDING)
    then Ret (transition_state e task CLONE_STATE_CANCELED d1)
    else if bool_decide (state task = CLONE_STATE_MERGE)
    then Ret (transition_state e task CLONE_STATE_DONE d1)
    else Fault AssertionFailed.

Definition start_checkout (e : Env) (repo : SeafRepo.t) (task : CloneTask)
    (d : daemon) : CloneTask * daemon :=
  let go (d0 : daemon) :=
    if negb (is_non_empty_directory e (worktree task)) then
      let '(task1, d1) := transition_state e task CLONE_STATE_CHECKOUT d0 in
      (task1, schedule (JCheckout (SeafRepo.id repo)) d1)
    else
      let '(task1, d1) := transition_state e task CLONE_STATE_MERGE d0 in
      (task1, schedule (JMerge (repo_id task1) (addr task1) repo) d1) in
  match SeafRepo.encrypted repo, passwd task with
  | true, Some pw =>
      if (1 <=? SeafRepo.enc_version repo)
         && (seaf_repo_verify_passwd e repo pw <? 0)
      then transition_to_error e task CLONE_ERROR_PASSWD d
      else
        let d1 := call (SetRepoPasswd (SeafRepo.id repo) pw) d in
        if seaf_repo_manager_set_repo_passwd e repo pw <? 0
        then transition_to_error e task CLONE_ERROR_INTERNAL d1
        else go d1
  | true, None => transition_to_error e task CLONE_ERROR_PASSWD d
  | false, _ => go d
  end.

(** The two event sinks work on the task they are handed; the lookup in
    [mgr->tasks] and its assertion are in [dispatch] below. *)
Definition on_repo_fetched (e : Env) (tx_task : TransferTask.t)
    (task : CloneTask) (d : daemon) : CloneTask * daemon :=
  if bool_decide (TransferTask.state tx_task = TASK_STATE_CANCELED)
  then transition_state e task CLONE_STATE_CANCELED d
  else if bool_decide (TransferTask.state tx_task = TASK_STATE_ERROR)
  then transition_to_error e task CLONE_ERROR_FETCH d
  else
    match seaf_repo_manager_get_repo e (TransferTask.repo_id tx_task) with
    | None => transition_to_error e task CLONE_ERROR_INTERNAL d
    | Some repo =>
        let d1 := call (SetRepoToken (SeafRepo.id repo) (token task)) d in
        let d2 := call (SetRepoEmail (SeafRepo.id repo) (email task)) d1 in
        let d3 := call (SetRepoRelayInfo (SeafRepo.id repo) (peer_addr task)
                          (peer_port task)) d2 in
        start_checkout e repo task d3
    end.

Definition on_checkout_done (e : Env) (ctask : CheckoutTask.t)
    (task : CloneTask) (d : daemon) : res (CloneTask * daemon) :=
  if negb (CheckoutTask.success ctask)
  then Ret (transition_to_error e task CLONE_ERROR_CHECKOUT d)
  else if bool_decide (state task = CLONE_STATE_CANCEL_PENDING)
  then Ret (transition_state e task CLONE_STATE_CANCELED d)
  else if bool_decide (state task = CLONE_STATE_CHECKOUT)
  then Ret (transition_state e task CLONE_STATE_DONE d)
  else Fault AssertionFailed.

(** ** Placing the worktree *)

Definition is_slash (c : ascii) : bool := bool_decide (c = "/"%char).

(** The separators [make_worktree] strips: slash and backslash. *)
Definition is_wt_sep (c : ascii) : bool :=
  bool_decide (c = "/"%char) || bool_decide (c = "\"%char).

Fixpoint skip_while (p : ascii -> bool) (l : list ascii) : list ascii :=
  match l with
  | c :: l' => if p c then skip_while p l' else l
  | [] => []
  end.

Fixpoint span_while (p : ascii -> bool) (l : list ascii) : list ascii :=
  match l with
  | c :: l' => if p c then c :: span_while p l' else []
  | [] => []
  end.

(** GLib's [g_path_get_basename] where the separator is the slash. *)
Definition g_path_get_basename (file_name : string) : string :=
  match file_name with
  | EmptyString => "."
  | _ =>
      let r := skip_while is_slash (rev (String.list_ascii_of_string file_name)) in
      match r with
      | [] => "/"
      | _ => String.string_of_list_ascii (rev (span_while (λ c, negb (is_slash c)) r))
      end
  end.

(** GLib's [g_build_filename] for two elements and the slash: empty
    elements are skipped, one slash is put at the boundary, the leading
    slashes of the first element and the trailing ones of the last are
    kept, and a lone element made of slashes is returned as it is. *)
Definition g_build_filename (first second : string) : string :=
  let parts (s : string) :=
    let l := String.list_ascii_of_string s in
    let start := skip_while is_slash l in
    let core := rev (skip_while is_slash (rev start)) in
    let last_trailing :=
      match core with
      | [] => l
      | _ => span_while is_slash (rev start)
      end in
    (span_while is_slash l, core, last_trailing) in
  match first, second with
  | EmptyString, EmptyString => ""
  | EmptyString, s | s, EmptyString =>
      let '(lead, core, trailing) := parts s in
      match core with
      | [] => s
      | _ => String.string_of_list_ascii (lead ++ core ++ trailing)
      end
  | a, b =>
      let '(lead, core_a, _) := parts a in
      let '(_, core_b, trailing) := parts b in
      let glue :=
        match core_a, core_b with
        | _ :: _, _ :: _ => ["/"%char]
        | _, _ => []
        end in
      String.string_of_list_ascii (lead ++ core_a ++ glue ++ core_b ++ trailing)
  end.

(** Runs [body] up to [2 ^ n] times, stopping at the first [inr]. *)
Fixpoint loop_pow2 {S R : Type} (n : nat) (body : S -> S + R) (s : S) : S + R :=
  match n with
  | O => body s
  | Datatypes.S n' =>
      match loop_pow2 n' body s with
      | inl s' => loop_pow2 n' body s'
      | inr r => inr r
      end
  end.

Definition UINT_MAX : Z := 2 ^ 32 - 1.

(** [%d] applied to an [unsigned int]. *)
Definition printf_d (cnt : Z) : string :=
  pretty (if cnt <? 2 ^ 31 then cnt else cnt - 2 ^ 32).

(** One turn of the [while (1)] of [try_worktree]: the next [cnt], or the
    value returned. *)
Definition try_worktree_body (e : Env) (worktree : string) (cnt : Z)
    : Z + option string :=
  let tmp := worktree +:+ "-" +:+ printf_d cnt in
  let cnt1 := (cnt + 1) mod 2 ^ 32 in
  if g_access e tmp <? 0 then inr (Some tmp)
  else if cnt1 =? UINT_MAX then inr None
  else inl cnt1.

(** The loop returns within [2 ^ 32 - 2] turns (see
    [try_worktree_returns]); the last case is not reached. *)
Definition try_worktree (e : Env) (worktree : string) : option string :=
  match loop_pow2 32 (try_worktree_body e worktree) 1 with
  | inr r => r
  | inl _ => None
  end.

Arguments loop_pow2 : simpl never.
Arguments try_worktree : simpl never.

Definition is_duplicate_task (d : daemon) (repo_id : string) : bool :=
  match tasks d !! repo_id with
  | Some task => negb (is_terminal (state task))
  | None => false
  end.

Definition is_worktree_of_repo (e : Env) (d : daemon) (path : string) : bool :=
  existsb (λ repo, bool_decide (SeafRepo.worktree repo = Some path))
    (seaf_repo_manager_get_repo_list e)
  || existsb (λ kv : string * CloneTask,
                negb (is_terminal (state kv.2))
                && bool_decide (worktree kv.2 = path))
       (map_to_list (tasks d)).

(** [wt[tail--] = 0] while [wt[tail]] is a separator, from the last byte;
    past the first byte the loop reads [wt[-1]]. *)
Fixpoint strip_tail_rev (r : list ascii) : option (list ascii) :=
  match r with
  | [] => None
  | c :: r' => if is_wt_sep c then strip_tail_rev r' else Some r
  end.

Definition strip_tail (worktree : string) : option string :=
  (λ r, String.string_of_list_ascii (rev r))
    <$> strip_tail_rev (rev (String.list_ascii_of_string worktree)).

(** The result of [make_worktree]: the path or NULL, and the message set
    in [*error] if any. *)
Record Placed := mkPlaced {
  placed_path : option string;
  placed_error : option string }.

Definition mk_dir (e : Env) (ret : option string) (dry_run : bool) (d : daemon)
    : Placed * daemon :=
  if dry_run then (mkPlaced ret None, d)
  else
    match ret with
    | Some p =>
        let d1 := call (Mkdir p) d in
        if g_mkdir_with_parents e p <? 0 then (mkPlaced None None, d1)
        else (mkPlaced ret None, d1)
    | None => (mkPlaced None None, d)
    end.

Definition make_worktree (e : Env) (worktree : string) (dry_run : bool)
    (d : daemon) : res (Placed * daemon) :=
  match strip_tail worktree with
  | None => Fault OutOfBounds
  | Some wt =>
      match g_lstat e wt with
      | StatNoEnt => Ret (mk_dir e (Some wt) dry_run d)
      | StatFail | StatMode false =>
          if negb dry_run
          then Ret (mkPlaced None (Some "Invalid local directory"), d)
          else Ret (mk_dir e (try_worktree e wt) dry_run d)
      | StatMode true =>
          if is_worktree_of_repo e d wt then
            if negb dry_run
            then Ret (mkPlaced None (Some "Already in sync"), d)
            else Ret (mk_dir e (try_worktree e wt) dry_run d)
          else Ret (mkPlaced (Some wt) None, d)
      end
  end.

Definition seaf_clone_manager_gen_default_worktree (e : Env)
    (worktree_parent repo_name : string) (d : daemon) : res (string * daemon) :=
  let wt := g_build_filename worktree_parent repo_name in
  match make_worktree e wt true d with
  | Fault f => Fault f
  | Ret (placed, d1) =>
      match placed_path placed with
      | None => Ret (wt, d1)
      | Some worktree => Ret (worktree, d1)
      end
  end.

(** [strncmp (a, b, n) == 0] on C strings. *)
Definition strncmp_eq (a b : string) (n : nat) : bool :=
  bool_decide (take n (String.list_ascii_of_string a) = take n (String.list_ascii_of_string b)).

Definition worktree_repo_name_matches (worktree repo_name : string) : bool :=
  let base := g_path_get_basename worktree in
  let base_len := String.length base in
  let name_len := String.length repo_name in
  if (base_len <? name_len)%nat then false
  else strncmp_eq base repo_name name_len.

(** ** Operations of the manager *)

(** The value returned by [seaf_clone_manager_add_task] and the message
    left in [*error], by the function itself or by the transfer manager,
    to which it hands [error] down. *)
Record Added := mkAdded {
  added_repo_id : option string;
  added_error : option string }.

Record CloneRequest := mkCloneRequest {
  req_repo_id : string;
  req_peer_id : string;
  req_repo_name : string;
  req_token : string;
  req_passwd : option string;
  req_worktree_in : string;
  req_peer_addr : string;
  req_peer_port : string;
  req_email : string }.

Definition table_insert (task : CloneTask) (d : daemon) : daemon :=
  with_tasks (<[repo_id task := task]> (tasks d)) d.

Definition seaf_clone_manager_add_task (e : Env) (rq : CloneRequest) (d : daemon)
    : res (Added * daemon) :=
  if negb (String.length (req_repo_id rq) =? 36)%nat then Fault AssertionFailed
  else
    let repo := seaf_repo_manager_get_repo e (req_repo_id rq) in
    if match repo with
       | Some r => bool_decide (SeafRepo.head r ≠ None)
       | None => false
       end
    then Ret (mkAdded None (Some "Repo already exists"), d)
    else if is_duplicate_task d (req_repo_id rq)
    then Ret (mkAdded None (Some "Task is already in progress"), d)
    else if negb (worktree_repo_name_matches (req_worktree_in rq) (req_repo_name rq))
    then Ret (mkAdded None (Some "Invalid local directory name"), d)
    else
      match make_worktree e (req_worktree_in rq) false d with
      | Fault f => Fault f
      | Ret (placed, d1) =>
          match placed_path placed with
          | None => Ret (mkAdded None (placed_error placed), d1)
          | Some worktree =>
              let '(a, d2) := alloc d1 in
              let task := clone_task_new a (req_repo_id rq) (req_peer_id rq)
                            (Some (req_repo_name rq)) (req_token rq) worktree
                            (req_passwd rq) (req_peer_addr rq) (req_peer_port rq)
                            (req_email rq) in
              (* [save_task_to_db] reads [task->peer_id] as a string *)
              if negb (terminated 41 (req_peer_id rq)) then Fault OutOfBounds
              else
              let '(rc, d3) := save_task_to_db e task d2 in
              if rc <? 0 then Ret (mkAdded None None, d3)
              else
                let '(error, task1, d4) :=
                  match repo with
                  | Some r =>
                      let '(t, d') := start_checkout e r task d3 in (None, t, d')
                  | None =>
                      if negb (is_task_relay_connected e task)
                      then
                        let '(t, d') := start_connect_task_relay e task d3 in
                        (None, t, d')
                      else
                        let '(_, error, t, d') :=
                          start_index_or_transfer e task d3 in
                        (error, t, d')
                  end in
                Ret (mkAdded (Some (req_repo_id rq)) error, table_insert task1 d4)
          end
      end.

Definition seaf_clone_manager_cancel_task (e : Env) (repo_id : string)
    (d : daemon) : Z * daemon :=
  match tasks d !! repo_id with
  | None => (-1, d)
  | Some task =>
      let store '(task1, d1) := with_tasks (<[repo_id := task1]> (tasks d1)) d1 in
      match state task with
      | CLONE_STATE_INIT | CLONE_STATE_CONNECT =>
          (0, store (transition_state e task CLONE_STATE_CANCELED d))
      | CLONE_STATE_FETCH =>
          (0, store (transition_state e task CLONE_STATE_CANCEL_PENDING
                       (call (CancelTransfer (tx_id task)) d)))
      | CLONE_STATE_INDEX | CLONE_STATE_CHECKOUT | CLONE_STATE_MERGE =>
          (0, store (transition_state e task CLONE_STATE_CANCEL_PENDING d))
      | CLONE_STATE_CANCEL_PENDING => (0, d)
      | _ => (-1, d)
      end
  end.

Definition seaf_clone_manager_remove_task (e : Env) (repo_id : string)
    (d : daemon) : Z * daemon :=
  match tasks d !! repo_id with
  | None => (-1, d)
  | Some task =>
      if negb (is_terminal (state task)) then (-1, d)
      else
        let d1 :=
          match tx_id task with
          | Some tx => call (RemoveTransfer tx) d
          | None => d
          end in
        (0, with_tasks (delete repo_id (tasks d1)) d1)
  end.

Definition seaf_clone_manager_get_task (d : daemon) (repo_id : string)
    : option CloneTask :=
  tasks d !! repo_id.

Definition seaf_clone_manager_get_tasks (d : daemon) : list CloneTask :=
  (map_to_list (tasks d)).*2.

(** The timer of [seaf_clone_manager_start] fires [check_connect_pulse]
    every [CHECK_CONNECT_INTERVAL] seconds. *)
Definition CHECK_CONNECT_INTERVAL : Z := 5.

Definition check_connect_pulse (e : Env) (d : daemon) : daemon :=
  foldl (λ (d0 : daemon) (kv : string * CloneTask),
           if bool_decide (state kv.2 = CLONE_STATE_CONNECT) then
             let '(task1, d1) := continue_task_when_peer_connected e kv.2 d0 in
             with_tasks (<[kv.1 := task1]> (tasks d1)) d1
           else d0)
    d (map_to_list (tasks d)).

(** ** Startup *)

Definition seaf_clone_manager_new (rows : list Row) : daemon :=
  mkDaemon ∅ rows [] [] 0.

(** Every branch reads [task->repo_id] as a string (the key it gives to
    the hash table), and the branch of an unknown repository reads
    [task->peer_id] ([is_task_relay_connected]). *)
Definition restart_task (e : Env) (row : Row) (d : daemon) : res daemon :=
  let '(a, d0) := alloc d in
  let task := clone_task_new a (col_repo_id row) (col_dest_id row)
                (Some (col_repo_name row)) (col_token row)
                (col_worktree_parent row) (col_passwd row)
                (col_server_addr row) (col_server_port row) (col_email row) in
  if negb (terminated 37 (col_repo_id row)) then Fault OutOfBounds
  else
    match seaf_repo_manager_get_repo e (col_repo_id row) with
    | Some repo =>
        match SeafRepo.head repo with
        | Some _ =>
            let '(task1, d1) := transition_state e task CLONE_STATE_DONE d0 in
            Ret (table_insert task1 d1)
        | None =>
            let '(task1, d1) :=
              start_checkout e repo task (table_insert task d0) in
            Ret (table_insert task1 d1)
        end
    | None =>
        if negb (terminated 41 (col_dest_id row)) then Fault OutOfBounds
        else
          let '(task1, d1) :=
            if negb (is_task_relay_connected e task)
            then start_connect_task_relay e task d0
            else
              let '(_, _, t, d') := start_index_or_transfer e task d0 in
              (t, d') in
          Ret (table_insert task1 d1)
    end.

(** [sqlite_foreach_selected_row] with [restart_task] as its callback. *)
Fixpoint restart_rows (e : Env) (rows : list Row) (d : daemon) : res daemon :=
  match rows with
  | [] => Ret d
  | row :: rest =>
      match restart_task e row d with
      | Ret d1 => restart_rows e rest d1
      | Fault f => Fault f
      end
  end.

Definition seaf_clone_manager_init (e : Env) (d : daemon) : res (Z * daemon) :=
  let '(rc, d1) := sqlite_query_exec e SqlCreateTable d in
  if rc <? 0 then Ret (-1, d1)
  else if sqlite_fails e SqlSelectAll then Ret (-1, d1)
  else
    match restart_rows e (db d1) d1 with
    | Ret d2 => Ret (0, d2)
    | Fault f => Fault f
    end.

(** ** Events *)

#[global] Instance SeafRepo_eq_dec : EqDecision SeafRepo.t.
Proof. solve_decision. Defined.

#[global] Instance Job_eq_dec : EqDecision Job.
Proof. solve_decision. Defined.

(** Takes one occurrence of [j] out of the pending work; [None] when there
    is none, and the completion cannot be delivered. *)
Fixpoint deliver (j : Job) (js : list Job) : option (list Job) :=
  match js with
  | [] => None
  | j' :: rest =>
      if decide (j' = j) then Some rest else (j' ::.) <$> deliver j rest
  end.

Inductive Event :=
| EvAddTask (rq : CloneRequest)
| EvGenDefaultWorktree (worktree_parent repo_name : string)
| EvCancelTask (repo_id : string)
| EvRemoveTask (repo_id : string)
| EvPulse
| EvIndexDone (repo_id : string) (task : nat)
| EvMergeDone (repo_id : string) (task : nat) (repo : SeafRepo.t)
| EvRepoFetched (tx_task : TransferTask.t)
| EvCheckoutDone (ctask : CheckoutTask.t) (repo : SeafRepo.t).

Definition store_task (key : string) (r : CloneTask * daemon) : daemon :=
  with_tasks (<[key := r.1]> (tasks r.2)) r.2.

(** One turn of the event loop.  [None]: the event cannot occur (no such
    work is pending).  The job completions reach the task through the
    pointer kept in their [aux]; the two event sinks look it up. *)
Definition dispatch (e : Env) (ev : Event) (d : daemon) : option (res daemon) :=
  match ev with
  | EvAddTask rq =>
      Some match seaf_clone_manager_add_task e rq d with
           | Ret (_, d') => Ret d'
           | Fault f => Fault f
           end
  | EvGenDefaultWorktree parent name =>
      Some match seaf_clone_manager_gen_default_worktree e parent name d with
           | Ret (_, d') => Ret d'
           | Fault f => Fault f
           end
  | EvCancelTask rid => Some (Ret (seaf_clone_manager_cancel_task e rid d).2)
  | EvRemoveTask rid => Some (Ret (seaf_clone_manager_remove_task e rid d).2)
  | EvPulse => Some (Ret (check_connect_pulse e d))
  | EvIndexDone rid a =>
      rest ← deliver (JIndex rid a) (pending d);
      Some match tasks d !! rid with
           | Some task =>
               if bool_decide (addr task = a) then
                 let '(success, task1, d1) :=
                   index_files_job e task (with_pending rest d) in
                 Ret (store_task rid (index_files_done e success task1 d1))
               else Fault UseAfterFree
           | None => Fault UseAfterFree
           end
  | EvMergeDone rid a repo =>
      rest ← deliver (JMerge rid a repo) (pending d);
      Some match tasks d !! rid with
           | Some task =>
               if bool_decide (addr task = a) then
                 let '(success, task1, d1) :=
                   merge_job e repo task (with_pending rest d) in
                 match merge_job_done e success repo task1 d1 with
                 | Ret r => Ret (store_task rid r)
                 | Fault f => Fault f
                 end
               else Fault UseAfterFree
           | None => Fault UseAfterFree
           end
  | EvRepoFetched tx_task =>
      if negb (TransferTask.is_clone tx_task) then Some (Ret d)
      else
        rest ← deliver (JTransfer (TransferTask.repo_id tx_task)) (pending d);
        Some match tasks d !! TransferTask.repo_id tx_task with
             | Some task =>
                 Ret (store_task (TransferTask.repo_id tx_task)
                        (on_repo_fetched e tx_task task (with_pending rest d)))
             | None => Fault AssertionFailed
             end
  | EvCheckoutDone ctask repo =>
      rest ← deliver (JCheckout (SeafRepo.id repo)) (pending d);
      Some match tasks d !! SeafRepo.id repo with
           | Some task =>
               match on_checkout_done e ctask task (with_pending rest d) with
               | Ret r => Ret (store_task (SeafRepo.id repo) r)
               | Fault f => Fault f
               end
           | None => Fault AssertionFailed
           end
  end.

(** The daemons a run can be in: started on a table with the rows [rows],
    then any events, each with what the collaborators answer at that
    moment.  [G] restricts the answers and [I] the table at startup. *)
Inductive reachable (G : Env -> Prop) (I : list Row -> Prop) : daemon -> Prop :=
| reach_init e rows d :
    G e -> I rows ->
    seaf_clone_manager_init e (seaf_clone_manager_new rows) = Ret (0, d) ->
    reachable G I d
| reach_step e ev d d' :
    G e -> reachable G I d ->
    dispatch e ev d = Some (Ret d') ->
    reachable G I d'.

(** A string starts with another one, byte for byte. *)
Definition is_prefix (p s : string) : Prop := ∃ rest, s = p +:+ rest.

(** The [while (1)] of [try_worktree] with the number of turns spelled
    out; [loop_pow2 n] is [loop_fuel (2 ^ n)] ([loop_pow2_fuel]). *)
Fixpoint loop_fuel {S R : Type} (fuel : nat) (body : S -> S + R) (s : S) : S + R :=
  match fuel with
  | O => inl s
  | Datatypes.S fuel' =>
      match body s with
      | inl s' => loop_fuel fuel' body s'
      | inr r => inr r
      end
  end.

(** [seaf_clone_manager_gen_default_worktree] called [n] times in a row. *)
Fixpoint gen_default_worktree_times (e : Env) (worktree_parent repo_name : string)
    (n : nat) (d : daemon) : res (list string * daemon) :=
  match n with
  | O => Ret ([], d)
  | Datatypes.S n' =>
      match seaf_clone_manager_gen_default_worktree e worktree_parent repo_name d with
      | Fault f => Fault f
      | Ret (p, d1) =>
          match gen_default_worktree_times e worktree_parent repo_name n' d1 with
          | Fault f => Fault f
          | Ret (ps, d2) => Ret (p :: ps, d2)
          end
      end
  end.

(** The candidate [try_worktree] builds in turn [cnt]. *)
Definition numbered (worktree : string) (cnt : Z) : string :=
  worktree +:+ "-" +:+ printf_d cnt.

(** The cases in which a dry run of [make_worktree] keeps the path it is
    given: nothing is there, or a directory no repository and no running
    task uses. *)
Definition keeps_path (e : Env) (d : daemon) (wt : string) : bool :=
  match g_lstat e wt with
  | StatNoEnt => true
  | StatMode true => negb (is_worktree_of_repo e d wt)
  | _ => false
  end.

(** ** Concrete scenarios *)

Definition sample_repo_id : string := "0f1e2d3c-4b5a-6978-8796-a5b4c3d2e1f0".
Definition sample_peer_id : string := "89abcdef0123456789abcdef0123456789abcdef".
Definition sample_root : string := "3b18e512dba79e4c8300dd08aeb37f8e728b8dad".

(** Collaborators that answer: the repository [repo] (if any) under its
    id, [verify] to a passphrase check, [index_rc] to an indexing request
    (writing [sample_root] on success), [entries] as the content of any
    directory, [peer] for any peer id, [tx] to a download request,
    [sql_fails] for SQLite, and [lstat] and [access] for the file system.
    The transfer manager leaves no message, and SQLite ignores a statement
    that is not the one its values name. *)
Definition sample_env (repo : option SeafRepo.t) (verify index_rc : Z)
    (entries : option (list string)) (peer : option CcnetPeer.t)
    (tx : option string) (sql_fails : Sql -> bool)
    (lstat : string -> StatResult) (access : string -> Z) : Env :=
  mkEnv
    (λ rid, match repo with
            | Some r => if bool_decide (SeafRepo.id r = rid) then Some r else None
            | None => None
            end)
    (match repo with Some r => [r] | None => [] end)
    (λ _ _, verify)
    (λ _ _, 0)
    (λ _ _ _ root, (index_rc, if index_rc <? 0 then root else sample_root))
    (λ _ _, None)
    (λ _, None)
    (λ _, ([], true))
    (λ _, 0)
    (λ _ _, 0)
    (λ _, 0)
    (λ _, peer)
    (λ _ _ _ _ _, tx)
    (λ _ _ _ _ _, None)
    sql_fails
    (λ _ rows, rows)
    lstat
    access
    (λ _, 0)
    (λ _, entries).

Definition sample_task (st : CloneState) (pw : option string) : CloneTask :=
  mkCloneTask sample_repo_id sample_peer_id (Some "foo") "token" "/tmp/foo" pw
    "192.0.2.1" "10001" "user@example.com" st CLONE_OK None "" 0 [st].

Definition sample_daemon (task : CloneTask) (js : list Job) : daemon :=
  mkDaemon {[ repo_id task := task ]} [row_of_task task] js [] 1.

Definition sample_repo (hd : option string) (enc : bool) (ver : Z) : SeafRepo.t :=
  SeafRepo.mk sample_repo_id hd None enc ver.

Definition sample_request (worktree_in repo_name : string) : CloneRequest :=
  mkCloneRequest sample_repo_id sample_peer_id repo_name "token" None
    worktree_in "192.0.2.1" "10001" "user@example.com".

(** Nothing exists on disk, SQLite works, the peer is connected. *)
Definition quiet_env : Env :=
  sample_env None 0 0 None (Some (CcnetPeer.mk PEER_CONNECTED)) (Some "tx-1")
    (λ _, false) (λ _, StatNoEnt) (λ _, -1).

(** A file sits at /tmp/foo and nothing at /tmp/foo-1. *)
Definition file_in_the_way_env : Env :=
  sample_env None 0 0 None None None (λ _, false)
    (λ p, if bool_decide (p = "/tmp/foo") then StatMode false else StatNoEnt)
    (λ p, if bool_decide (p = "/tmp/foo") then 0 else -1).

(** The daemon started on an empty table. *)
Definition fresh_daemon : daemon :=
  match seaf_clone_manager_init quiet_env (seaf_clone_manager_new []) with
  | Ret (_, d) => d
  | Fault _ => seaf_clone_manager_new []
  end.

(** The daemon after one clone has been admitted, its peer connected and
    its worktree new: the task is fetching. *)
Definition fetching_daemon : daemon :=
  match dispatch quiet_env (EvAddTask (sample_request "/tmp/foo" "foo"))
          fresh_daemon with
  | Some (Ret d) => d
  | _ => fresh_daemon
  end.

(** SQLite refuses every DELETE; nothing exists on disk, the peer is
    unknown. *)
Definition no_delete_env : Env :=
  sample_env None 0 0 None None None
    (λ q, match q with SqlDelete _ => true | _ => false end)
    (λ _, StatNoEnt) (λ _, -1).

(** A clone is admitted while its peer is unknown, then cancelled while
    SQLite refuses the DELETE. *)
Definition stale_row_daemon : daemon :=
  match dispatch no_delete_env (EvAddTask (sample_request "/tmp/foo" "foo"))
          fresh_daemon with
  | Some (Ret d) =>
      match dispatch no_delete_env (EvCancelTask sample_repo_id) d with
      | Some (Ret d') => d'
      | _ => d
      end
  | _ => fresh_daemon
  end.

(** SQLite refuses every REPLACE; nothing exists on disk, the peer is
    connected. *)
Definition no_replace_env : Env :=
  sample_env None 0 0 None (Some (CcnetPeer.mk PEER_CONNECTED)) (Some "tx-1")
    (λ q, match q with SqlReplace _ => true | _ => false end)
    (λ _, StatNoEnt) (λ _, -1).

(** Nothing exists on disk, SQLite works, the peer is unknown. *)
Definition waiting_env : Env :=
  sample_env None 0 0 None None None (λ _, false) (λ _, StatNoEnt) (λ _, -1).

(** The daemon after one clone has been admitted while its peer is
    unknown: the task waits in CONNECT. *)
Definition connect_daemon : daemon :=
  match dispatch waiting_env (EvAddTask (sample_request "/tmp/foo" "foo"))
          fresh_daemon with
  | Some (Ret d) => d
  | _ => fresh_daemon
  end.

(** The waiting task has been cancelled. *)
Definition canceled_daemon : daemon :=
  match dispatch waiting_env (EvCancelTask sample_repo_id) connect_daemon with
  | Some (Ret d) => d
  | _ => connect_daemon
  end.

(** The transfer of the fetching task reports that it has finished. *)
Definition fetched_event : Event :=
  EvRepoFetched (TransferTask.mk true sample_repo_id TASK_STATE_FINISHED).

(** The table a crash leaves behind after the sample clone was admitted. *)
Definition sample_rows : list Row := [row_of_task (sample_task CLONE_STATE_INIT None)].

(** A repository without a passphrase problem: encrypted, version 2. *)
Definition encrypted_env : Env :=
  sample_env (Some (sample_repo None true 2)) 0 0 None None None (λ _, false)
    (λ _, StatNoEnt) (λ _, -1).

(** The collaborators of [e], with a local branch whose commit is [head]
    and a history made of [head] alone. *)
Definition with_history (e : Env) (head : SeafCommit.t) : Env :=
  mkEnv (seaf_repo_manager_get_repo e) (seaf_repo_manager_get_repo_list e)
    (seaf_repo_verify_passwd e) (seaf_repo_manager_set_repo_passwd e)
    (seaf_repo_index_worktree_files e)
    (λ _ _, Some (SeafBranch.mk (SeafCommit.commit_id head)))
    (λ _, Some head)
    (λ _, ([head], true))
    (read_index_from e) (unpack_trees e) (update_worktree e) (ccnet_get_peer e)
    (seaf_transfer_manager_add_download e) (add_download_error e)
    (sqlite_fails e) (sqlite_raw e) (g_lstat e)
    (g_access e) (g_mkdir_with_parents e) (g_dir_open e).

Definition sample_head : SeafCommit.t :=
  SeafCommit.mk "5d41402abc4b2a76b9719d911017c592aabbccdd" sample_root "user".

(** Nothing exists on disk, the peer is connected, and the transfer
    manager refuses every download. *)
Definition refusing_env : Env :=
  sample_env None 0 0 None (Some (CcnetPeer.mk PEER_CONNECTED)) None
    (λ _, false) (λ _, StatNoEnt) (λ _, -1).







(** A head commit whose tree is not the one of the sample worktree. *)
Definition remote_root : string := "9e107d9d372bb6826bd81d3542a419d6e277d4ee".

Definition remote_head : SeafCommit.t :=
  SeafCommit.mk "7c9e6679f6f1e5a1b2c3d4e5f60718293a4b5c6d" remote_root "user".

(** Indexing succeeds, and the local branch is at [remote_head]. *)
Definition merging_env : Env :=
  with_history
    (sample_env (Some (sample_repo None false 0)) 0 0 (Some ["a.txt"]) None
       None (λ _, false) (λ _, StatNoEnt) (λ _, -1))
    remote_head.

(** Like [refusing_env], and the transfer manager says why it refuses. *)
Definition noisy_env : Env :=
  mkEnv (seaf_repo_manager_get_repo refusing_env)
    (seaf_repo_manager_get_repo_list refusing_env)
    (seaf_repo_verify_passwd refusing_env) (seaf_repo_manager_set_repo_passwd refusing_env)
    (seaf_repo_index_worktree_files refusing_env)
    (seaf_branch_manager_get_branch refusing_env)
    (seaf_commit_manager_get_commit refusing_env)
    (seaf_commit_manager_traverse_commit_tree refusing_env)
    (read_index_from refusing_env) (unpack_trees refusing_env)
    (update_worktree refusing_env) (ccnet_get_peer refusing_env)
    (seaf_transfer_manager_add_download refusing_env)
    (λ _ _ _ _ _, Some "peer not connected")
    (sqlite_fails refusing_env) (sqlite_raw refusing_env) (g_lstat refusing_env)
    (g_access refusing_env) (g_mkdir_with_parents refusing_env) (g_dir_open refusing_env).

(** ** Vocabulary of the proofs *)

(** The table after a task with id [rid] has entered [s]. *)
Definition db_after (e : Env) (rid : string) (s : CloneState) (rows : list Row)
    : list Row :=
  if is_terminal s then
    if sqlite_fails e (SqlDelete rid) then rows
    else sql_result e (SqlDelete rid) rows
  else rows.

(** The work a handler schedules when it moves a task into its state. *)
Definition entry_jobs (t : CloneTask) (repo : option SeafRepo.t) : list Job :=
  match state t with
  | CLONE_STATE_INDEX => [JIndex (repo_id t) (addr t)]
  | CLONE_STATE_FETCH => [JTransfer (repo_id t)]
  | CLONE_STATE_CHECKOUT =>
      match repo with Some r => [JCheckout (SeafRepo.id r)] | None => [] end
  | CLONE_STATE_MERGE =>
      match repo with Some r => [JMerge (repo_id t) (addr t) r] | None => [] end
  | _ => []
  end.

(** What every handler does: one transition of the task it is handed. *)
Definition moved (e : Env) (task : CloneTask) (d : daemon)
    (r : CloneTask * daemon) (repo : option SeafRepo.t) : Prop :=
  tasks r.2 = tasks d ∧ next_addr r.2 = next_addr d
  ∧ repo_id r.1 = repo_id task ∧ addr r.1 = addr task
  ∧ worktree r.1 = worktree task
  ∧ trail r.1 = state r.1 :: trail task
  ∧ pending r.2 = (pending d ++ entry_jobs r.1 repo)%list
  ∧ db r.2 = db_after e (repo_id task) (state r.1) (db d).

(** The two job bodies leave everything but the root id and the calls. *)
Definition job_frame (task : CloneTask) (d : daemon) (r : bool * CloneTask * daemon)
    : Prop :=
  tasks r.2 = tasks d ∧ next_addr r.2 = next_addr d ∧ pending r.2 = pending d
  ∧ db r.2 = db d
  ∧ repo_id r.1.2 = repo_id task ∧ addr r.1.2 = addr task
  ∧ worktree r.1.2 = worktree task
  ∧ tx_id r.1.2 = tx_id task ∧ trail r.1.2 = trail task
  ∧ state r.1.2 = state task.

(** A task object created by [add_task] or [restart_task], after the
    handler that starts it: [rows0] is the table when the handler begins. *)
Definition started (e : Env) (rid : string) (t : CloneTask) (d d' : daemon)
    (rows0 : list Row) : Prop :=
  repo_id t = rid ∧ addr t = next_addr d ∧ next_addr d' = S (next_addr d)
  ∧ tasks d' = <[rid := t]> (tasks d)
  ∧ trail t = [state t]
  ∧ (tx_id t ≠ None <-> state t = CLONE_STATE_FETCH)
  ∧ pending d' = (pending d ++ entry_jobs t (seaf_repo_manager_get_repo e rid))%list
  ∧ db d' = db_after e rid (state t) rows0
  ∧ state t ≠ CLONE_STATE_INIT ∧ state t ≠ CLONE_STATE_CANCELED
  ∧ state t ≠ CLONE_STATE_CANCEL_PENDING
  ∧ (state t = CLONE_STATE_CHECKOUT ∨ state t = CLONE_STATE_MERGE ->
     is_Some (seaf_repo_manager_get_repo e rid)).

(** How an event may change a task that stays in the table: the
    transition table of the code. *)
Definition changed (e : Env) (ev : Event) (d : daemon) (t t' : CloneTask) : Prop :=
  match ev with
  | EvAddTask _ | EvGenDefaultWorktree _ _ | EvRemoveTask _ => False
  | EvCancelTask _ =>
      tx_id t' = tx_id t
      ∧ (((state t = CLONE_STATE_INIT ∨ state t = CLONE_STATE_CONNECT)
          ∧ state t' = CLONE_STATE_CANCELED)
         ∨ ((state t = CLONE_STATE_FETCH ∨ state t = CLONE_STATE_INDEX
             ∨ state t = CLONE_STATE_CHECKOUT ∨ state t = CLONE_STATE_MERGE)
            ∧ state t' = CLONE_STATE_CANCEL_PENDING))
  | EvPulse =>
      state t = CLONE_STATE_CONNECT
      ∧ ((state t' = CLONE_STATE_INDEX ∧ tx_id t' = tx_id t)
         ∨ (state t' = CLONE_STATE_FETCH ∧ tx_id t' ≠ None)
         ∨ (state t' = CLONE_STATE_ERROR ∧ tx_id t' = None))
  | EvIndexDone _ _ =>
      let ok := (index_files_job e t d).1.1 in
      (state t' = CLONE_STATE_ERROR ∧ tx_id t' = tx_id t
       ∧ error t' = CLONE_ERROR_INDEX ∧ ok = false)
      ∨ (state t' = CLONE_STATE_ERROR ∧ tx_id t' = None
         ∧ state t ≠ CLONE_STATE_CANCEL_PENDING ∧ ok = true)
      ∨ (state t' = CLONE_STATE_CANCELED ∧ tx_id t' = tx_id t
         ∧ state t = CLONE_STATE_CANCEL_PENDING ∧ ok = true)
      ∨ (state t' = CLONE_STATE_FETCH ∧ tx_id t' ≠ None
         ∧ state t ≠ CLONE_STATE_CANCEL_PENDING ∧ ok = true)
  | EvMergeDone rid a repo =>
      tx_id t' = tx_id t
      ∧ ∃ rest, deliver (JMerge rid a repo) (pending d) = Some rest
        ∧ let ok := (merge_job e repo t (with_pending rest d)).1.1 in
          (state t' = CLONE_STATE_ERROR ∧ error t' = CLONE_ERROR_MERGE
           ∧ ok = false)
          ∨ (state t' = CLONE_STATE_CANCELED ∧ ok = true
             ∧ state t = CLONE_STATE_CANCEL_PENDING)
          ∨ (state t' = CLONE_STATE_DONE ∧ ok = true
             ∧ state t = CLONE_STATE_MERGE)
  | EvRepoFetched tx_task =>
      tx_id t' = tx_id t
      ∧ (state t' = CLONE_STATE_CANCELED ∨ state t' = CLONE_STATE_ERROR
         ∨ ((state t' = CLONE_STATE_CHECKOUT ∨ state t' = CLONE_STATE_MERGE)
            ∧ is_Some (seaf_repo_manager_get_repo e
                         (TransferTask.repo_id tx_task))))
  | EvCheckoutDone ctask _ =>
      tx_id t' = tx_id t
      ∧ ((state t' = CLONE_STATE_ERROR ∧ error t' = CLONE_ERROR_CHECKOUT
          ∧ CheckoutTask.success ctask = false)
         ∨ (state t' = CLONE_STATE_CANCELED ∧ CheckoutTask.success ctask = true
            ∧ state t = CLONE_STATE_CANCEL_PENDING)
         ∨ (state t' = CLONE_STATE_DONE ∧ CheckoutTask.success ctask = true
            ∧ state t = CLONE_STATE_CHECKOUT))
  end.

(** The task a completion is delivered to. *)
Definition targets (ev : Event) (id : string) : Prop :=
  match ev with
  | EvIndexDone rid _ | EvMergeDone rid _ _ => rid = id
  | EvRepoFetched tx_task =>
      TransferTask.is_clone tx_task = true ∧ TransferTask.repo_id tx_task = id
  | EvCheckoutDone _ repo => SeafRepo.id repo = id
  | _ => False
  end.

(** The tasks an event can change. *)
Definition acts_on (ev : Event) (id : string) : Prop :=
  match ev with
  | EvCancelTask rid => rid = id
  | EvPulse => True
  | _ => targets ev id
  end.

(** The work whose completion an event delivers. *)
Definition event_job (ev : Event) : option Job :=
  match ev with
  | EvIndexDone rid a => Some (JIndex rid a)
  | EvMergeDone rid a repo => Some (JMerge rid a repo)
  | EvRepoFetched tx_task => Some (JTransfer (TransferTask.repo_id tx_task))
  | EvCheckoutDone _ repo => Some (JCheckout (SeafRepo.id repo))
  | _ => None
  end.

Definition delivered (ev : Event) (js rest : list Job) : Prop :=
  match event_job ev with
  | Some j => deliver j js = Some rest
  | None => rest = js
  end.

(** The repository a handler may start a checkout or a merge for. *)
Definition event_repo (e : Env) (ev : Event) : option SeafRepo.t :=
  match ev with
  | EvRepoFetched tx_task =>
      seaf_repo_manager_get_repo e (TransferTask.repo_id tx_task)
  | _ => None
  end.

(** The job completions reach the object their [aux] points to. *)
Definition pointer_ok (ev : Event) (t : CloneTask) : Prop :=
  match ev with
  | EvIndexDone _ a | EvMergeDone _ a _ => addr t = a
  | _ => True
  end.

(** What an event that returns does to the daemon: nothing to the tasks,
    the table and the pending work; or the admission of a task; or the
    removal of a finished one; or one transition of one task. *)
Inductive effect (e : Env) (ev : Event) (d d' : daemon) : Prop :=
| eff_none :
    (∀ id, ¬ targets ev id) ->
    tasks d' = tasks d -> pending d' = pending d -> db d' = db d ->
    (next_addr d <= next_addr d')%nat ->
    effect e ev d d'
| eff_admit rq t wt :
    ev = EvAddTask rq ->
    is_duplicate_task d (req_repo_id rq) = false ->
    started e (req_repo_id rq) t d d'
      (sql_result e
         (SqlReplace
            (row_of_task
               (clone_task_new (next_addr d) (req_repo_id rq)
                  (req_peer_id rq) (Some (req_repo_name rq))
                  (req_token rq) wt (req_passwd rq) (req_peer_addr rq)
                  (req_peer_port rq) (req_email rq))))
         (db d)) ->
    strip_tail (req_worktree_in rq) = Some wt ->
    String.length (req_repo_id rq) = 36%nat ->
    terminated 41 (req_peer_id rq) = true ->
    state t ≠ CLONE_STATE_DONE ->
    effect e ev d d'
| eff_remove rid t :
    ev = EvRemoveTask rid ->
    tasks d !! rid = Some t -> is_terminal (state t) = true ->
    tasks d' = delete rid (tasks d) -> pending d' = pending d ->
    db d' = db d -> next_addr d' = next_addr d ->
    effect e ev d d'
| eff_move id t rest r :
    tasks d !! id = Some t ->
    delivered ev (pending d) rest ->
    moved e t (with_pending rest d) r (event_repo e ev) ->
    tasks d' = <[id := r.1]> (tasks d) -> pending d' = pending r.2 ->
    db d' = db r.2 -> next_addr d' = next_addr d ->
    acts_on ev id -> changed e ev d t r.1 -> pointer_ok ev t ->
    effect e ev d d'.

(** What [check_connect_pulse] does to the task under one key. *)
Definition pulse_one (e : Env) (key : string) (d : daemon) : daemon :=
  match tasks d !! key with
  | Some task =>
      if bool_decide (state task = CLONE_STATE_CONNECT)
      then store_task key (continue_task_when_peer_connected e task d)
      else d
  | None => d
  end.

(** The transfer handle of a task against the states it has entered. *)
Definition task_ok (t : CloneTask) : Prop :=
  (tx_id t ≠ None <-> CLONE_STATE_FETCH ∈ trail t)
  ∧ (state t = CLONE_STATE_FETCH -> tx_id t ≠ None)
  ∧ (state t = CLONE_STATE_CONNECT ∨ state t = CLONE_STATE_INIT ->
     CLONE_STATE_FETCH ∉ trail t).

Definition is_index (j : Job) : bool :=
  match j with JIndex _ _ => true | _ => false end.

(** The invariant behind C9: every task in the table is [task_ok]; an
    index job that is pending for the object in the table belongs to a
    task that has not entered FETCH and is not waiting for its peer; and no
    index job is pending twice. *)
Definition fetch_inv (d : daemon) : Prop :=
  (∀ id t, tasks d !! id = Some t ->
     task_ok t ∧ (addr t < next_addr d)%nat ∧ repo_id t = id)
  ∧ (∀ id a, JIndex id a ∈ pending d ->
       (a < next_addr d)%nat
       ∧ (∀ t, tasks d !! id = Some t -> addr t = a ->
            (CLONE_STATE_FETCH ∉ trail t) ∧ state t ≠ CLONE_STATE_CONNECT
            ∧ state t ≠ CLONE_STATE_INIT))
  ∧ NoDup (filter (λ j, is_index j = true) (pending d)).

(** ** The durable table against the registry *)

Definition job_repo_id (j : Job) : string :=
  match j with
  | JIndex rid _ | JMerge rid _ _ | JCheckout rid | JTransfer rid => rid
  end.

Definition jobs_for (id : string) (js : list Job) : list Job :=
  filter (λ j, job_repo_id j = id) js.

(** The table has a row for the repository [id]. *)
Definition has_row (id : string) (rows : list Row) : Prop :=
  id ∈ col_repo_id <$> rows.

(** The pending work a task in a given state has. *)
Definition expected (t : CloneTask) (js : list Job) : Prop :=
  match state t with
  | CLONE_STATE_INIT => False
  | CLONE_STATE_CONNECT | CLONE_STATE_DONE | CLONE_STATE_ERROR
  | CLONE_STATE_CANCELED => js = []
  | CLONE_STATE_INDEX => js = [JIndex (repo_id t) (addr t)]
  | CLONE_STATE_FETCH => js = [JTransfer (repo_id t)]
  | CLONE_STATE_CHECKOUT => js = [JCheckout (repo_id t)]
  | CLONE_STATE_MERGE => ∃ repo, js = [JMerge (repo_id t) (addr t) repo]
  | CLONE_STATE_CANCEL_PENDING =>
      js = [JIndex (repo_id t) (addr t)] ∨ js = [JTransfer (repo_id t)]
      ∨ js = [JCheckout (repo_id t)]
      ∨ ∃ repo, js = [JMerge (repo_id t) (addr t) repo]
  end.

(** The registry against the pending work: a task has the work its state
    waits for and no other, and no work is pending for an id without a
    task.  [todo] lists the ids of the rows startup has not turned into
    tasks yet (none once startup is over). *)
Definition jobs_inv (todo : list string) (d : daemon) : Prop :=
  ∀ id,
    match tasks d !! id with
    | Some t =>
        (id ∉ todo) ∧ repo_id t = id
        ∧ expected t (jobs_for id (pending d))
    | None => jobs_for id (pending d) = []
    end.

(** A repository id whose DELETE is the statement it names: no quote
    character, and short enough for the buffer of [remove_task_from_db]
    (the ids of tasks have at most 36 bytes). *)
Definition plain_id (id : string) : Prop :=
  quote_free id = true ∧ (String.length id <= 36)%nat.

(** The invariant behind C2: the table against the registry. *)
Definition rows_inv (todo : list string) (d : daemon) : Prop :=
  ∀ id,
    match tasks d !! id with
    | Some t =>
        plain_id id
        ∧ (has_row id (db d) <-> is_terminal (state t) = false)
    | None => has_row id (db d) <-> id ∈ todo
    end.

(** Collaborators under which the table follows the registry: SQLite
    executes the DELETE statements, and the repository manager answers a
    request for an id with the repository of that id. *)
Definition dependable (e : Env) : Prop :=
  (∀ rid, sqlite_fails e (SqlDelete rid) = false)
  ∧ (∀ id r, seaf_repo_manager_get_repo e id = Some r -> SeafRepo.id r = id).

(** A table with at most one row for a repository. *)
Definition distinct_rows (rows : list Row) : Prop :=
  NoDup (col_repo_id <$> rows).

(** A request none of whose values has a quote character. *)
Definition plain_request (rq : CloneRequest) : Prop :=
  quote_free (req_repo_id rq) = true ∧ quote_free (req_peer_id rq) = true
  ∧ quote_free (req_repo_name rq) = true ∧ quote_free (req_token rq) = true
  ∧ match req_passwd rq with Some pw => quote_free pw = true | None => True end
  ∧ quote_free (req_worktree_in rq) = true
  ∧ quote_free (req_peer_addr rq) = true ∧ quote_free (req_peer_port rq) = true
  ∧ quote_free (req_email rq) = true.

Definition plain_event (ev : Event) : Prop :=
  match ev with
  | EvAddTask rq => plain_request rq
  | _ => True
  end.

(** A table with at most one row for a repository, and no quote character
    in a repository id. *)
Definition plain_rows (rows : list Row) : Prop :=
  distinct_rows rows ∧ ∀ row, row ∈ rows -> quote_free (col_repo_id row) = true.

(** The daemons a run can be in when its events are restricted as well:
    [reachable G I], with every event in [E]. *)
Inductive reachable_by (G : Env -> Prop) (I : list Row -> Prop)
    (E : Event -> Prop) : daemon -> Prop :=
| by_init e rows d :
    G e -> I rows ->
    seaf_clone_manager_init e (seaf_clone_manager_new rows) = Ret (0, d) ->
    reachable_by G I E d
| by_step e ev d d' :
    G e -> E ev -> reachable_by G I E d ->
    dispatch e ev d = Some (Ret d') ->
    reachable_by G I E d'.

Ltac unfold_db :=
  unfold transition_state, transition_to_error, remove_task_from_db,
    save_task_to_db, sqlite_query_exec in *.

Ltac unfold_task_ops :=
  unfold index_files_done, index_files_job, start_index_or_transfer,
    add_transfer_task, start_connect_task_relay,
    continue_task_when_peer_connected, on_repo_fetched, on_checkout_done,
    merge_job_done, start_checkout in *.

Ltac crush := repeat (simpl in *; simplify_eq; try case_match); try done.


Ltac unfold_all :=
  unfold_task_ops; unfold_db;
  unfold schedule, call, with_pending, with_tasks, with_db, store_task,
    table_insert, alloc in *.

Ltac post :=
  unfold_all; unfold moved, entry_jobs, db_after, is_terminal;
  intros;
  repeat match goal with
         | c : CheckoutTask.t |- _ => destruct c
         | b : bool |- _ => destruct b
         end;
  repeat (simpl in *; simplify_eq; try case_bool_decide; try case_match);
  rewrite ?app_nil_r;
  intuition (try congruence; try done; auto).

(** The fields of a task that come from the request (or from the row) and
    that no handler writes. *)
Definition same_request (t t' : CloneTask) : Prop :=
  repo_id t' = repo_id t ∧ peer_id t' = peer_id t
  ∧ repo_name t' = repo_name t ∧ token t' = token t
  ∧ worktree t' = worktree t ∧ passwd t' = passwd t
  ∧ peer_addr t' = peer_addr t ∧ peer_port t' = peer_port t
  ∧ email t' = email t.

(** The task [restart_task] makes from a row (its address apart). *)
Definition task_of_row (row : Row) : CloneTask :=
  clone_task_new 0 (col_repo_id row) (col_dest_id row)
    (Some (col_repo_name row)) (col_token row) (col_worktree_parent row)
    (col_passwd row) (col_server_addr row) (col_server_port row)
    (col_email row).

(** ** The history of a task object *)




(** * Properties *)

(** ** Strings in fixed arrays *)

Lemma c_array_fits (n : nat) (s : string) :
  terminated n s = true -> c_array n s = s.
Proof.
  unfold terminated, c_array. revert n.
  induction s as [|c s IH]; intros [|n] H; simpl in *; try done.
  f_equal. apply IH. apply Nat.ltb_lt in H. apply Nat.ltb_lt. lia.
Qed.

Lemma clone_task_new_fits a rid pid name tok wt pw addr port mail :
  terminated 37 rid = true -> terminated 41 pid = true ->
  clone_task_new a rid pid name tok wt pw addr port mail
  = mkCloneTask rid pid name tok wt pw addr port mail CLONE_STATE_INIT
      CLONE_OK None "" a [].
Proof.
  intros Hr Hp. unfold clone_task_new. by rewrite !c_array_fits.
Qed.

Lemma terminated_36 (s : string) :
  String.length s = 36%nat -> terminated 37 s = true.
Proof. unfold terminated. intros ->. done. Qed.

(** ** What a transition changes *)

Lemma transition_state_state e task s d :
  state (transition_state e task s d).1 = s.
Proof. done. Qed.

Lemma transition_state_frame e task s d :
  let r := transition_state e task s d in
  tasks r.2 = tasks d ∧ pending r.2 = pending d ∧ calls r.2 = calls d
  ∧ next_addr r.2 = next_addr d
  ∧ tx_id r.1 = tx_id task ∧ error r.1 = error task
  ∧ repo_id r.1 = repo_id task ∧ addr r.1 = addr task
  ∧ root_id r.1 = root_id task ∧ worktree r.1 = worktree task
  ∧ trail r.1 = s :: trail task.
Proof. unfold_db. crush. Qed.

Lemma transition_to_error_frame e task er d :
  let r := transition_to_error e task er d in
  state r.1 = CLONE_STATE_ERROR ∧ error r.1 = er
  ∧ tasks r.2 = tasks d ∧ pending r.2 = pending d ∧ calls r.2 = calls d
  ∧ next_addr r.2 = next_addr d
  ∧ tx_id r.1 = tx_id task
  ∧ repo_id r.1 = repo_id task ∧ addr r.1 = addr task
  ∧ root_id r.1 = root_id task ∧ worktree r.1 = worktree task
  ∧ trail r.1 = CLONE_STATE_ERROR :: trail task.
Proof. unfold_db. crush. Qed.

(** ** C5: cancelling a task *)

(** C5, as the code has it: [seaf_clone_manager_cancel_task] returns -1 and
    changes nothing when the task is unknown or in DONE, ERROR or CANCELED;
    it returns 0 and changes nothing in CANCEL_PENDING; from INIT and
    CONNECT the task goes to CANCELED; from FETCH the transfer manager is
    asked to cancel the task's transfer and the task goes to
    CANCEL_PENDING; from INDEX, CHECKOUT and MERGE it goes to
    CANCEL_PENDING with no call to a collaborator. *)
Theorem cancel_task_cases (e : Env) (rid : string) (d : daemon) :
  let r := seaf_clone_manager_cancel_task e rid d in
  match tasks d !! rid with
  | None => r = (-1, d)
  | Some task =>
      match state task with
      | CLONE_STATE_DONE | CLONE_STATE_ERROR | CLONE_STATE_CANCELED =>
          r = (-1, d)
      | CLONE_STATE_CANCEL_PENDING => r = (0, d)
      | CLONE_STATE_INIT | CLONE_STATE_CONNECT =>
          r.1 = 0 ∧ calls r.2 = calls d ∧ pending r.2 = pending d
          ∧ tasks r.2 = <[rid := set_state CLONE_STATE_CANCELED task]> (tasks d)
      | CLONE_STATE_FETCH =>
          r.1 = 0 ∧ calls r.2 = (calls d ++ [CancelTransfer (tx_id task)])%list
          ∧ pending r.2 = pending d
          ∧ tasks r.2 = <[rid := set_state CLONE_STATE_CANCEL_PENDING task]> (tasks d)
      | CLONE_STATE_INDEX | CLONE_STATE_CHECKOUT | CLONE_STATE_MERGE =>
          r.1 = 0 ∧ calls r.2 = calls d ∧ pending r.2 = pending d
          ∧ db r.2 = db d
          ∧ tasks r.2 = <[rid := set_state CLONE_STATE_CANCEL_PENDING task]> (tasks d)
      end
  end.
Proof.
  unfold seaf_clone_manager_cancel_task.
  destruct (tasks d !! rid) as [task|]; [|done].
  destruct (state task); unfold_db; crush.
Qed.

(** ** C6: the passphrase of an encrypted repository *)

(** C6, as the code has it: for an encrypted repository [start_checkout]
    moves the task to ERROR with error PASSWD, schedules no checkout and
    no merge and calls no collaborator, when no passphrase was supplied,
    or when the repository's [enc_version] is at least 1 and the supplied
    passphrase fails [seaf_repo_verify_passwd].  (Below [enc_version] 1
    the passphrase is not verified.) *)
Theorem start_checkout_wrong_passwd (e : Env) (repo : SeafRepo.t)
    (task : CloneTask) (d : daemon) :
  SeafRepo.encrypted repo = true ->
  (passwd task = None
   ∨ ∃ pw, passwd task = Some pw ∧ 1 <= SeafRepo.enc_version repo
           ∧ seaf_repo_verify_passwd e repo pw < 0) ->
  let r := start_checkout e repo task d in
  state r.1 = CLONE_STATE_ERROR ∧ error r.1 = CLONE_ERROR_PASSWD
  ∧ pending r.2 = pending d ∧ calls r.2 = calls d.
Proof.
  intros Henc Hpw. unfold start_checkout. rewrite Henc.
  destruct Hpw as [->|(pw & -> & Hv & Hf)].
  - unfold_db. crush.
  - replace (1 <=? SeafRepo.enc_version repo) with true by (symmetry; lia).
    replace (seaf_repo_verify_passwd e repo pw <? 0) with true by (symmetry; lia).
    unfold_db. crush.
Qed.

(** ** C8: completions observed in CANCEL_PENDING *)

(** C8, as the code has it: for a task in CANCEL_PENDING, a successful
    index, checkout or merge completion finalizes the task to CANCELED;
    the index and checkout completions call no collaborator (no download
    is added, no repository metadata is written), while the merge
    completion first records the task's worktree as the repository's
    worktree; a failed completion moves the task to ERROR and calls no
    collaborator. *)
Theorem completion_in_cancel_pending (e : Env) (repo : SeafRepo.t)
    (task : CloneTask) (d : daemon) :
  state task = CLONE_STATE_CANCEL_PENDING ->
  (let r := index_files_done e true task d in
   state r.1 = CLONE_STATE_CANCELED ∧ calls r.2 = calls d
   ∧ pending r.2 = pending d ∧ tx_id r.1 = tx_id task)
  ∧ (∃ r, on_checkout_done e (CheckoutTask.mk true) task d = Ret r
          ∧ state r.1 = CLONE_STATE_CANCELED ∧ calls r.2 = calls d
          ∧ pending r.2 = pending d)
  ∧ (∃ r, merge_job_done e true repo task d = Ret r
          ∧ state r.1 = CLONE_STATE_CANCELED
          ∧ calls r.2
            = (calls d ++ [SetRepoWorktree (SeafRepo.id repo) (worktree task)])%list
          ∧ pending r.2 = pending d)
  ∧ (let r := index_files_done e false task d in
     state r.1 = CLONE_STATE_ERROR ∧ calls r.2 = calls d ∧ pending r.2 = pending d)
  ∧ (∃ r, on_checkout_done e (CheckoutTask.mk false) task d = Ret r
          ∧ state r.1 = CLONE_STATE_ERROR ∧ calls r.2 = calls d
          ∧ pending r.2 = pending d)
  ∧ (∃ r, merge_job_done e false repo task d = Ret r
          ∧ state r.1 = CLONE_STATE_ERROR ∧ calls r.2 = calls d
          ∧ pending r.2 = pending d).
Proof.
  intros Hst. unfold_task_ops. rewrite Hst. simpl.
  repeat split; eauto 10; unfold_db; crush; eexists; split; try done; crush.
Qed.

(** ** C10: a merge that starts without a root id *)

(** C10: when the task has no root id ([root_id[0] == 0]), [merge_job]
    begins by indexing the worktree, and the root id it merges with is the
    one the indexing wrote: the fast-forward test, the two-way checkout and
    the three-way merge all take it as the root of the worktree.  When the
    indexing fails, the job makes no further call (no merge, no head is
    set) and reports failure, and [merge_job_done] then moves the task to
    ERROR with error MERGE.  When it succeeds, the calls that follow it
    are, in the order of the code: nothing but the setting of the head when
    the head's tree is the indexed one; the unpacking of the two trees and
    the update of the worktree when the history has the indexed tree;
    otherwise the recursive merge of the indexed tree with the head's; the
    head is set after them, and only when none of them failed. *)
Theorem merge_indexes_first (e : Env) (repo : SeafRepo.t) (task : CloneTask)
    (d : daemon) :
  root_id task = "" ->
  let ix := seaf_repo_index_worktree_files e (repo_id task) (worktree task)
              (passwd task) "" in
  let r := merge_job e repo task d in
  let indexed := (calls d ++ [IndexWorktree (repo_id task) (worktree task)])%list in
  root_id r.1.2 = ix.2
  ∧ (∃ later, calls r.2
       = (calls d ++ IndexWorktree (repo_id task) (worktree task) :: later)%list)
  ∧ (ix.1 < 0 ->
     r.1.1 = false
     ∧ calls r.2 = (calls d ++ [IndexWorktree (repo_id task) (worktree task)])%list
     ∧ ∃ r', merge_job_done e r.1.1 repo r.1.2 r.2 = Ret r'
             ∧ state r'.1 = CLONE_STATE_ERROR
             ∧ error r'.1 = CLONE_ERROR_MERGE
             ∧ calls r'.2 = calls r.2)
  ∧ (0 <= ix.1 ->
     match seaf_branch_manager_get_branch e (SeafRepo.id repo) "local" with
     | None => r.1.1 = false ∧ calls r.2 = indexed
     | Some local =>
         match seaf_commit_manager_get_commit e (SeafBranch.commit_id local) with
         | None => r.1.1 = false ∧ calls r.2 = indexed
         | Some head =>
             let set_head :=
               SetHead (SeafRepo.id repo) (SeafCommit.commit_id head) in
             let unpack :=
               UnpackTrees (SeafRepo.id repo) ix.2 (SeafCommit.root_id head) in
             let update :=
               UpdateWorktree (SeafRepo.id repo) (SeafCommit.commit_id head) in
             if check_fast_forward e head ix.2 then
               if bool_decide (SeafCommit.root_id head = ix.2)
               then r.1.1 = true ∧ calls r.2 = (indexed ++ [set_head])%list
               else if read_index_from e (SeafRepo.id repo) <? 0
               then r.1.1 = false ∧ calls r.2 = indexed
               else if unpack_trees e ix.2 (SeafCommit.root_id head) <? 0
               then r.1.1 = false ∧ calls r.2 = (indexed ++ [unpack])%list
               else if update_worktree e (SeafCommit.commit_id head) <? 0
               then r.1.1 = false
                    ∧ calls r.2 = (indexed ++ [unpack; update])%list
               else r.1.1 = true
                    ∧ calls r.2 = (indexed ++ [unpack; update; set_head])%list
             else
               if read_index_from e (SeafRepo.id repo) <? 0
               then r.1.1 = false ∧ calls r.2 = indexed
               else r.1.1 = true
                    ∧ calls r.2
                      = (indexed
                         ++ [MergeRecursive (SeafRepo.id repo) ix.2
                               (SeafCommit.root_id head) EMPTY_SHA1;
                             set_head])%list
         end
     end).
Proof.
  intros Hroot. simpl. unfold merge_job. rewrite Hroot. simpl.
  destruct (seaf_repo_index_worktree_files e (repo_id task) (worktree task)
              (passwd task) "") as [rc root] eqn:Hix. simpl.
  split; [|split; [|split]].
  - unfold fast_forward_checkout, real_merge. crush.
  - unfold fast_forward_checkout, real_merge. crush; rewrite <- ?app_assoc; eauto.
  - intros Hneg. replace (rc <? 0) with true by (symmetry; lia). simpl.
    repeat split; try done. unfold merge_job_done. simpl.
    eexists; split; [done|]. unfold_db. crush.
  - intros Hpos. replace (rc <? 0) with false by (symmetry; lia).
    destruct (seaf_branch_manager_get_branch e (SeafRepo.id repo) "local")
      as [local|]; [|done].
    destruct (seaf_commit_manager_get_commit e (SeafBranch.commit_id local))
      as [head|]; [|done].
    unfold fast_forward_checkout, real_merge, call. simpl.
    destruct (check_fast_forward e head root).
    + case_bool_decide; [done|].
      destruct (read_index_from e (SeafRepo.id repo) <? 0); [done|].
      destruct (unpack_trees e root (SeafCommit.root_id head) <? 0); [done|].
      destruct (update_worktree e (SeafCommit.commit_id head) <? 0); simpl;
        rewrite <- ?app_assoc; done.
    + destruct (read_index_from e (SeafRepo.id repo) <? 0); simpl;
        rewrite <- ?app_assoc; done.
Qed.

Lemma cancel_task_done_returns_error :
  let task := sample_task CLONE_STATE_DONE None in
  let d := sample_daemon task [] in
  tasks d !! sample_repo_id = Some task
  ∧ state task = CLONE_STATE_DONE
  ∧ seaf_clone_manager_cancel_task quiet_env sample_repo_id d = (-1, d).
Proof. vm_compute. done. Qed.

Lemma start_checkout_wrong_passwd_witness :
  let repo := sample_repo None true 2 in
  let e := sample_env (Some repo) (-1) 0 None None None (λ _, false)
             (λ _, StatNoEnt) (λ _, -1) in
  let task := sample_task CLONE_STATE_FETCH (Some "wrong") in
  let r := start_checkout e repo task (sample_daemon task []) in
  state r.1 = CLONE_STATE_ERROR ∧ error r.1 = CLONE_ERROR_PASSWD
  ∧ pending r.2 = [] ∧ calls r.2 = [].
Proof.
  intros repo e task.
  apply (start_checkout_wrong_passwd e repo task (sample_daemon task []));
    [reflexivity|].
  right. exists "wrong". vm_compute. repeat split; discriminate.
Defined.

(** Under [enc_version] 0 a passphrase that fails verification is not
    detected: the checkout is scheduled. *)
Lemma start_checkout_unverified_passwd :
  let repo := sample_repo None true 0 in
  let e := sample_env (Some repo) (-1) 0 None None None (λ _, false)
             (λ _, StatNoEnt) (λ _, -1) in
  let task := sample_task CLONE_STATE_FETCH (Some "wrong") in
  let r := start_checkout e repo task (sample_daemon task []) in
  SeafRepo.encrypted repo = true
  ∧ passwd task = Some "wrong"
  ∧ seaf_repo_verify_passwd e repo "wrong" < 0
  ∧ state r.1 = CLONE_STATE_CHECKOUT
  ∧ pending r.2 = [JCheckout sample_repo_id].
Proof. vm_compute. done. Qed.

Lemma completion_in_cancel_pending_witness :
  let task := sample_task CLONE_STATE_CANCEL_PENDING None in
  let d := sample_daemon task [] in
  let r := index_files_done quiet_env true task d in
  state r.1 = CLONE_STATE_CANCELED ∧ calls r.2 = calls d
  ∧ pending r.2 = pending d ∧ tx_id r.1 = tx_id task.
Proof.
  intros task d.
  apply (completion_in_cancel_pending quiet_env (sample_repo None false 0) task d).
  reflexivity.
Defined.

(** A merge that completes with success while the task is in
    CANCEL_PENDING still records the worktree on the repository. *)
Lemma merge_done_in_cancel_pending_sets_worktree :
  let task := sample_task CLONE_STATE_CANCEL_PENDING None in
  let d := sample_daemon task [] in
  let repo := sample_repo None false 0 in
  ∃ r, merge_job_done quiet_env true repo task d = Ret r
       ∧ state r.1 = CLONE_STATE_CANCELED
       ∧ calls d = []
       ∧ calls r.2 = [SetRepoWorktree sample_repo_id "/tmp/foo"].
Proof. eexists. vm_compute. done. Qed.

Lemma merge_indexes_first_witness :
  let repo := sample_repo None false 0 in
  let task := sample_task CLONE_STATE_MERGE None in
  let d := sample_daemon task [] in
  let r := merge_job merging_env repo task d in
  root_id r.1.2 = sample_root
  ∧ r.1.1 = true
  ∧ calls r.2
    = [IndexWorktree sample_repo_id "/tmp/foo";
       MergeRecursive sample_repo_id sample_root remote_root EMPTY_SHA1;
       SetHead sample_repo_id (SeafCommit.commit_id remote_head)].
Proof.
  intros repo task d.
  destruct (merge_indexes_first merging_env repo task d eq_refl)
    as (Hroot & _ & _ & Hcalls).
  split; [exact Hroot|].
  apply Hcalls. vm_compute. discriminate.
Defined.

(** ** C4: the name of the worktree directory *)

Lemma list_ascii_app (a b : string) :
  String.list_ascii_of_string (a +:+ b)
  = (String.list_ascii_of_string a ++ String.list_ascii_of_string b)%list.
Proof. induction a as [|c a IH]; simpl; [done|]. by rewrite IH. Qed.

Lemma list_ascii_length (s : string) :
  length (String.list_ascii_of_string s) = String.length s.
Proof. induction s as [|c s IH]; simpl; [done|]. by rewrite IH. Qed.

Lemma list_ascii_inj (a b : string) :
  String.list_ascii_of_string a = String.list_ascii_of_string b -> a = b.
Proof.
  intros H. rewrite <- (String.string_of_list_ascii_of_string a),
    <- (String.string_of_list_ascii_of_string b). by rewrite H.
Qed.

Lemma strncmp_eq_prefix (base name : string) :
  strncmp_eq base name (String.length name) = true <-> is_prefix name base.
Proof.
  unfold strncmp_eq, is_prefix. rewrite bool_decide_eq_true.
  rewrite <- (list_ascii_length name).
  rewrite firstn_all. split.
  - intros H. exists (String.string_of_list_ascii
                        (drop (length (String.list_ascii_of_string name))
                           (String.list_ascii_of_string base))).
    apply list_ascii_inj. rewrite list_ascii_app,
      String.list_ascii_of_string_of_list_ascii.
    rewrite <- (take_drop (length (String.list_ascii_of_string name))
                  (String.list_ascii_of_string base)) at 1.
    by rewrite H.
  - intros [rest ->]. rewrite list_ascii_app. by rewrite take_app_length.
Qed.

Lemma worktree_repo_name_matches_prefix (worktree name : string) :
  worktree_repo_name_matches worktree name = true
  <-> is_prefix name (g_path_get_basename worktree).
Proof.
  unfold worktree_repo_name_matches.
  destruct (Nat.ltb_spec (String.length (g_path_get_basename worktree))
              (String.length name)) as [Hlt|Hge].
  - split; [done|]. intros [rest Heq]. rewrite Heq in Hlt.
    rewrite <- !list_ascii_length, list_ascii_app, length_app in Hlt. lia.
  - apply strncmp_eq_prefix.
Qed.

Lemma make_worktree_error e worktree dry d placed d' :
  make_worktree e worktree dry d = Ret (placed, d') ->
  placed_error placed = None
  ∨ placed_error placed = Some "Invalid local directory"
  ∨ placed_error placed = Some "Already in sync".
Proof.
  unfold make_worktree. intros H.
  destruct (strip_tail worktree) as [wt|]; [|done].
  destruct (g_lstat e wt) as [| |[|]];
    try destruct (is_worktree_of_repo e d wt);
    destruct dry; unfold mk_dir in H; cbv beta iota delta [negb] in H;
    try destruct (g_mkdir_with_parents e wt <? 0);
    try destruct (try_worktree e wt);
    simplify_eq; auto.
Qed.

Lemma string_of_list_ascii_app (a b : list ascii) :
  String.string_of_list_ascii (a ++ b)
  = String.string_of_list_ascii a +:+ String.string_of_list_ascii b.
Proof.
  apply list_ascii_inj.
  by rewrite list_ascii_app, !String.list_ascii_of_string_of_list_ascii.
Qed.

Lemma strip_tail_rev_spec (r : list ascii) :
  match strip_tail_rev r with
  | Some r' =>
      ∃ seps c r'', r = (seps ++ r')%list ∧ r' = c :: r''
                    ∧ is_wt_sep c = false
                    ∧ Forall (λ x, is_wt_sep x = true) seps
  | None => Forall (λ x, is_wt_sep x = true) r
  end.
Proof.
  induction r as [|c r IH]; simpl; [done|].
  destruct (is_wt_sep c) eqn:Hc.
  - destruct (strip_tail_rev r) as [r'|].
    + destruct IH as (seps & c' & r'' & -> & -> & Hc' & Hseps).
      exists (c :: seps), c', r''. repeat split; try done. by constructor.
    + by constructor.
  - exists [], c, r. repeat split; try done.
Qed.

Lemma make_worktree_refusal e worktree d placed d' msg :
  make_worktree e worktree false d = Ret (placed, d') ->
  placed_error placed = Some msg ->
  d' = d ∧ placed_path placed = None
  ∧ (msg = "Invalid local directory" ∨ msg = "Already in sync").
Proof.
  unfold make_worktree, mk_dir.
  destruct (strip_tail worktree) as [wt|]; [|done].
  destruct (g_lstat e wt) as [| |[|]]; simpl;
    try destruct (g_mkdir_with_parents e wt <? 0);
    try destruct (is_worktree_of_repo e d wt);
    simpl; intros; simplify_eq; simpl in *; simplify_eq; auto.
Qed.

Lemma make_worktree_path e worktree d placed d' p :
  make_worktree e worktree false d = Ret (placed, d') ->
  placed_path placed = Some p ->
  strip_tail worktree = Some p.
Proof.
  unfold make_worktree, mk_dir.
  destruct (strip_tail worktree) as [wt|]; [|done].
  destruct (g_lstat e wt) as [| |[|]]; simpl;
    try destruct (g_mkdir_with_parents e wt <? 0);
    try destruct (is_worktree_of_repo e d wt);
    simpl; intros; simplify_eq; simpl in *; simplify_eq; auto.
Qed.

(** C4, as the code has it: an [add_task] call that gets to the name check
    (the repository id has 36 bytes, the repository is not already checked
    out, no task for it is in progress) passes the check exactly when
    [repo_name] is a byte prefix of the basename of the requested worktree
    path.  When it is, "Invalid local directory name" is not the answer of
    [add_task]: should that text be in [*error] all the same, then the call
    has returned the repository id and the text is what the transfer
    manager wrote there while the download was requested.  When it is not,
    the call fails with "Invalid local directory name" and leaves the
    daemon as it was: no directory is created (no [Mkdir] call) and no row
    is written. *)
Theorem add_task_name_check (e : Env) (rq : CloneRequest) (d : daemon) :
  String.length (req_repo_id rq) = 36%nat ->
  (∀ r, seaf_repo_manager_get_repo e (req_repo_id rq) = Some r ->
        SeafRepo.head r = None) ->
  is_duplicate_task d (req_repo_id rq) = false ->
  (is_prefix (req_repo_name rq) (g_path_get_basename (req_worktree_in rq)) ->
   ∀ a d', seaf_clone_manager_add_task e rq d = Ret (a, d') ->
           added_error a = Some "Invalid local directory name" ->
           added_repo_id a = Some (req_repo_id rq)
           ∧ add_download_error e (req_repo_id rq) (req_peer_id rq)
               "fetch_head" "master" (req_token rq)
             = Some "Invalid local directory name")
  ∧ (¬ is_prefix (req_repo_name rq) (g_path_get_basename (req_worktree_in rq)) ->
     seaf_clone_manager_add_task e rq d
     = Ret (mkAdded None (Some "Invalid local directory name"), d)).
Proof.
  intros Hlen Hrepo Hdup.
  assert (match seaf_repo_manager_get_repo e (req_repo_id rq) with
          | Some r => bool_decide (SeafRepo.head r ≠ None)
          | None => false
          end = false) as Hhead.
  { destruct (seaf_repo_manager_get_repo e (req_repo_id rq)) as [r|] eqn:Hr;
      [|done]. rewrite (Hrepo r eq_refl). apply bool_decide_eq_false. by intros H. }
  unfold seaf_clone_manager_add_task. rewrite Hlen, Hhead, Hdup.
  change (negb (36 =? 36)%nat) with false. cbv iota.
  split.
  - intros Hp a d' Hres Hmsg.
    apply worktree_repo_name_matches_prefix in Hp.
    rewrite Hp in Hres. change (negb true) with false in Hres. cbv iota in Hres.
    destruct (make_worktree e (req_worktree_in rq) false d)
      as [[placed d1]|] eqn:Hmk; [|done].
    apply make_worktree_error in Hmk.
    destruct (placed_path placed) as [wt|].
    + destruct (alloc d1) as [a0 d2].
      destruct (terminated 41 (req_peer_id rq)) eqn:Hpeer; [|done].
      cbn [negb] in Hres.
      rewrite clone_task_new_fits in Hres by auto using terminated_36.
      destruct (save_task_to_db e _ d2) as [rc d3].
      destruct (rc <? 0); [by simplify_eq|].
      destruct (seaf_repo_manager_get_repo e (req_repo_id rq)) as [r|].
      * destruct (start_checkout e r _ d3) as [t1 d4]. by simplify_eq.
      * destruct (negb (is_task_relay_connected e _)).
        -- destruct (start_connect_task_relay e _ d3) as [t1 d4].
           by simplify_eq.
        -- unfold start_index_or_transfer, add_transfer_task in Hres.
           simpl in Hres.
           repeat (case_match; simplify_eq); simpl in *; by simplify_eq.
    + simplify_eq. simpl in Hmsg. rewrite Hmsg in Hmk.
      destruct Hmk as [? | [? | ?]]; done.
  - intros Hp. destruct (worktree_repo_name_matches _ _) eqn:Hm.
    + by apply worktree_repo_name_matches_prefix in Hm.
    + reflexivity.
Qed.

Lemma add_task_name_check_witness :
  seaf_clone_manager_add_task quiet_env (sample_request "/tmp/bar" "foo")
    (seaf_clone_manager_new [])
  = Ret (mkAdded None (Some "Invalid local directory name"),
         seaf_clone_manager_new []).
Proof.
  apply add_task_name_check.
  - reflexivity.
  - intros r Hr. vm_compute in Hr. discriminate.
  - reflexivity.
  - intros [rest Hrest]. vm_compute in Hrest. discriminate.
Defined.

(** The basename "fo" is a prefix of the name "foo" and the request is
    refused; the basename "foo-1" is not a prefix of "foo" and the request
    is admitted. *)
Lemma basename_prefix_of_name_refused :
  let d := seaf_clone_manager_new [] in
  is_prefix (g_path_get_basename "/tmp/fo") "foo"
  ∧ seaf_clone_manager_add_task quiet_env (sample_request "/tmp/fo" "foo") d
    = Ret (mkAdded None (Some "Invalid local directory name"), d)
  ∧ ¬ is_prefix (g_path_get_basename "/tmp/foo-1") "foo"
  ∧ ∃ d', seaf_clone_manager_add_task quiet_env
            (sample_request "/tmp/foo-1" "foo") d
          = Ret (mkAdded (Some sample_repo_id) None, d').
Proof.
  repeat split.
  - by exists "o".
  - intros [rest Hrest]. vm_compute in Hrest. discriminate.
  - eexists. vm_compute. reflexivity.
Qed.

(** ** C7: generating a default worktree *)

Lemma loop_fuel_add {S R : Type} (a b : nat) (body : S -> S + R) (s : S) :
  loop_fuel (a + b) body s
  = match loop_fuel a body s with
    | inl s' => loop_fuel b body s'
    | inr r => inr r
    end.
Proof.
  revert s. induction a as [|a IH]; intros s; simpl; [done|].
  destruct (body s); [apply IH|done].
Qed.

Lemma loop_pow2_fuel {S R : Type} (n : nat) (body : S -> S + R) (s : S) :
  loop_pow2 n body s = loop_fuel (2 ^ n) body s.
Proof.
  revert s. induction n as [|n IH]; intros s.
  - change (loop_pow2 0 body s) with (body s). simpl. by destruct (body s).
  - change (2 ^ Datatypes.S n)%nat with (2 * 2 ^ n)%nat.
    replace (2 * 2 ^ n)%nat with (2 ^ n + 2 ^ n)%nat by lia.
    rewrite loop_fuel_add.
    change (loop_pow2 (Datatypes.S n) body s)
      with (match loop_pow2 n body s with
            | inl s' => loop_pow2 n body s'
            | inr r => inr r
            end).
    rewrite IH.
    destruct (loop_fuel (2 ^ n) body s); [apply IH|done].
Qed.

Lemma try_worktree_body_cases (e : Env) (wt : string) (c : Z) :
  1 <= c < UINT_MAX ->
  (g_access e (numbered wt c) < 0
   ∧ try_worktree_body e wt c = inr (Some (numbered wt c)))
  ∨ (0 <= g_access e (numbered wt c) ∧ c + 1 = UINT_MAX
     ∧ try_worktree_body e wt c = inr None)
  ∨ (0 <= g_access e (numbered wt c) ∧ c + 1 < UINT_MAX
     ∧ try_worktree_body e wt c = inl (c + 1)).
Proof.
  intros Hc. unfold try_worktree_body. fold (numbered wt c).
  unfold UINT_MAX in *.
  rewrite (Z.mod_small (c + 1)) by lia.
  destruct (Z.ltb_spec (g_access e (numbered wt c)) 0); [by left|].
  destruct (Z.eqb_spec (c + 1) (2 ^ 32 - 1)); [right; left|right; right];
    repeat split; try done; lia.
Qed.

Lemma try_loop_returns (e : Env) (wt : string) (fuel : nat) (c : Z) :
  1 <= c < UINT_MAX ->
  (Z.to_nat (UINT_MAX - c) <= fuel)%nat ->
  ∃ r, loop_fuel fuel (try_worktree_body e wt) c = inr r.
Proof.
  revert c. induction fuel as [|fuel IH]; intros c Hc Hfuel; [lia|].
  simpl.
  destruct (try_worktree_body_cases e wt c Hc)
    as [(_ & ->)|[(_ & _ & ->)|(_ & Hlt & ->)]]; eauto.
  apply IH; lia.
Qed.

Lemma try_loop_sound (e : Env) (wt : string) (fuel : nat) (c : Z)
    (r : option string) :
  1 <= c < UINT_MAX ->
  loop_fuel fuel (try_worktree_body e wt) c = inr r ->
  match r with
  | Some p =>
      ∃ k, c <= k < UINT_MAX ∧ p = numbered wt k ∧ g_access e p < 0
           ∧ ∀ j, c <= j < k -> 0 <= g_access e (numbered wt j)
  | None => ∀ j, c <= j < UINT_MAX -> 0 <= g_access e (numbered wt j)
  end.
Proof.
  revert c. induction fuel as [|fuel IH]; intros c Hc Hloop; [done|].
  simpl in Hloop.
  destruct (try_worktree_body_cases e wt c Hc)
    as [(Hfree & Hb)|[(Hocc & Hlast & Hb)|(Hocc & Hlt & Hb)]];
    rewrite Hb in Hloop.
  - simplify_eq. exists c. repeat split; try done; lia.
  - simplify_eq. intros j Hj. by replace j with c by lia.
  - apply IH in Hloop; [|lia]. destruct r as [p|].
    + destruct Hloop as (k & Hk & -> & Hfree & Hbelow).
      exists k. repeat split; try done; try lia.
      intros j Hj. destruct (decide (j = c)) as [->|]; [done|].
      apply Hbelow. lia.
    + intros j Hj. destruct (decide (j = c)) as [->|]; [done|].
      apply Hloop. lia.
Qed.

(** The loop of [try_worktree] returns within its [2 ^ 32] turns. *)
Lemma try_worktree_returns (e : Env) (wt : string) :
  ∃ r, loop_pow2 32 (try_worktree_body e wt) 1 = inr r.
Proof.
  rewrite loop_pow2_fuel. apply try_loop_returns; [unfold UINT_MAX; lia|].
  apply Nat2Z.inj_le. rewrite Nat2Z.inj_pow, Z2Nat.id by (unfold UINT_MAX; lia).
  unfold UINT_MAX. simpl Z.of_nat. lia.
Qed.

Lemma try_worktree_spec (e : Env) (wt : string) :
  match try_worktree e wt with
  | Some p =>
      ∃ k, 1 <= k < UINT_MAX ∧ p = numbered wt k ∧ g_access e p < 0
           ∧ ∀ j, 1 <= j < k -> 0 <= g_access e (numbered wt j)
  | None => ∀ j, 1 <= j < UINT_MAX -> 0 <= g_access e (numbered wt j)
  end.
Proof.
  unfold try_worktree. destruct (try_worktree_returns e wt) as [r Hr].
  rewrite Hr. rewrite loop_pow2_fuel in Hr.
  apply try_loop_sound in Hr; [done|unfold UINT_MAX; lia].
Qed.

Lemma make_worktree_dry_run (e : Env) (worktree wt : string) (d : daemon) :
  strip_tail worktree = Some wt ->
  make_worktree e worktree true d
  = Ret (mkPlaced (if keeps_path e d wt then Some wt else try_worktree e wt) None, d).
Proof.
  intros Hs. unfold make_worktree, keeps_path, mk_dir. rewrite Hs.
  repeat case_match; simplify_eq/=; done.
Qed.

(** C7, as the code has it: when the joined path has a byte that is not a
    separator, [seaf_clone_manager_gen_default_worktree] returns a path and
    leaves the daemon as it was (no directory is created, no task
    changes); called [n] times in a row it returns the same path [n]
    times.  The path is the joined path without its trailing separators
    when nothing is there or an unused directory is; otherwise it is the
    first of [path-1], [path-2], ... that does not exist, or the joined
    path itself when all of them up to [2 ^ 32 - 2] exist. *)
Theorem gen_default_worktree_repeats (e : Env) (parent name wt : string)
    (d : daemon) (n : nat) :
  strip_tail (g_build_filename parent name) = Some wt ->
  ∃ p,
    seaf_clone_manager_gen_default_worktree e parent name d = Ret (p, d)
    ∧ gen_default_worktree_times e parent name n d = Ret (replicate n p, d)
    ∧ if keeps_path e d wt then p = wt
      else (∃ k, 1 <= k < UINT_MAX ∧ p = numbered wt k ∧ g_access e p < 0
                 ∧ ∀ j, 1 <= j < k -> 0 <= g_access e (numbered wt j))
           ∨ (p = g_build_filename parent name
              ∧ ∀ j, 1 <= j < UINT_MAX -> 0 <= g_access e (numbered wt j)).
Proof.
  intros Hs.
  assert (∃ p, seaf_clone_manager_gen_default_worktree e parent name d = Ret (p, d)
               ∧ if keeps_path e d wt then p = wt
                 else (∃ k, 1 <= k < UINT_MAX ∧ p = numbered wt k
                            ∧ g_access e p < 0
                            ∧ ∀ j, 1 <= j < k -> 0 <= g_access e (numbered wt j))
                      ∨ (p = g_build_filename parent name
                         ∧ ∀ j, 1 <= j < UINT_MAX
                                -> 0 <= g_access e (numbered wt j)))
    as (p & Hgen & Hshape).
  { unfold seaf_clone_manager_gen_default_worktree.
    rewrite (make_worktree_dry_run e _ wt d Hs). simpl.
    destruct (keeps_path e d wt); [by eexists|].
    pose proof (try_worktree_spec e wt) as Hspec.
    destruct (try_worktree e wt) as [p|]; eexists; (split; [done|]); eauto. }
  exists p. repeat split; try done.
  induction n as [|n IH]; simpl; [done|]. by rewrite Hgen, IH.
Qed.

Lemma gen_default_worktree_repeats_witness :
  let d := seaf_clone_manager_new [] in
  ∃ p,
    seaf_clone_manager_gen_default_worktree quiet_env "/tmp/" "foo" d = Ret (p, d)
    ∧ gen_default_worktree_times quiet_env "/tmp/" "foo" 3 d
      = Ret (replicate 3 p, d)
    ∧ if keeps_path quiet_env d "/tmp/foo" then p = "/tmp/foo"
      else (∃ k, 1 <= k < UINT_MAX ∧ p = numbered "/tmp/foo" k
                 ∧ g_access quiet_env p < 0
                 ∧ ∀ j, 1 <= j < k -> 0 <= g_access quiet_env (numbered "/tmp/foo" j))
           ∨ (p = g_build_filename "/tmp/" "foo"
              ∧ ∀ j, 1 <= j < UINT_MAX
                     -> 0 <= g_access quiet_env (numbered "/tmp/foo" j)).
Proof.
  intros d.
  apply (gen_default_worktree_repeats quiet_env "/tmp/" "foo" "/tmp/foo" d 3).
  reflexivity.
Defined.

(** Two calls in a row return the same path, also when the path is a
    numbered one. *)
Lemma gen_default_worktree_twice_same :
  let d := seaf_clone_manager_new [] in
  gen_default_worktree_times quiet_env "/tmp" "foo" 2 d
  = Ret (["/tmp/foo"; "/tmp/foo"], d)
  ∧ gen_default_worktree_times file_in_the_way_env "/tmp" "foo" 2 d
    = Ret (["/tmp/foo-1"; "/tmp/foo-1"], d).
Proof. split; vm_compute; reflexivity. Qed.

(** ** What the handlers do to a task *)

Lemma start_checkout_post e repo task d :
  let r := start_checkout e repo task d in
  moved e task d r (Some repo) ∧ tx_id r.1 = tx_id task
  ∧ (state r.1 = CLONE_STATE_ERROR ∨ state r.1 = CLONE_STATE_CHECKOUT
     ∨ state r.1 = CLONE_STATE_MERGE).
Proof. post. Qed.

Lemma start_connect_post e task d :
  let r := start_connect_task_relay e task d in
  moved e task d r None ∧ tx_id r.1 = tx_id task
  ∧ state r.1 = CLONE_STATE_CONNECT.
Proof. post. Qed.

Lemma start_index_or_transfer_post e task d :
  let r := start_index_or_transfer e task d in
  moved e task d (r.1.2, r.2) None
  ∧ ((state r.1.2 = CLONE_STATE_INDEX ∧ tx_id r.1.2 = tx_id task)
     ∨ (state r.1.2 = CLONE_STATE_FETCH ∧ tx_id r.1.2 ≠ None)
     ∨ (state r.1.2 = CLONE_STATE_ERROR ∧ tx_id r.1.2 = None)).
Proof. post. Qed.

Lemma continue_post e task d :
  let r := continue_task_when_peer_connected e task d in
  r = (task, d)
  ∨ (moved e task d r None
     ∧ ((state r.1 = CLONE_STATE_INDEX ∧ tx_id r.1 = tx_id task)
        ∨ (state r.1 = CLONE_STATE_FETCH ∧ tx_id r.1 ≠ None)
        ∨ (state r.1 = CLONE_STATE_ERROR ∧ tx_id r.1 = None))).
Proof.
  unfold continue_task_when_peer_connected.
  pose proof (start_index_or_transfer_post e task d) as H. simpl in H.
  destruct (start_index_or_transfer e task d) as [[rc t] d'].
  repeat case_match; simplify_eq/=; intuition (auto; congruence).
Qed.

Lemma index_files_done_post e ok task d :
  let r := index_files_done e ok task d in
  moved e task d r None
  ∧ ((state r.1 = CLONE_STATE_ERROR ∧ tx_id r.1 = tx_id task ∧ ok = false
      ∧ error r.1 = CLONE_ERROR_INDEX)
     ∨ (state r.1 = CLONE_STATE_ERROR ∧ tx_id r.1 = None ∧ ok = true
        ∧ state task ≠ CLONE_STATE_CANCEL_PENDING)
     ∨ (state r.1 = CLONE_STATE_CANCELED ∧ tx_id r.1 = tx_id task ∧ ok = true
        ∧ state task = CLONE_STATE_CANCEL_PENDING)
     ∨ (state r.1 = CLONE_STATE_FETCH ∧ tx_id r.1 ≠ None ∧ ok = true
        ∧ state task ≠ CLONE_STATE_CANCEL_PENDING)).
Proof. post. Qed.

Lemma index_files_job_post e task d :
  job_frame task d (index_files_job e task d).
Proof. unfold job_frame. unfold_all. crush. Qed.

Lemma merge_job_post e repo task d :
  job_frame task d (merge_job e repo task d).
Proof.
  unfold job_frame, merge_job, fast_forward_checkout, real_merge.
  unfold_all. crush.
Qed.

Lemma merge_job_done_post e ok repo task d r :
  merge_job_done e ok repo task d = Ret r ->
  moved e task d r None ∧ tx_id r.1 = tx_id task
  ∧ ((state r.1 = CLONE_STATE_ERROR ∧ error r.1 = CLONE_ERROR_MERGE ∧ ok = false)
     ∨ (state r.1 = CLONE_STATE_CANCELED ∧ ok = true
        ∧ state task = CLONE_STATE_CANCEL_PENDING)
     ∨ (state r.1 = CLONE_STATE_DONE ∧ ok = true
        ∧ state task = CLONE_STATE_MERGE)).
Proof. post. Qed.

Lemma on_checkout_done_post e ctask task d r :
  on_checkout_done e ctask task d = Ret r ->
  moved e task d r None ∧ tx_id r.1 = tx_id task ∧ calls r.2 = calls d
  ∧ ((state r.1 = CLONE_STATE_ERROR ∧ error r.1 = CLONE_ERROR_CHECKOUT
      ∧ CheckoutTask.success ctask = false)
     ∨ (state r.1 = CLONE_STATE_CANCELED ∧ CheckoutTask.success ctask = true
        ∧ state task = CLONE_STATE_CANCEL_PENDING)
     ∨ (state r.1 = CLONE_STATE_DONE ∧ CheckoutTask.success ctask = true
        ∧ state task = CLONE_STATE_CHECKOUT)).
Proof. post. Qed.

Lemma on_repo_fetched_post e tx_task task d :
  let r := on_repo_fetched e tx_task task d in
  moved e task d r (seaf_repo_manager_get_repo e (TransferTask.repo_id tx_task))
  ∧ tx_id r.1 = tx_id task
  ∧ (state r.1 = CLONE_STATE_CANCELED ∨ state r.1 = CLONE_STATE_ERROR
     ∨ ((state r.1 = CLONE_STATE_CHECKOUT ∨ state r.1 = CLONE_STATE_MERGE)
        ∧ is_Some (seaf_repo_manager_get_repo e (TransferTask.repo_id tx_task)))).
Proof. post; right; right; eauto. Qed.

Lemma make_worktree_frame e worktree dry d placed d' :
  make_worktree e worktree dry d = Ret (placed, d') ->
  tasks d' = tasks d ∧ next_addr d' = next_addr d ∧ pending d' = pending d
  ∧ db d' = db d.
Proof. unfold make_worktree, mk_dir, call. intros H. crush. Qed.

Lemma gen_default_worktree_same e parent name d p d' :
  seaf_clone_manager_gen_default_worktree e parent name d = Ret (p, d') -> d' = d.
Proof.
  unfold seaf_clone_manager_gen_default_worktree, make_worktree, mk_dir.
  intros H. crush.
Qed.

(** ** Admission and startup *)

Lemma add_task_post e rq d a d' :
  seaf_clone_manager_add_task e rq d = Ret (a, d') ->
  (added_repo_id a = None ∧ tasks d' = tasks d ∧ pending d' = pending d
   ∧ db d' = db d ∧ (next_addr d <= next_addr d')%nat)
  ∨ (∃ t wt,
       added_repo_id a = Some (req_repo_id rq)
       ∧ is_duplicate_task d (req_repo_id rq) = false
       ∧ started e (req_repo_id rq) t d d'
           (sql_result e
              (SqlReplace
                 (row_of_task
                    (clone_task_new (next_addr d) (req_repo_id rq)
                       (req_peer_id rq) (Some (req_repo_name rq))
                       (req_token rq) wt (req_passwd rq) (req_peer_addr rq)
                       (req_peer_port rq) (req_email rq))))
              (db d))
       ∧ strip_tail (req_worktree_in rq) = Some wt
       ∧ String.length (req_repo_id rq) = 36%nat
       ∧ terminated 41 (req_peer_id rq) = true
       ∧ state t ≠ CLONE_STATE_DONE).
Proof.
  unfold seaf_clone_manager_add_task. intros H.
  destruct (Nat.eqb_spec (String.length (req_repo_id rq)) 36) as [Hlen|];
    [|done]. cbn [negb] in H.
  destruct (match seaf_repo_manager_get_repo e (req_repo_id rq) with
            | Some r => bool_decide (SeafRepo.head r ≠ None)
            | None => false
            end) eqn:Hhead; [simplify_eq; left; done|].
  destruct (is_duplicate_task d (req_repo_id rq)) eqn:Hdup;
    [simplify_eq; left; done|].
  destruct (negb _); [simplify_eq; left; done|].
  destruct (make_worktree e (req_worktree_in rq) false d) as [[placed d1]|] eqn:Hmk;
    [|done].
  pose proof Hmk as Hpath.
  apply make_worktree_frame in Hmk as (Ht1 & Hn1 & Hp1 & Hdb1).
  destruct (placed_path placed) as [wt|] eqn:Hplaced;
    [|simplify_eq; left; rewrite Ht1, Hp1, Hdb1, Hn1; done].
  apply (make_worktree_path _ _ _ _ _ wt) in Hpath; [|done].
  unfold alloc, save_task_to_db, sqlite_query_exec in H. rewrite Hn1 in H.
  destruct (terminated 41 (req_peer_id rq)) eqn:Hpeer; [|done].
  cbn [negb] in H.
  rewrite (clone_task_new_fits _ _ _ _ _ _ _ _ _ _ (terminated_36 _ Hlen) Hpeer)
    in H.
  set (task := mkCloneTask _ _ _ _ _ _ _ _ _ _ _ _ _ _ _) in H.
  destruct (sqlite_fails e (SqlReplace (row_of_task task))).
  { simpl in H. simplify_eq. left. simpl. repeat split; try done. lia. }
  simpl in H.
  set (d3 := with_db _ _) in H.
  right. exists (match seaf_repo_manager_get_repo e (req_repo_id rq) with
                 | Some r => (start_checkout e r task d3).1
                 | None =>
                     if negb (is_task_relay_connected e task)
                     then (start_connect_task_relay e task d3).1
                     else (start_index_or_transfer e task d3).1.2
                 end), wt.
  rewrite (clone_task_new_fits _ _ _ _ _ _ _ _ _ _ (terminated_36 _ Hlen) Hpeer).
  fold task.
  destruct (seaf_repo_manager_get_repo e (req_repo_id rq)) as [repo|] eqn:Hrepo.
  - pose proof (start_checkout_post e repo task d3) as (Hm & Htx & Hst).
    destruct (start_checkout e repo task d3) as [t1 d4]. simplify_eq.
    unfold moved in Hm. simpl in *. unfold started, table_insert. simpl.
    destruct Hm as (-> & -> & -> & -> & _ & -> & -> & ->).
    rewrite Htx, Ht1, Hp1, Hdb1. repeat split; try done; intuition congruence.
  - destruct (negb (is_task_relay_connected e task)).
    + pose proof (start_connect_post e task d3) as (Hm & Htx & Hst).
      destruct (start_connect_task_relay e task d3) as [t1 d4]. simplify_eq.
      unfold moved in Hm. simpl in *. unfold started, table_insert. simpl.
      destruct Hm as (-> & -> & -> & -> & _ & -> & -> & ->).
      rewrite Htx, Ht1, Hp1, Hdb1, Hst. repeat split; try done; intuition congruence.
    + pose proof (start_index_or_transfer_post e task d3) as (Hm & Hst).
      destruct (start_index_or_transfer e task d3) as [[[rc msg] t1] d4].
      simplify_eq.
      unfold moved in Hm. simpl in *. unfold started, table_insert. simpl.
      destruct Hm as (-> & -> & -> & -> & _ & -> & -> & ->).
      rewrite Ht1, Hp1, Hdb1. repeat split; try done; intuition congruence.
Qed.

Lemma restart_task_post e row d d' :
  restart_task e row d = Ret d' ->
  terminated 37 (col_repo_id row) = true
  ∧ ∃ t, started e (col_repo_id row) t d d' (db d)
         ∧ (state t = CLONE_STATE_DONE
            <-> ∃ repo, seaf_repo_manager_get_repo e (col_repo_id row) = Some repo
                        ∧ SeafRepo.head repo ≠ None).
Proof.
  unfold restart_task, alloc, clone_task_new.
  destruct (terminated 37 (col_repo_id row)) eqn:Hlen; [|done].
  cbn [negb]. rewrite (c_array_fits 37) by done.
  set (task := mkCloneTask _ _ _ _ _ _ _ _ _ _ _ _ _ _ _).
  set (d0 := mkDaemon _ _ _ _ _).
  intros H. split; [done|].
  destruct (seaf_repo_manager_get_repo e (col_repo_id row)) as [repo|] eqn:Hrepo.
  - destruct (SeafRepo.head repo) as [hd|] eqn:Hhead.
    + exists (set_state CLONE_STATE_DONE task). simpl in H. simplify_eq. split.
      * unfold started, transition_state, table_insert, remove_task_from_db,
          sqlite_query_exec, db_after. simpl.
        rewrite app_nil_r.
        destruct (sqlite_fails e (SqlDelete (col_repo_id row)));
          simpl; repeat split; try done; intuition congruence.
      * split; [|done]. intros _. exists repo. by rewrite Hhead.
    + pose proof (start_checkout_post e repo task (table_insert task d0))
        as (Hm & Htx & Hst).
      destruct (start_checkout e repo task (table_insert task d0)) as [t1 d1].
      simplify_eq.
      exists t1. unfold moved in Hm. simpl in *.
      destruct Hm as (Ht & Hn & Hid & Ha & _ & Htr & Hp & Hdb).
      split.
      * unfold started, table_insert. simpl.
        rewrite Ht, Hn, Hid, Ha, Htr, Hp, Hdb, Htx. simpl.
        rewrite insert_insert_eq.
        repeat split; try done; intuition congruence.
      * split; [intuition congruence|]. intros (repo' & ? & Hne).
        simplify_eq.
  - assert (∀ t, state t ≠ CLONE_STATE_DONE ->
              (state t = CLONE_STATE_DONE
               <-> ∃ repo : SeafRepo.t, None = Some repo ∧ SeafRepo.head repo ≠ None))
      as Hno by (intros t Ht; split; [done|by intros (? & ? & _)]).
    destruct (negb (terminated 41 (col_dest_id row))); [done|].
    destruct (negb (is_task_relay_connected e task)).
    + pose proof (start_connect_post e task d0) as (Hm & Htx & Hst).
      destruct (start_connect_task_relay e task d0) as [t1 d1]. simplify_eq.
      exists t1. unfold moved in Hm. simpl in *.
      destruct Hm as (Ht & Hn & Hid & Ha & _ & Htr & Hp & Hdb).
      split; [|apply Hno; congruence].
      unfold started, table_insert. simpl.
      rewrite Ht, Hn, Hid, Ha, Htr, Hp, Hdb, Htx, Hst. simpl.
      repeat split; try done; intuition congruence.
    + pose proof (start_index_or_transfer_post e task d0) as (Hm & Hst).
      destruct (start_index_or_transfer e task d0) as [[[rc msg] t1] d1].
      simplify_eq.
      exists t1. unfold moved in Hm. simpl in *.
      destruct Hm as (Ht & Hn & Hid & Ha & _ & Htr & Hp & Hdb).
      split; [|apply Hno; intuition congruence].
      unfold started, table_insert. simpl.
      rewrite Ht, Hn, Hid, Ha, Htr, Hp, Hdb. simpl.
      repeat split; try done; intuition congruence.
Qed.

(** ** The connection pulse, key by key *)

Lemma pulse_one_other e k d k' :
  k ≠ k' -> tasks (pulse_one e k d) !! k' = tasks d !! k'.
Proof.
  intros Hne. unfold pulse_one.
  destruct (tasks d !! k) as [task|]; [|done].
  case_bool_decide; [|done].
  unfold store_task. simpl. rewrite lookup_insert_ne by done.
  destruct (continue_post e task d) as [->|(Hm & _)]; [done|].
  unfold moved in Hm. by destruct Hm as (-> & _).
Qed.

Lemma pulse_fold_aux e (l : list (string * CloneTask)) d0 :
  NoDup l.*1 ->
  (∀ k v, (k, v) ∈ l -> tasks d0 !! k = Some v) ->
  foldl (λ (d1 : daemon) (kv : string * CloneTask),
           if bool_decide (state kv.2 = CLONE_STATE_CONNECT) then
             let '(task1, d2) := continue_task_when_peer_connected e kv.2 d1 in
             with_tasks (<[kv.1 := task1]> (tasks d2)) d2
           else d1) d0 l
  = foldl (λ d1 k, pulse_one e k d1) d0 l.*1.
Proof.
  revert d0. induction l as [|[k v] l IH]; intros d0 Hnd Hin; [done|].
  simpl in *. apply NoDup_cons in Hnd as [Hk Hnd].
  assert ((if bool_decide (state v = CLONE_STATE_CONNECT)
           then let '(task1, d2) := continue_task_when_peer_connected e v d0 in
                with_tasks (<[k := task1]> (tasks d2)) d2
           else d0) = pulse_one e k d0) as ->.
  { unfold pulse_one. rewrite (Hin k v) by apply list_elem_of_here.
    case_bool_decide; [|done].
    by destruct (continue_task_when_peer_connected e v d0). }
  apply IH; [done|]. intros k' v' Hkv.
  rewrite pulse_one_other.
  - apply Hin. by apply list_elem_of_further.
  - intros ->. apply Hk. apply list_elem_of_fmap. by exists (k', v').
Qed.

Lemma pulse_fold e d :
  check_connect_pulse e d
  = foldl (λ d1 k, pulse_one e k d1) d (map_to_list (tasks d)).*1.
Proof.
  unfold check_connect_pulse. apply pulse_fold_aux.
  - apply NoDup_fst_map_to_list.
  - intros k v Hkv. by apply elem_of_map_to_list.
Qed.

Lemma pulse_one_lookup e k d id t' :
  tasks (pulse_one e k d) !! id = Some t' ->
  tasks d !! id = Some t'
  ∨ ∃ t, tasks d !! id = Some t ∧ k = id
         ∧ moved e t d (continue_task_when_peer_connected e t d) None
         ∧ t' = (continue_task_when_peer_connected e t d).1
         ∧ changed e EvPulse d t t'.
Proof.
  destruct (decide (k = id)) as [->|Hne]; [|rewrite pulse_one_other by done; auto].
  unfold pulse_one. destruct (tasks d !! id) as [task|] eqn:Hl; [|by rewrite Hl; auto].
  case_bool_decide as Hst; [|by rewrite Hl; auto].
  unfold store_task. simpl. rewrite lookup_insert_eq. intros [= <-].
  destruct (continue_post e task d) as [Heq|(Hm & Hc)].
  - rewrite Heq. auto.
  - right. exists task. simpl in *. unfold changed. intuition.
Qed.

Lemma pulse_keys_lookup e ks d id t' :
  tasks (foldl (λ d1 k, pulse_one e k d1) d ks) !! id = Some t' ->
  tasks d !! id = Some t'
  ∨ ∃ t, tasks d !! id = Some t ∧ trail t' = state t' :: trail t
         ∧ addr t' = addr t ∧ repo_id t' = repo_id t
         ∧ changed e EvPulse d t t'.
Proof.
  revert d. induction ks as [|k ks IH]; intros d Hl; [auto|].
  simpl in Hl. apply IH in Hl as [Hl|(t1 & Hl & Htr & Ha & Hid & Hch)].
  - apply pulse_one_lookup in Hl as [Hl|(t & Hl & _ & Hm & -> & Hch)]; [auto|].
    right. exists t. unfold moved in Hm. simpl in *. intuition.
  - apply pulse_one_lookup in Hl as [Hl|(t & Hl & _ & Hm & -> & Hch')].
    + right. exists t1. done.
    + simpl in *. intuition congruence.
Qed.

(** ** The effect of an event *)

Lemma index_files_job_flag e t d d' :
  (index_files_job e t d).1.1 = (index_files_job e t d').1.1.
Proof.
  unfold index_files_job.
  by destruct (seaf_repo_index_worktree_files e _ _ _ _).
Qed.

Lemma moved_after_job e task d r1 r repo :
  job_frame task d r1 ->
  moved e r1.1.2 r1.2 r repo ->
  moved e task d r repo.
Proof.
  unfold job_frame, moved.
  intros (Ht & Hn & Hp & Hdb & Hid & Ha & Hw & _ & Htr & _) Hm.
  rewrite <- Ht, <- Hn, <- Hp, <- Hdb, <- Hid, <- Ha, <- Hw, <- Htr. done.
Qed.

Lemma store_task_effect e ev d id t rest r :
  tasks d !! id = Some t ->
  delivered ev (pending d) rest ->
  moved e t (with_pending rest d) r (event_repo e ev) ->
  acts_on ev id -> changed e ev d t r.1 -> pointer_ok ev t ->
  effect e ev d (store_task id r).
Proof.
  intros Hl Hdel Hm Hact Hch Hptr.
  eapply (eff_move e ev d _ id t rest r); try done.
  - unfold store_task. simpl. unfold moved in Hm. by destruct Hm as (-> & _).
  - unfold store_task. simpl. unfold moved in Hm. by destruct Hm as (_ & -> & _).
Qed.

Lemma cancel_task_effect e rid d :
  effect e (EvCancelTask rid) d (seaf_clone_manager_cancel_task e rid d).2.
Proof.
  unfold seaf_clone_manager_cancel_task.
  destruct (tasks d !! rid) as [task|] eqn:Hl; [|(apply eff_none; [by intros ? []|done..])].
  assert (∀ s d0,
    tasks d0 = tasks d -> pending d0 = pending d -> db d0 = db d ->
    next_addr d0 = next_addr d ->
    (((state task = CLONE_STATE_INIT ∨ state task = CLONE_STATE_CONNECT)
      ∧ s = CLONE_STATE_CANCELED)
     ∨ ((state task = CLONE_STATE_FETCH ∨ state task = CLONE_STATE_INDEX
         ∨ state task = CLONE_STATE_CHECKOUT ∨ state task = CLONE_STATE_MERGE)
        ∧ s = CLONE_STATE_CANCEL_PENDING)) ->
    effect e (EvCancelTask rid) d
      (let '(task1, d1) := transition_state e task s d0 in
       with_tasks (<[rid := task1]> (tasks d1)) d1)) as Hmove.
  { intros s d0 Ht Hp Hdb Hn Hs.
    pose proof (store_task_effect e (EvCancelTask rid) d rid task (pending d)
                  (transition_state e task s d0) Hl eq_refl) as Heff.
    destruct (transition_state e task s d0) as [t1 d1] eqn:Htr.
    apply Heff; [|done| |done].
    - rewrite <- Htr.
      unfold moved, transition_state, remove_task_from_db, sqlite_query_exec,
        db_after, is_terminal, entry_jobs.
      destruct Hs as [[_ ->]|[_ ->]]; simpl;
        try destruct (sqlite_fails e (SqlDelete (repo_id task))); simpl;
        rewrite ?Ht, ?Hp, ?Hdb, ?Hn, app_nil_r; done.
    - assert (t1 = set_state s task) as -> by (unfold transition_state in Htr; congruence).
      simpl. split; [done|]. intuition. }
  destruct (state task) eqn:Hst; lazy beta zeta iota delta [snd];
    try ((apply eff_none; [by intros ? []|done..])); apply Hmove; auto 10.
Qed.

Lemma remove_task_effect e rid d :
  effect e (EvRemoveTask rid) d (seaf_clone_manager_remove_task e rid d).2.
Proof.
  unfold seaf_clone_manager_remove_task.
  destruct (tasks d !! rid) as [task|] eqn:Hl; [|(apply eff_none; [by intros ? []|done..])].
  destruct (is_terminal (state task)) eqn:Hterm; simpl; [|(apply eff_none; [by intros ? []|done..])].
  apply (eff_remove e _ d _ rid task); try done; by destruct (tx_id task).
Qed.

Lemma pulse_one_effect e k d : effect e EvPulse d (pulse_one e k d).
Proof.
  unfold pulse_one. destruct (tasks d !! k) as [task|] eqn:Hl; [|(apply eff_none; [by intros ? []|done..])].
  case_bool_decide as Hst; [|(apply eff_none; [by intros ? []|done..])].
  destruct (continue_post e task d) as [->|(Hm & Hc)].
  - unfold store_task. simpl. apply eff_none; try done; [by intros ? []|].
    simpl. by apply insert_id.
  - by apply (store_task_effect e EvPulse d k task (pending d)).
Qed.

Lemma dispatch_effect e ev d d' :
  ev ≠ EvPulse ->
  dispatch e ev d = Some (Ret d') ->
  effect e ev d d'.
Proof.
  intros Hnp Hd.
  destruct ev as [rq|parent name|rid|rid| |rid a|rid a repo|tx|ctask repo];
    simpl in Hd; [| | | |done| | | |].
  - destruct (seaf_clone_manager_add_task e rq d) as [[added d1]|] eqn:Hadd;
      simplify_eq.
    apply add_task_post in Hadd
      as [(_ & Ht & Hp & Hdb & Hn)
         |(t & wt & _ & Hdup & Hs & Hwt & Hlen & Hpeer & Hnd)].
    + (apply eff_none; [by intros ? []|done..]).
    + by apply (eff_admit e _ d d' rq t wt).
  - destruct (seaf_clone_manager_gen_default_worktree e parent name d)
      as [[p d1]|] eqn:Hgen; simplify_eq.
    apply gen_default_worktree_same in Hgen as ->. (apply eff_none; [by intros ? []|done..]).
  - simplify_eq. apply cancel_task_effect.
  - simplify_eq. apply remove_task_effect.
  - destruct (deliver (JIndex rid a) (pending d)) as [rest|] eqn:Hdel; [|done].
    simpl in Hd. destruct (tasks d !! rid) as [task|] eqn:Hrid; [|done].
    case_bool_decide as Haddr; [|done].
    pose proof (index_files_job_post e task (with_pending rest d)) as Hj.
    pose proof (index_files_job_flag e task (with_pending rest d) d) as Hflag.
    destruct (index_files_job e task (with_pending rest d)) as [[ok t1] d1].
    simpl in Hflag. simplify_eq.
    pose proof (index_files_done_post e ((index_files_job e task d).1.1) t1 d1)
      as (Hm & Hc).
    apply (store_task_effect e _ d rid task rest); try done.
    + by apply (moved_after_job e task _ ((index_files_job e task d).1.1, t1, d1)).
    + unfold job_frame in Hj. simpl in *.
      destruct Hj as (_ & _ & _ & _ & _ & _ & _ & Htx1 & _ & Hst1).
      rewrite <- Htx1, <- Hst1. intuition.
  - destruct (deliver (JMerge rid a repo) (pending d)) as [rest|] eqn:Hdel; [|done].
    simpl in Hd. destruct (tasks d !! rid) as [task|] eqn:Hrid; [|done].
    case_bool_decide as Haddr; [|done].
    pose proof (merge_job_post e repo task (with_pending rest d)) as Hj.
    destruct (merge_job e repo task (with_pending rest d)) as [[ok t1] d1] eqn:Hmj.
    destruct (merge_job_done e ok repo t1 d1) as [r|] eqn:Hdone; [|done].
    simplify_eq.
    apply merge_job_done_post in Hdone as (Hm & Htx & Hc).
    apply (store_task_effect e _ d rid task rest); try done.
    + by apply (moved_after_job e task _ (ok, t1, d1)).
    + unfold job_frame in Hj. simpl in *.
      destruct Hj as (_ & _ & _ & _ & _ & _ & _ & Htx1 & _ & Hst1).
      rewrite <- Hst1. split; [congruence|]. exists rest.
      rewrite Hmj. simpl. split; [done|]. intuition.
  - destruct (TransferTask.is_clone tx) eqn:Hclone; simpl in Hd;
      [|simplify_eq; apply eff_none; try done;
        simpl; rewrite Hclone; by intros ? [? _]].
    destruct (deliver _ (pending d)) as [rest|] eqn:Hdel; [|done].
    simpl in Hd. destruct (tasks d !! TransferTask.repo_id tx) as [task|] eqn:Hrid;
      [|done].
    simplify_eq.
    pose proof (on_repo_fetched_post e tx task (with_pending rest d))
      as (Hm & Htx & Hc).
    apply (store_task_effect e _ d _ task rest); try done.
  - destruct (deliver _ (pending d)) as [rest|] eqn:Hdel; [|done].
    simpl in Hd. destruct (tasks d !! SeafRepo.id repo) as [task|] eqn:Hrid; [|done].
    destruct (on_checkout_done e ctask task (with_pending rest d)) as [r|] eqn:Hdone;
      [|done].
    simplify_eq.
    apply on_checkout_done_post in Hdone as (Hm & Htx & _ & Hc).
    apply (store_task_effect e _ d _ task rest); try done.
Qed.

(** ** The transition table *)

Lemma targets_acts_on ev id id0 :
  targets ev id -> acts_on ev id0 -> id = id0.
Proof. destruct ev; simpl; try done; intuition congruence. Qed.

Lemma effect_lookup e ev d d' id t' :
  effect e ev d d' ->
  tasks d' !! id = Some t' ->
  (tasks d !! id = Some t' ∧ ¬ targets ev id)
  ∨ (∃ rq, ev = EvAddTask rq ∧ id = req_repo_id rq
           ∧ is_duplicate_task d id = false
           ∧ trail t' = [state t']
           ∧ (tx_id t' ≠ None <-> state t' = CLONE_STATE_FETCH)
           ∧ state t' ≠ CLONE_STATE_INIT ∧ state t' ≠ CLONE_STATE_DONE
           ∧ state t' ≠ CLONE_STATE_CANCELED
           ∧ state t' ≠ CLONE_STATE_CANCEL_PENDING)
  ∨ (∃ t, tasks d !! id = Some t ∧ trail t' = state t' :: trail t
          ∧ addr t' = addr t ∧ repo_id t' = repo_id t
          ∧ acts_on ev id ∧ changed e ev d t t').
Proof.
  intros [Hnt Ht _ _ _
         |rq t wt -> Hdup Hs _ _ _ Hnd
         |rid t -> Hl Hterm Ht _ _ _
         |id0 t rest r Hl Hdel Hm Ht _ _ _ Hact Hch _] Hl'.
  - left. rewrite <- Ht. auto.
  - unfold started in Hs.
    destruct Hs as (Hid & Ha & Hn & Ht & Htr & Htx & Hp & Hdb & Hs1 & Hs2 & Hs3 & _).
    rewrite Ht in Hl'. destruct (decide (req_repo_id rq = id)) as [<-|Hne].
    + rewrite lookup_insert_eq in Hl'. simplify_eq. right. left. exists rq.
      repeat split; try done; apply Htx.
    + rewrite lookup_insert_ne in Hl' by done. left. split; [done|by intros []].
  - rewrite Ht in Hl'. apply lookup_delete_Some in Hl' as [_ Hl'].
    left. split; [done|by intros []].
  - rewrite Ht in Hl'. destruct (decide (id0 = id)) as [<-|Hne].
    + rewrite lookup_insert_eq in Hl'. simplify_eq. right. right. exists t.
      unfold moved in Hm. intuition.
    + rewrite lookup_insert_ne in Hl' by done. left. split; [done|].
      intros Htg. apply Hne. symmetry. by apply (targets_acts_on ev).
Qed.

(** Every change an event makes to the task under a key is a row of the
    table [changed], or the admission of a new task. *)
Lemma dispatch_lookup e ev d d' id t' :
  dispatch e ev d = Some (Ret d') ->
  tasks d' !! id = Some t' ->
  (tasks d !! id = Some t' ∧ ¬ targets ev id)
  ∨ (∃ rq, ev = EvAddTask rq ∧ id = req_repo_id rq
           ∧ is_duplicate_task d id = false
           ∧ trail t' = [state t']
           ∧ (tx_id t' ≠ None <-> state t' = CLONE_STATE_FETCH)
           ∧ state t' ≠ CLONE_STATE_INIT ∧ state t' ≠ CLONE_STATE_DONE
           ∧ state t' ≠ CLONE_STATE_CANCELED
           ∧ state t' ≠ CLONE_STATE_CANCEL_PENDING)
  ∨ (∃ t, tasks d !! id = Some t ∧ trail t' = state t' :: trail t
          ∧ addr t' = addr t ∧ repo_id t' = repo_id t
          ∧ acts_on ev id ∧ changed e ev d t t').
Proof.
  intros Hd Hl'.
  assert (ev = EvPulse ∨ ev ≠ EvPulse) as [->|Hnp]
    by (destruct ev; (by left) || (by right)).
  - simpl in Hd. simplify_eq. rewrite pulse_fold in Hl'.
    apply pulse_keys_lookup in Hl' as [Hl|(t & Hl & Htr & Ha & Hid & Hch)].
    + left. split; [done|by intros []].
    + right. right. exists t. simpl in *. intuition.
  - eapply effect_lookup; [by apply dispatch_effect|done].
Qed.

(** ** C3: how a task gets to DONE *)

Lemma init_restart e rows d :
  seaf_clone_manager_init e (seaf_clone_manager_new rows) = Ret (0, d) ->
  restart_rows e rows (seaf_clone_manager_new rows) = Ret d.
Proof.
  unfold seaf_clone_manager_init, sqlite_query_exec. intros H.
  destruct (sqlite_fails e SqlCreateTable); [done|]. simpl in H.
  destruct (sqlite_fails e SqlSelectAll); [done|].
  unfold sql_result in H. simpl in H.
  change (with_db rows (seaf_clone_manager_new rows))
    with (seaf_clone_manager_new rows) in H.
  destruct (restart_rows e rows (seaf_clone_manager_new rows)); by simplify_eq.
Qed.

Lemma init_lookup e rows d d' id t :
  restart_rows e rows d = Ret d' ->
  tasks d' !! id = Some t ->
  tasks d !! id = Some t
  ∨ (trail t = [state t]
     ∧ (state t = CLONE_STATE_DONE
        <-> ∃ repo, seaf_repo_manager_get_repo e id = Some repo
                    ∧ SeafRepo.head repo ≠ None)).
Proof.
  revert d. induction rows as [|row rows IH]; intros d H Hl; simpl in H.
  { simplify_eq. auto. }
  destruct (restart_task e row d) as [d1|] eqn:Hr; [|done].
  apply (IH _ H) in Hl as [Hl|Hl]; [|auto].
  destruct (restart_task_post e row d d1 Hr) as (_ & t1 & Hs & Hdone).
  unfold started in Hs. destruct Hs as (_ & _ & _ & Ht & Htr & _).
  rewrite Ht in Hl. destruct (decide (col_repo_id row = id)) as [<-|Hne].
  - rewrite lookup_insert_eq in Hl. simplify_eq. auto.
  - rewrite lookup_insert_ne in Hl by done. auto.
Qed.

(** C3, as the code has it: an event brings a task to DONE only as the
    successful completion of the checkout of a task in CHECKOUT or as the
    successful completion of the merge job of a task in MERGE; besides,
    startup recovery creates a task in DONE for a row whose repository
    exists with its head set, and for no other row. *)
Theorem done_only_by_completion_or_recovery (e : Env) (ev : Event)
    (d d' : daemon) (rows : list Row) (id : string) (t' : CloneTask) :
  (dispatch e ev d = Some (Ret d') ->
   tasks d' !! id = Some t' ->
   state t' = CLONE_STATE_DONE ->
   tasks d !! id = Some t'
   ∨ ∃ t, tasks d !! id = Some t
       ∧ ((∃ ctask repo, ev = EvCheckoutDone ctask repo ∧ SeafRepo.id repo = id
                         ∧ CheckoutTask.success ctask = true
                         ∧ state t = CLONE_STATE_CHECKOUT)
          ∨ (∃ a repo rest, ev = EvMergeDone id a repo
                            ∧ deliver (JMerge id a repo) (pending d) = Some rest
                            ∧ (merge_job e repo t (with_pending rest d)).1.1 = true
                            ∧ state t = CLONE_STATE_MERGE)))
  ∧ (seaf_clone_manager_init e (seaf_clone_manager_new rows) = Ret (0, d') ->
     tasks d' !! id = Some t' ->
     (state t' = CLONE_STATE_DONE
      <-> ∃ repo, seaf_repo_manager_get_repo e id = Some repo
                  ∧ SeafRepo.head repo ≠ None)).
Proof.
  split.
  - intros Hd Hl' Hdone.
    destruct (dispatch_lookup e ev d d' id t' Hd Hl')
      as [(Hsame & _)|[(rq & -> & _ & _ & _ & _ & _ & Hnd & _)
                      |(t & Hl & _ & _ & _ & Hact & Hch)]]; [auto|done|].
    right. exists t. split; [done|].
    destruct ev; simpl in Hch, Hact; try done; try (intuition congruence).
    + destruct Hch as (_ & rest & Hdel & Hch). simpl in Hch. subst.
      right. exists task, repo, rest. intuition congruence.
    + left. exists ctask, repo. intuition congruence.
  - intros Hinit Hl'. apply init_restart in Hinit.
    apply (init_lookup _ _ _ _ _ _ Hinit) in Hl' as [Hl'|[_ Hl']]; [done|done].
Qed.

Lemma done_only_by_completion_or_recovery_witness :
  let t := sample_task CLONE_STATE_CHECKOUT None in
  let d := sample_daemon t [JCheckout sample_repo_id] in
  let ev := EvCheckoutDone (CheckoutTask.mk true) (sample_repo None false 0) in
  ∃ d' t',
    dispatch quiet_env ev d = Some (Ret d')
    ∧ tasks d' !! sample_repo_id = Some t'
    ∧ state t' = CLONE_STATE_DONE
    ∧ (tasks d !! sample_repo_id = Some t'
       ∨ ∃ t0, tasks d !! sample_repo_id = Some t0
           ∧ ((∃ ctask repo, ev = EvCheckoutDone ctask repo
                             ∧ SeafRepo.id repo = sample_repo_id
                             ∧ CheckoutTask.success ctask = true
                             ∧ state t0 = CLONE_STATE_CHECKOUT)
              ∨ (∃ a repo rest,
                   ev = EvMergeDone sample_repo_id a repo
                   ∧ deliver (JMerge sample_repo_id a repo) (pending d) = Some rest
                   ∧ (merge_job quiet_env repo t0 (with_pending rest d)).1.1 = true
                   ∧ state t0 = CLONE_STATE_MERGE))).
Proof.
  intros t d ev. eexists _, _.
  split; [reflexivity|]. split; [reflexivity|]. split; [reflexivity|].
  eapply (done_only_by_completion_or_recovery quiet_env ev d _ []); reflexivity.
Defined.

(** Startup recovery puts the task of a checked-out repository in DONE:
    no checkout and no merge has completed. *)
Lemma recovery_enters_done :
  let e := sample_env (Some (sample_repo (Some "master") false 0)) 0 0 None None
             None (λ _, false) (λ _, StatNoEnt) (λ _, -1) in
  let row := row_of_task (sample_task CLONE_STATE_INIT None) in
  ∃ d t,
    seaf_clone_manager_init e (seaf_clone_manager_new [row]) = Ret (0, d)
    ∧ tasks d !! sample_repo_id = Some t
    ∧ state t = CLONE_STATE_DONE
    ∧ trail t = [CLONE_STATE_DONE]
    ∧ pending d = [] ∧ calls d = [].
Proof. eexists _, _. repeat split; reflexivity. Qed.

(** ** C9: the transfer handle *)

Lemma deliver_perm j js rest : deliver j js = Some rest -> js ≡ₚ j :: rest.
Proof.
  revert rest. induction js as [|j' js IH]; intros rest H; [done|].
  simpl in H. destruct (decide (j' = j)) as [->|Hne].
  - by simplify_eq.
  - destruct (deliver j js) as [rest'|]; [|done]. simpl in H. simplify_eq.
    rewrite (IH rest' eq_refl). apply perm_swap.
Qed.

Lemma entry_jobs_index t repo id a :
  JIndex id a ∈ entry_jobs t repo ->
  state t = CLONE_STATE_INDEX ∧ id = repo_id t ∧ a = addr t.
Proof.
  unfold entry_jobs. destruct (state t), repo; simpl;
    rewrite ?list_elem_of_singleton, ?elem_of_nil; intros H; by simplify_eq.
Qed.

Lemma entry_jobs_index_filter t repo :
  filter (λ j, is_index j = true) (entry_jobs t repo)
  = if bool_decide (state t = CLONE_STATE_INDEX)
    then [JIndex (repo_id t) (addr t)] else [].
Proof. unfold entry_jobs. by destruct (state t), repo. Qed.

Lemma fetch_inv_started e rid t d d' rows0 :
  started e rid t d d' rows0 -> fetch_inv d -> fetch_inv d'.
Proof.
  unfold started.
  intros (Hid & Ha & Hn & Ht & Htr & Htx & Hp & _ & Hs1 & _) (I1 & I2 & I3).
  split; [|split].
  - intros id t0 Hl. rewrite Ht in Hl. rewrite Hn.
    destruct (decide (rid = id)) as [<-|Hne].
    + rewrite lookup_insert_eq in Hl. simplify_eq. split; [|split; [lia|done]].
      unfold task_ok. rewrite Htr, list_elem_of_singleton.
      split; [|split]; [rewrite Htx; split; congruence|apply Htx
                       |intros [?|?]; congruence].
    + rewrite lookup_insert_ne in Hl by done.
      destruct (I1 id t0 Hl) as (? & ? & ?). split; [done|split; [lia|done]].
  - intros id a Hin. rewrite Hp, elem_of_app in Hin. rewrite Hn, Ht.
    destruct Hin as [Hin|Hin].
    + destruct (I2 id a Hin) as [Hlt Hold]. split; [lia|].
      intros t0 Hl Ha0. destruct (decide (rid = id)) as [<-|Hne].
      * rewrite lookup_insert_eq in Hl. simplify_eq. lia.
      * rewrite lookup_insert_ne in Hl by done. by apply Hold.
    + apply entry_jobs_index in Hin as (Hst & -> & ->). split; [lia|].
      intros t0 Hl _. rewrite Hid, lookup_insert_eq in Hl. simplify_eq.
      rewrite Htr, Hst, list_elem_of_singleton. done.
  - rewrite Hp, filter_app, entry_jobs_index_filter.
    case_bool_decide; [|by rewrite app_nil_r].
    apply NoDup_app. split; [done|]. split; [|apply NoDup_singleton].
    intros j Hj Hj'. apply list_elem_of_singleton in Hj' as ->.
    apply list_elem_of_filter in Hj as [_ Hj].
    apply I2 in Hj as [Hlt _]. lia.
Qed.

Lemma fetch_inv_effect e ev d d' :
  effect e ev d d' -> fetch_inv d -> fetch_inv d'.
Proof.
  intros [_ Ht Hp _ Hn
         |rq t wt -> Hdup Hs Hnd
         |rid t -> Hl Hterm Ht Hp _ Hn
         |id0 t rest r Hl Hdel Hm Ht Hp _ Hn Hact Hch Hptr] Hinv.
  - destruct Hinv as (I1 & I2 & I3). unfold fetch_inv. rewrite Ht, Hp.
    split; [|split; [|done]].
    + intros id t Hl. destruct (I1 id t Hl) as (? & ? & ?).
      split; [done|split; [lia|done]].
    + intros id a Hin. destruct (I2 id a Hin) as [? ?]. split; [lia|done].
  - by eapply fetch_inv_started.
  - destruct Hinv as (I1 & I2 & I3). unfold fetch_inv. rewrite Ht, Hp, Hn.
    split; [|split; [|done]].
    + intros id t0 Hl0. apply lookup_delete_Some in Hl0 as [_ Hl0]. by apply I1.
    + intros id a Hin. destruct (I2 id a Hin) as [? Hold]. split; [done|].
      intros t0 Hl0. apply lookup_delete_Some in Hl0 as [_ Hl0]. by apply Hold.
  - destruct Hinv as (I1 & I2 & I3).
    destruct (I1 id0 t Hl) as ((Htx & Hfetch & Hconn) & Hlt & Hid).
    unfold moved in Hm. simpl in Hm.
    destruct Hm as (_ & _ & Hid' & Ha' & _ & Htr' & Hp' & _).
    rewrite Hp' in Hp.
    (* what remains pending was pending *)
    assert (∀ j, j ∈ rest -> j ∈ pending d) as Hsub.
    { intros j Hj. unfold delivered in Hdel.
      destruct (event_job ev) as [j0|]; [|by subst].
      apply deliver_perm in Hdel. rewrite Hdel. by apply list_elem_of_further. }
    assert (NoDup (filter (λ j, is_index j = true) rest)) as Hnd.
    { unfold delivered in Hdel.
      destruct (event_job ev) as [j0|]; [|by subst].
      apply deliver_perm in Hdel. rewrite Hdel in I3.
      rewrite filter_cons in I3. case_decide; [|done].
      by apply NoDup_cons in I3 as [_ ?]. }
    (* the task has not entered FETCH before, whenever the event may fail a
       download or schedule an index job *)
    assert (state r.1 = CLONE_STATE_FETCH ∨ state r.1 = CLONE_STATE_INDEX
            ∨ (state r.1 = CLONE_STATE_ERROR ∧ tx_id r.1 = None) ->
            tx_id r.1 = tx_id t ∧ state r.1 ≠ CLONE_STATE_INDEX
            ∨ ((CLONE_STATE_FETCH ∉ trail t)
               ∧ ((state t = CLONE_STATE_CONNECT ∧ ev = EvPulse)
                  ∨ (∃ a, ev = EvIndexDone id0 a ∧ addr t = a
                          ∧ JIndex id0 a ∉ rest)))) as Hfresh.
    { intros Hst.
      destruct ev as [rq|parent name|rid|rid| |rid a|rid a repo|tx|ctask repo];
        simpl in Hch, Hact, Hptr, Hdel; try done.
      - left. intuition congruence.
      - right. split; [apply Hconn; intuition|]. left. intuition.
      - right. unfold delivered in Hdel. simpl in Hdel. subst rid a.
        assert (JIndex id0 (addr t) ∈ pending d) as Hin.
        { apply deliver_perm in Hdel. rewrite Hdel. apply list_elem_of_here. }
        destruct (I2 _ _ Hin) as [_ Hold].
        split; [by apply (Hold t)|]. right. exists (addr t).
        repeat split; try done.
        apply deliver_perm in Hdel. rewrite Hdel in I3.
        rewrite filter_cons_True in I3 by done.
        apply NoDup_cons in I3 as [Hnin _]. intros Hin'. apply Hnin.
        by apply list_elem_of_filter.
      - destruct Hch as (? & ? & _ & Hch). simpl in Hch. left.
        intuition congruence.
      - left. intuition congruence.
      - left. intuition congruence. }
    assert (state r.1 ≠ CLONE_STATE_CONNECT ∧ state r.1 ≠ CLONE_STATE_INIT
            ∧ (state r.1 = CLONE_STATE_FETCH -> tx_id r.1 ≠ None)
            ∧ (tx_id r.1 = tx_id t ∨ state r.1 = CLONE_STATE_FETCH
               ∨ (state r.1 = CLONE_STATE_ERROR ∧ tx_id r.1 = None)))
      as (Hnc & Hni & Hf & Htxc).
    { destruct ev; simpl in Hch; try done.
      - intuition congruence.
      - intuition congruence.
      - intuition congruence.
      - destruct Hch as (? & rest' & _ & Hch). simpl in Hch. intuition congruence.
      - intuition congruence.
      - intuition congruence. }
    split; [|split].
    + intros id t0 Hl0. rewrite Ht in Hl0. rewrite Hn.
      destruct (decide (id0 = id)) as [<-|Hne];
        [|rewrite lookup_insert_ne in Hl0 by done; by apply I1].
      rewrite lookup_insert_eq in Hl0. simplify_eq.
      split; [|split; congruence].
      unfold task_ok. rewrite Htr', elem_of_cons.
      split; [|split; [done|intuition]].
      destruct (decide (state r.1 = CLONE_STATE_FETCH)) as [Hsf|Hsf].
      { split; [auto|]. intros _. by apply Hf. }
      destruct Htxc as [Heq|[?|[Hse Hnone]]]; [|done|].
      * rewrite Heq. split; [intros ?; right; by apply Htx|].
        intros [?|?]; [congruence|by apply Htx].
      * destruct (Hfresh (or_intror (or_intror (conj Hse Hnone))))
          as [[Heq _]|[Hnf _]].
        -- rewrite Heq. split; [intros ?; right; by apply Htx|].
           intros [?|?]; [congruence|by apply Htx].
        -- rewrite Hnone. split; [done|]. intros [?|?]; [congruence|done].
    + intros id a Hin. rewrite Hp, elem_of_app in Hin. rewrite Hn, Ht.
      destruct Hin as [Hin|Hin].
      * destruct (I2 id a (Hsub _ Hin)) as [Hlta Hold]. split; [done|].
        intros t0 Hl0 Ha0. destruct (decide (id0 = id)) as [<-|Hne];
          [|rewrite lookup_insert_ne in Hl0 by done; by apply Hold].
        rewrite lookup_insert_eq in Hl0. simplify_eq.
        destruct (Hold t Hl (eq_sym Ha')) as (Hnf & Hnc0 & Hni0).
        split; [|done]. rewrite Htr', not_elem_of_cons. split; [|done].
        intros Hsf.
        destruct (Hfresh (or_introl (eq_sym Hsf)))
          as [[Heq _]|[_ [[Hc _]|(a & -> & Ha & Hnin)]]].
        -- apply Hnf. apply Htx. rewrite <- Heq. apply Hf. done.
        -- done.
        -- apply Hnin. congruence.
      * apply entry_jobs_index in Hin as (Hst & -> & ->).
        rewrite Hid', Ha', Hid. split; [done|].
        intros t0 Hl0 _. rewrite lookup_insert_eq in Hl0. simplify_eq.
        split; [|done]. rewrite Htr', Hst, not_elem_of_cons. split; [done|].
        destruct (Hfresh (or_intror (or_introl Hst))) as [[_ ?]|[? _]]; done.
    + rewrite Hp, filter_app, entry_jobs_index_filter.
      case_bool_decide as Hst; [|by rewrite app_nil_r].
      apply NoDup_app. split; [done|]. split; [|apply NoDup_singleton].
      intros j Hj Hj'. apply list_elem_of_singleton in Hj' as ->.
      apply list_elem_of_filter in Hj as [_ Hj].
      destruct (Hfresh (or_intror (or_introl Hst)))
        as [[_ ?]|[_ [[Hc _]|(a & -> & _)]]]; [done| |].
      * apply Hsub, I2 in Hj as [_ Hold].
        rewrite Hid', Hid in Hold. destruct (Hold t Hl (eq_sym Ha')) as (_ & ? & _).
        done.
      * simpl in Hch. intuition congruence.
Qed.

Lemma fetch_inv_new rows : fetch_inv (seaf_clone_manager_new rows).
Proof.
  unfold fetch_inv, seaf_clone_manager_new. simpl. split; [|split].
  - intros id t Hl. by rewrite lookup_empty in Hl.
  - intros id a Hin. by apply elem_of_nil in Hin.
  - apply NoDup_nil_2.
Qed.

Lemma fetch_inv_init e rows d :
  seaf_clone_manager_init e (seaf_clone_manager_new rows) = Ret (0, d) ->
  fetch_inv d.
Proof.
  intros H. apply init_restart in H.
  assert (∀ rs d0 d1, restart_rows e rs d0 = Ret d1 -> fetch_inv d0 ->
            fetch_inv d1) as Hfold.
  { induction rs as [|row rs IH]; intros d0 d1 Hr Hinv; simpl in Hr.
    { by simplify_eq. }
    destruct (restart_task e row d0) as [d2|] eqn:Hrow; [|done].
    apply (IH _ _ Hr).
    destruct (restart_task_post e row d0 d2 Hrow) as (_ & t & Hs & _).
    by eapply fetch_inv_started. }
  apply (Hfold _ _ _ H). apply (fetch_inv_new rows).
Qed.

Lemma fetch_inv_dispatch e ev d d' :
  dispatch e ev d = Some (Ret d') -> fetch_inv d -> fetch_inv d'.
Proof.
  intros Hd Hinv.
  assert (ev = EvPulse ∨ ev ≠ EvPulse) as [->|Hnp]
    by (destruct ev; (by left) || (by right)).
  - simpl in Hd. simplify_eq. rewrite pulse_fold.
    generalize (map_to_list (tasks d)).*1. intros ks. revert d Hinv.
    induction ks as [|k ks IH]; intros d Hinv; [done|]. simpl. apply IH.
    eapply fetch_inv_effect; [apply pulse_one_effect|done].
  - eapply fetch_inv_effect; [by apply dispatch_effect|done].
Qed.

Lemma fetch_inv_reachable G I d : reachable G I d -> fetch_inv d.
Proof.
  induction 1 as [e rows d _ _ Hinit|e ev d d' _ _ IH Hd].
  - by eapply fetch_inv_init.
  - by eapply fetch_inv_dispatch.
Qed.

(** C9: in every daemon a run can reach, a task in the table that is in
    FETCH has its [tx_id] set, and the [tx_id] of a task in the table is
    set exactly when the task has entered FETCH. *)
Theorem fetch_has_transfer (G : Env -> Prop) (I : list Row -> Prop)
    (d : daemon) (id : string) (t : CloneTask) :
  reachable G I d ->
  tasks d !! id = Some t ->
  (state t = CLONE_STATE_FETCH -> tx_id t ≠ None)
  ∧ (tx_id t ≠ None <-> CLONE_STATE_FETCH ∈ trail t).
Proof.
  intros Hreach Hl.
  destruct (fetch_inv_reachable G I d Hreach) as (I1 & _).
  destruct (I1 id t Hl) as ((Htx & Hf & _) & _). done.
Qed.

Lemma fetch_has_transfer_witness :
  ∃ t, tasks fetching_daemon !! sample_repo_id = Some t
       ∧ state t = CLONE_STATE_FETCH
       ∧ (state t = CLONE_STATE_FETCH -> tx_id t ≠ None)
       ∧ (tx_id t ≠ None <-> CLONE_STATE_FETCH ∈ trail t).
Proof.
  eexists. split; [reflexivity|]. split; [reflexivity|].
  apply (fetch_has_transfer (λ _, True) (λ _, True) fetching_daemon sample_repo_id);
    [|reflexivity].
  apply (reach_step _ _ quiet_env (EvAddTask (sample_request "/tmp/foo" "foo"))
           fresh_daemon); [done| |reflexivity].
  by apply (reach_init _ _ quiet_env []).
Defined.
(** ** The registry against the pending work *)

Lemma jobs_for_app id js js' :
  jobs_for id (js ++ js') = (jobs_for id js ++ jobs_for id js')%list.
Proof. apply filter_app. Qed.

Lemma entry_jobs_for id t repo :
  (∀ r, repo = Some r -> SeafRepo.id r = repo_id t) ->
  jobs_for id (entry_jobs t repo)
  = if decide (repo_id t = id) then entry_jobs t repo else [].
Proof.
  intros Hrepo. unfold jobs_for, entry_jobs.
  destruct (state t), repo as [r|]; simpl; try (by case_decide);
    rewrite ?(Hrepo r eq_refl);
    rewrite filter_cons, filter_nil; simpl; by repeat case_decide.
Qed.

Lemma expected_entry t repo :
  state t ≠ CLONE_STATE_INIT -> state t ≠ CLONE_STATE_CANCEL_PENDING ->
  (state t = CLONE_STATE_CHECKOUT ∨ state t = CLONE_STATE_MERGE ->
   ∃ r, repo = Some r ∧ SeafRepo.id r = repo_id t) ->
  expected t (entry_jobs t repo).
Proof.
  unfold expected, entry_jobs. intros Hi Hcp Hrepo.
  destruct (state t); try done.
  - destruct Hrepo as (r & -> & ->); auto.
  - destruct Hrepo as (r & -> & _); eauto.
Qed.

Lemma expected_short t js :
  expected t js ->
  js = [] ∨ ∃ j, js = [j] ∧ job_repo_id j = repo_id t
                 ∧ is_terminal (state t) = false.
Proof.
  unfold expected. destruct (state t); try done; try (by left);
    intros H; right;
    repeat match goal with
           | H : _ ∨ _ |- _ => destruct H as [H|H]
           | H : ∃ _, _ |- _ => destruct H as [? H]
           end; subst; eauto.
Qed.

Lemma deliver_elem j js rest : deliver j js = Some rest -> j ∈ js.
Proof.
  intros H. apply deliver_perm in H. rewrite H. apply list_elem_of_here.
Qed.

Lemma deliver_filter_other (P : Job -> Prop) `{∀ x, Decision (P x)} j js rest :
  deliver j js = Some rest -> ¬ P j -> filter P rest = filter P js.
Proof.
  revert rest. induction js as [|j' js IH]; intros rest Hd Hn; [done|].
  simpl in Hd. destruct (decide (j' = j)) as [->|Hne].
  - simplify_eq. by rewrite filter_cons_False.
  - destruct (deliver j js) as [rest'|]; [|done]. simpl in Hd. simplify_eq.
    rewrite !filter_cons, (IH rest' eq_refl Hn). done.
Qed.

Lemma deliver_filter_single (P : Job -> Prop) `{∀ x, Decision (P x)} j js rest j0 :
  deliver j js = Some rest -> P j -> filter P js = [j0] ->
  j0 = j ∧ filter P rest = [].
Proof.
  revert rest. induction js as [|j' js IH]; intros rest Hd Hp Hf; [done|].
  simpl in Hd. destruct (decide (j' = j)) as [->|Hne].
  - simplify_eq. rewrite filter_cons_True in Hf by done. by simplify_eq.
  - destruct (deliver j js) as [rest'|] eqn:Hd'; [|done]. simpl in Hd.
    simplify_eq. rewrite filter_cons in Hf |- *. case_decide.
    + simplify_eq. apply deliver_elem in Hd'.
      assert (j ∈ filter P js) as Hin by by apply list_elem_of_filter.
      rewrite H2 in Hin. by apply elem_of_nil in Hin.
    + by apply IH.
Qed.

Lemma started_jobs_inv e rid t d d' rows0 todo todo' :
  dependable e ->
  started e rid t d d' rows0 ->
  jobs_inv todo d ->
  jobs_for rid (pending d) = [] ->
  rid ∉ todo' ->
  (∀ id, id ∈ todo' -> id ∈ todo) ->
  jobs_inv todo' d'.
Proof.
  intros Hdep Hs Hinv Hnone Hnt Hsub.
  unfold started in Hs.
  destruct Hs as (Hid & Ha & Hn & Ht & Htr & Htx & Hp & Hdb & Hs1 & Hs2 & Hs3 & Hrepo).
  assert (∀ r, seaf_repo_manager_get_repo e rid = Some r ->
               SeafRepo.id r = repo_id t) as Hids.
  { intros r Hr. rewrite Hid. by apply Hdep. }
  intros id. rewrite Ht, Hp, jobs_for_app, entry_jobs_for by done.
  rewrite Hid.
  destruct (decide (rid = id)) as [<-|Hne].
  - rewrite lookup_insert_eq, Hnone. simpl.
    split; [done|]. split; [done|].
    apply expected_entry; try done. intros Hst.
    destruct (Hrepo Hst) as [r Hr]. exists r. split; [done|by apply Hids].
  - rewrite lookup_insert_ne, app_nil_r by done.
    specialize (Hinv id). destruct (tasks d !! id) as [t0|]; [|done].
    destruct Hinv as (Hnu & Hid0 & Hexp).
    split; [auto|]. split; [done|done].
Qed.

Lemma expected_same t t' js :
  state t' = state t -> repo_id t' = repo_id t -> addr t' = addr t ->
  expected t js -> expected t' js.
Proof. unfold expected. by intros -> -> ->. Qed.

Lemma delivered_jobs_for ev js rest id0 id :
  delivered ev js rest -> acts_on ev id0 ->
  (id ≠ id0 -> jobs_for id rest = jobs_for id js)
  ∧ (event_job ev = None -> rest = js)
  ∧ (∀ j, event_job ev = Some j ->
       job_repo_id j = id0 ∧ deliver j js = Some rest).
Proof.
  unfold delivered. intros Hdel Hact.
  destruct ev as [rq|parent name|rid|rid| |rid a|rid a repo|tx|ctask repo];
    simpl in *; try done; subst;
    try (split; [done|split; [done|by intros ? [=]]]).
  all: split; [|split; [done|]].
  all: try (intros j [= <-]; simpl; intuition).
  all: intros Hne; unfold jobs_for;
    apply (deliver_filter_other (λ j, job_repo_id j = id) _ _ _ Hdel);
    simpl; intuition congruence.
Qed.

(** What one transition of a task does to its pending work: a cancellation
    of running work leaves it, every other transition consumes it. *)
Lemma move_cases e ev d id0 t t' rest :
  expected t (jobs_for id0 (pending d)) ->
  delivered ev (pending d) rest -> acts_on ev id0 -> changed e ev d t t' ->
  (state t' = CLONE_STATE_CANCEL_PENDING
   ∧ rest = pending d ∧ is_terminal (state t) = false
   ∧ (state t = CLONE_STATE_FETCH ∨ state t = CLONE_STATE_INDEX
      ∨ state t = CLONE_STATE_CHECKOUT ∨ state t = CLONE_STATE_MERGE))
  ∨ (state t' ≠ CLONE_STATE_CANCEL_PENDING
     ∧ state t' ≠ CLONE_STATE_INIT
     ∧ jobs_for id0 rest = []
     ∧ is_terminal (state t) = false
     ∧ (state t' = CLONE_STATE_CHECKOUT ∨ state t' = CLONE_STATE_MERGE ->
        is_Some (event_repo e ev))).
Proof.
  intros Hexp Hdel Hact Hch.
  destruct (delivered_jobs_for ev (pending d) rest id0 id0 Hdel Hact)
    as (_ & Hnojob & Hjob).
  destruct (event_job ev) as [j|] eqn:Hj.
  - destruct (Hjob j eq_refl) as [Hjid Hdj].
    right.
    assert (jobs_for id0 rest = [] ∧ is_terminal (state t) = false)
      as [Hnil Hrun].
    { apply expected_short in Hexp as [Hnil|(j0 & Hone & _ & Hrun)].
      - apply deliver_elem in Hdj.
        assert (j ∈ jobs_for id0 (pending d)) as Hin
          by by apply list_elem_of_filter.
        rewrite Hnil in Hin. by apply elem_of_nil in Hin.
      - split; [|done].
        by apply (deliver_filter_single (λ j, job_repo_id j = id0)
                    j (pending d) rest j0). }
    destruct ev; simpl in Hch, Hj; try done.
    + repeat split; try done; intuition congruence.
    + destruct Hch as (_ & ? & _ & Hch). simpl in Hch.
      repeat split; try done; intuition congruence.
    + repeat split; try done; intuition congruence.
    + repeat split; try done; intuition congruence.
  - rewrite (Hnojob eq_refl) in *.
    destruct ev; simpl in Hch, Hj; try done.
    + (* cancel *)
      destruct Hch as (_ & [[Hfrom ->]|[Hfrom ->]]).
      * right. unfold expected in Hexp.
        repeat split; try done; try (intros [?|?]; congruence);
          destruct Hfrom as [Hs|Hs]; rewrite ?Hs; rewrite Hs in Hexp; done.
      * left. repeat split; try done.
        destruct Hfrom as [Hs|[Hs|[Hs|Hs]]]; by rewrite Hs.
    + (* pulse *)
      right. destruct Hch as (Hs & Hch). unfold expected in Hexp.
      rewrite Hs in Hexp.
      repeat split; try done; rewrite ?Hs; try done; intuition congruence.
Qed.

Lemma jobs_inv_effect e ev d d' :
  dependable e -> effect e ev d d' -> jobs_inv [] d -> jobs_inv [] d'.
Proof.
  intros Hdep
    [_ Ht Hp Hdb _
    |rq t wt -> Hdup Hs _ _ _ Hnd
    |rid t -> Hl Hterm Ht Hp Hdb _
    |id0 t rest r Hl Hdel Hm Ht Hp Hdb _ Hact Hch Hptr] Hinv.
  - intros id. rewrite Ht, Hp. apply Hinv.
  - (* admission *)
    eapply (started_jobs_inv e _ t d d' _ [] []); try done.
    + unfold is_duplicate_task in Hdup. specialize (Hinv (req_repo_id rq)).
      destruct (tasks d !! req_repo_id rq) as [t0|]; [|done].
      destruct Hinv as (_ & _ & Hexp).
      apply expected_short in Hexp as [?|(j & _ & _ & Hnt)]; [done|].
      by rewrite Hnt in Hdup.
    + apply not_elem_of_nil.
  - (* removal *)
    intros id. rewrite Ht, Hp.
    pose proof (Hinv rid) as Hrid. rewrite Hl in Hrid.
    destruct Hrid as (_ & _ & Hexp).
    destruct (decide (rid = id)) as [<-|Hne].
    + rewrite lookup_delete_eq.
      apply expected_short in Hexp as [->|(j & _ & _ & Hnt)]; [done|congruence].
    + rewrite lookup_delete_ne by done. apply Hinv.
  - (* one transition *)
    pose proof (Hinv id0) as Hid0. rewrite Hl in Hid0.
    destruct Hid0 as (_ & Hid & Hexp).
    pose proof (move_cases e ev d id0 t r.1 rest Hexp Hdel Hact Hch) as Hcase.
    unfold moved in Hm. simpl in Hm.
    destruct Hm as (_ & _ & Hid' & Ha' & _ & Htr' & Hp' & Hdb').
    assert (∀ r0, event_repo e ev = Some r0 -> SeafRepo.id r0 = repo_id r.1)
      as Hids.
    { intros r0 Hr0. rewrite Hid', Hid.
      destruct ev; simpl in Hr0, Hact; try done.
      destruct Hact as [_ <-]. by apply Hdep. }
    intros id. rewrite Ht, Hp, Hp', jobs_for_app, entry_jobs_for by done.
    rewrite Hid', Hid.
    destruct (decide (id0 = id)) as [<-|Hne].
    2:{ rewrite lookup_insert_ne, app_nil_r by done.
        destruct (delivered_jobs_for ev (pending d) rest id0 id Hdel Hact)
          as (Hsame & _). rewrite Hsame by done. apply Hinv. }
    rewrite lookup_insert_eq. split; [apply not_elem_of_nil|]. split; [congruence|].
    destruct Hcase as [(Hcp & -> & Hrun & Hfrom)
                      |(Hncp & Hni & Hnil & Hrun & Hrepo)].
    + (* cancellation of running work *)
      unfold entry_jobs. rewrite Hcp, app_nil_r.
      unfold expected in *. rewrite Hcp, Hid', Ha'.
      destruct Hfrom as [Hs|[Hs|[Hs|Hs]]]; rewrite Hs in Hexp; auto.
    + rewrite Hnil. simpl.
      apply expected_entry; try done. intros Hst.
      destruct (Hrepo Hst) as [r0 Hr0]. exists r0. split; [done|].
      by apply Hids.
Qed.

Lemma jobs_inv_restart e row d d' todo :
  dependable e ->
  restart_task e row d = Ret d' ->
  NoDup (col_repo_id row :: todo) ->
  jobs_inv (col_repo_id row :: todo) d ->
  jobs_inv todo d'.
Proof.
  intros Hdep Hr Hnd Hinv. apply NoDup_cons in Hnd as [Hnin _].
  destruct (restart_task_post e row d d' Hr) as (_ & t & Hs & _).
  pose proof (Hinv (col_repo_id row)) as Hrid.
  destruct (tasks d !! col_repo_id row) as [t0|].
  { destruct Hrid as (Hno & _). destruct Hno. apply list_elem_of_here. }
  eapply (started_jobs_inv e _ t d _ (db d)); try done.
  intros id Hin. by apply list_elem_of_further.
Qed.

Lemma jobs_inv_restart_rows e rows d d' :
  dependable e ->
  restart_rows e rows d = Ret d' ->
  NoDup (col_repo_id <$> rows) ->
  jobs_inv (col_repo_id <$> rows) d ->
  jobs_inv [] d'.
Proof.
  intros Hdep. revert d.
  induction rows as [|row rows IH]; intros d Hr Hnd Hinv; simpl in Hr.
  { by simplify_eq. }
  destruct (restart_task e row d) as [d1|] eqn:Hrow; [|done].
  apply (IH _ Hr); [by apply NoDup_cons in Hnd as [_ ?]|].
  by eapply jobs_inv_restart.
Qed.

Lemma jobs_inv_init e rows d :
  dependable e -> distinct_rows rows ->
  seaf_clone_manager_init e (seaf_clone_manager_new rows) = Ret (0, d) ->
  jobs_inv [] d.
Proof.
  intros Hdep Hnd H. apply init_restart in H.
  by eapply jobs_inv_restart_rows.
Qed.

Lemma jobs_inv_dispatch e ev d d' :
  dependable e ->
  dispatch e ev d = Some (Ret d') -> jobs_inv [] d -> jobs_inv [] d'.
Proof.
  intros Hdep Hd Hinv.
  assert (ev = EvPulse ∨ ev ≠ EvPulse) as [->|Hnp]
    by (destruct ev; (by left) || (by right)).
  - simpl in Hd. simplify_eq. rewrite pulse_fold.
    generalize (map_to_list (tasks d)).*1. intros ks. revert d Hinv.
    induction ks as [|k ks IH]; intros d Hinv; [done|]. simpl. apply IH.
    eapply jobs_inv_effect; [done|apply pulse_one_effect|done].
  - eapply jobs_inv_effect; [done|by apply dispatch_effect|done].
Qed.

Lemma jobs_inv_reachable d :
  reachable dependable distinct_rows d -> jobs_inv [] d.
Proof.
  induction 1 as [e rows d He Hrows Hinit|e ev d d' He _ IH Hd].
  - by eapply jobs_inv_init.
  - by eapply jobs_inv_dispatch.
Qed.

(** ** C2: the durable table *)

Lemma string_length_app (a b : string) :
  String.length (a +:+ b) = (String.length a + String.length b)%nat.
Proof. by rewrite <- !list_ascii_length, list_ascii_app, length_app. Qed.

Lemma quote_free_app (a b : string) :
  quote_free (a +:+ b) = quote_free a && quote_free b.
Proof. unfold quote_free. by rewrite list_ascii_app, forallb_app. Qed.

Lemma plain_delete (rid : string) :
  plain_id rid -> plain_sql (SqlDelete rid) = true.
Proof.
  intros [Hq Hlen]. unfold plain_sql, delete_text. rewrite Hq. simpl.
  apply Nat.leb_le. rewrite !string_length_app. simpl. lia.
Qed.

Lemma has_row_app id rows rows' :
  has_row id (rows ++ rows') <-> has_row id rows ∨ has_row id rows'.
Proof. unfold has_row. by rewrite fmap_app, elem_of_app. Qed.

Lemma has_row_filter id rid rows :
  has_row id (filter (λ r, col_repo_id r ≠ rid) rows)
  <-> has_row id rows ∧ id ≠ rid.
Proof.
  unfold has_row. rewrite !list_elem_of_fmap. split.
  - intros (r & -> & Hr). apply list_elem_of_filter in Hr as [? ?]. eauto.
  - intros [(r & -> & Hr) ?]. exists r. split; [done|].
    by apply list_elem_of_filter.
Qed.

Lemma has_row_db_after e id rid s rows :
  dependable e -> plain_id rid ->
  has_row id (db_after e rid s rows)
  <-> has_row id rows ∧ (is_terminal s = true -> id ≠ rid).
Proof.
  intros [Hrel _] Hplain. unfold db_after, sql_result.
  rewrite Hrel, (plain_delete rid Hplain).
  destruct (is_terminal s).
  - simpl. rewrite has_row_filter. split; intros [? ?]; split; auto.
  - split; [intros ?; by split|by intros [? _]].
Qed.

Lemma started_rows_inv e rid t d d' rows0 todo todo' :
  dependable e -> plain_id rid ->
  started e rid t d d' rows0 ->
  rows_inv todo d ->
  rid ∉ todo' ->
  has_row rid rows0 ->
  (∀ id, id ≠ rid ->
     (has_row id rows0 <-> has_row id (db d)) ∧ (id ∈ todo' <-> id ∈ todo)) ->
  rows_inv todo' d'.
Proof.
  intros Hdep Hplain Hs Hinv Hnt Hrow Hother.
  unfold started in Hs.
  destruct Hs as (Hid & _ & _ & Ht & _ & _ & _ & Hdb & _).
  intros id. rewrite Ht, Hdb.
  destruct (decide (rid = id)) as [<-|Hne].
  - rewrite lookup_insert_eq. split; [done|].
    rewrite has_row_db_after by done.
    destruct (is_terminal (state t)); intuition (try congruence; auto).
  - rewrite lookup_insert_ne by done.
    destruct (Hother id (not_eq_sym Hne)) as [Hr Hu].
    specialize (Hinv id). destruct (tasks d !! id) as [t0|].
    + destruct Hinv as (Hp0 & Hrow0). split; [done|].
      rewrite has_row_db_after by done.
      rewrite <- Hrow0, <- Hr. intuition (try congruence; auto).
    + rewrite has_row_db_after by done.
      rewrite Hu, <- Hinv, <- Hr. intuition (try congruence; auto).
Qed.

Lemma quote_free_strip_tail (worktree wt : string) :
  strip_tail worktree = Some wt -> quote_free worktree = true ->
  quote_free wt = true.
Proof.
  unfold strip_tail. intros H Hq.
  pose proof (strip_tail_rev_spec (rev (String.list_ascii_of_string worktree)))
    as Hspec.
  destruct (strip_tail_rev _) as [r'|]; [|done]. simpl in H. simplify_eq.
  destruct Hspec as (seps & c & r'' & Hr & -> & _).
  unfold quote_free in *.
  rewrite String.list_ascii_of_string_of_list_ascii.
  apply (f_equal (@rev ascii)) in Hr. rewrite rev_involutive, rev_app_distr in Hr.
  rewrite Hr, forallb_app in Hq. by apply andb_true_iff in Hq as [? _].
Qed.

(** The row an admission writes. *)
Lemma admitted_row e rq wt a (rows : list Row) :
  plain_request rq ->
  strip_tail (req_worktree_in rq) = Some wt ->
  String.length (req_repo_id rq) = 36%nat ->
  terminated 41 (req_peer_id rq) = true ->
  sql_result e
    (SqlReplace
       (row_of_task
          (clone_task_new a (req_repo_id rq) (req_peer_id rq)
             (Some (req_repo_name rq)) (req_token rq) wt (req_passwd rq)
             (req_peer_addr rq) (req_peer_port rq) (req_email rq))))
    rows
  = (rows ++ [mkRow (req_repo_id rq) (req_repo_name rq) (req_token rq)
                (req_peer_id rq) wt (req_passwd rq) (req_peer_addr rq)
                (req_peer_port rq) (req_email rq)])%list.
Proof.
  intros (H1 & H2 & H3 & H4 & H5 & H6 & H7 & H8 & H9) Hwt Hlen Hpeer.
  rewrite (clone_task_new_fits _ _ _ _ _ _ _ _ _ _ (terminated_36 _ Hlen) Hpeer).
  unfold sql_result, row_of_task, plain_sql, plain_row. simpl.
  rewrite H1, H2, H3, H4, H7, H8, H9, (quote_free_strip_tail _ _ Hwt H6).
  simpl. destruct (req_passwd rq); [by rewrite H5|done].
Qed.

Lemma rows_inv_effect e ev d d' :
  dependable e -> plain_event ev -> effect e ev d d' ->
  jobs_inv [] d -> rows_inv [] d -> rows_inv [] d'.
Proof.
  intros Hdep Hplain
    [_ Ht Hp Hdb _
    |rq t wt -> Hdup Hs Hwt Hlen Hpeer Hnd
    |rid t -> Hl Hterm Ht Hp Hdb _
    |id0 t rest r Hl Hdel Hm Ht Hp Hdb _ Hact Hch Hptr] Hjobs Hinv.
  - intros id. rewrite Ht, Hdb. apply Hinv.
  - (* admission *)
    simpl in Hplain. rewrite (admitted_row e rq wt) in Hs by done.
    eapply (started_rows_inv e _ t d d' _ [] []); try done.
    + destruct Hplain as (Hq & _). split; [done|lia].
    + apply not_elem_of_nil.
    + apply has_row_app. right. unfold has_row. simpl.
      apply list_elem_of_here.
    + intros id Hne. split; [|done]. rewrite has_row_app. split; [|auto].
      intros [?|Hin]; [done|]. unfold has_row in Hin. simpl in Hin.
      apply list_elem_of_singleton in Hin. done.
  - (* removal *)
    intros id. rewrite Ht, Hdb.
    pose proof (Hinv rid) as Hrid. rewrite Hl in Hrid.
    destruct Hrid as (_ & Hrow).
    destruct (decide (rid = id)) as [<-|Hne].
    + rewrite lookup_delete_eq. rewrite Hrow, Hterm. split; [done|].
      intros Hin. by apply elem_of_nil in Hin.
    + rewrite lookup_delete_ne by done. apply Hinv.
  - (* one transition *)
    pose proof (Hjobs id0) as Hj0. rewrite Hl in Hj0.
    destruct Hj0 as (_ & Hid & Hexp).
    pose proof (Hinv id0) as Hid0. rewrite Hl in Hid0.
    destruct Hid0 as (Hp0 & Hrow).
    pose proof (move_cases e ev d id0 t r.1 rest Hexp Hdel Hact Hch) as Hcase.
    assert (is_terminal (state r.1) = false -> is_terminal (state t) = false)
      as Hrun.
    { destruct Hcase as [(_ & _ & ? & _)|(_ & _ & _ & ? & _)]; auto. }
    unfold moved in Hm. simpl in Hm.
    destruct Hm as (_ & _ & _ & _ & _ & _ & _ & Hdb').
    intros id. rewrite Ht, Hdb, Hdb', Hid.
    destruct (decide (id0 = id)) as [<-|Hne].
    + rewrite lookup_insert_eq. split; [done|].
      rewrite has_row_db_after by done. rewrite Hrow.
      destruct (is_terminal (state r.1)).
      * split; [by intros [_ Hne]; destruct (Hne eq_refl)|done].
      * split; [done|]. intros _. split; [by apply Hrun|done].
    + rewrite lookup_insert_ne by done.
      specialize (Hinv id). destruct (tasks d !! id) as [t0|].
      * destruct Hinv as (? & Hrow0). split; [done|].
        rewrite has_row_db_after by done. rewrite <- Hrow0.
        split; [by intros [? _]|]. intros ?. split; [done|]. congruence.
      * rewrite has_row_db_after by done. rewrite <- Hinv.
        split; [by intros [? _]|]. intros ?. split; [done|]. congruence.
Qed.

Lemma rows_inv_restart e row d d' todo :
  dependable e ->
  restart_task e row d = Ret d' ->
  NoDup (col_repo_id row :: todo) ->
  quote_free (col_repo_id row) = true ->
  jobs_inv (col_repo_id row :: todo) d ->
  rows_inv (col_repo_id row :: todo) d ->
  rows_inv todo d'.
Proof.
  intros Hdep Hr Hnd Hq Hjobs Hinv. apply NoDup_cons in Hnd as [Hnin _].
  destruct (restart_task_post e row d d' Hr) as (Hlen & t & Hs & _).
  pose proof (Hjobs (col_repo_id row)) as Hj. pose proof (Hinv (col_repo_id row)) as Hrid.
  destruct (tasks d !! col_repo_id row) as [t0|].
  { destruct Hj as (Hno & _). destruct Hno. apply list_elem_of_here. }
  eapply (started_rows_inv e _ t d _ (db d)); try done.
  - split; [done|]. unfold terminated in Hlen. apply Nat.ltb_lt in Hlen. lia.
  - apply Hrid. apply list_elem_of_here.
  - intros id Hne. split; [done|]. rewrite elem_of_cons. split; [auto|].
    by intros [?|?].
Qed.

Lemma rows_inv_restart_rows e rows d d' :
  dependable e ->
  restart_rows e rows d = Ret d' ->
  NoDup (col_repo_id <$> rows) ->
  (∀ row, row ∈ rows -> quote_free (col_repo_id row) = true) ->
  jobs_inv (col_repo_id <$> rows) d ->
  rows_inv (col_repo_id <$> rows) d ->
  rows_inv [] d'.
Proof.
  intros Hdep. revert d.
  induction rows as [|row rows IH]; intros d Hr Hnd Hq Hjobs Hinv; simpl in Hr.
  { by simplify_eq. }
  destruct (restart_task e row d) as [d1|] eqn:Hrow; [|done].
  apply (IH _ Hr).
  - by apply NoDup_cons in Hnd as [_ ?].
  - intros row' Hin. apply Hq. by apply list_elem_of_further.
  - by eapply jobs_inv_restart.
  - eapply rows_inv_restart; try done. apply Hq. apply list_elem_of_here.
Qed.

Lemma reachable_by_reachable G I I' E d :
  (∀ rows, I rows -> I' rows) ->
  reachable_by G I E d -> reachable G I' d.
Proof.
  intros Hsub. induction 1 as [e rows d He Hrows Hinit|e ev d d' He _ _ IH Hd].
  - eapply reach_init; eauto.
  - eapply reach_step; eauto.
Qed.

Lemma rows_inv_reachable d :
  reachable_by dependable plain_rows plain_event d -> rows_inv [] d.
Proof.
  induction 1 as [e rows d He [Hnd Hq] Hinit|e ev d d' He Hev Hreach IH Hd].
  - apply init_restart in Hinit.
    eapply rows_inv_restart_rows; try done.
  - apply (reachable_by_reachable _ _ distinct_rows) in Hreach;
      [|by intros ? [? _]].
    apply jobs_inv_reachable in Hreach.
    assert (ev = EvPulse ∨ ev ≠ EvPulse) as [->|Hnp]
      by (destruct ev; (by left) || (by right)).
    + simpl in Hd. simplify_eq. rewrite pulse_fold.
      generalize (map_to_list (tasks d)).*1. intros ks.
      revert d Hreach IH.
      induction ks as [|k ks IHk]; intros d Hjobs Hinv; [done|]. simpl.
      apply IHk.
      * eapply jobs_inv_effect; [done|apply pulse_one_effect|done].
      * eapply rows_inv_effect; [done|done|apply pulse_one_effect|done|done].
    + eapply rows_inv_effect; [done|done|by apply dispatch_effect|done|done].
Qed.

(** C2, as the code has it: when the table starts with at most one row
    for a repository, SQLite executes every DELETE, the repository manager
    answers a request for an id with the repository of that id, and no
    value of a request and no repository id of the table has a quote
    character (the statements are built with [%s]), then after every
    operation a task in the registry has a row exactly when its state is
    not DONE, ERROR or CANCELED, and a repository without a task in the
    registry has no row.  A transition into DONE, ERROR or CANCELED issues
    the DELETE of the task's rows, which removes them unless SQLite refuses
    it (the refusal is ignored and leaves them); and an admission that
    returns the repository id has written the task's row, the task still in
    INIT, before the first transition. *)
Theorem rows_follow_tasks (d : daemon) (id : string) :
  reachable_by dependable plain_rows plain_event d ->
  match tasks d !! id with
  | Some t => has_row id (db d) <-> is_terminal (state t) = false
  | None => ¬ has_row id (db d)
  end
  ∧ (∀ e task s d0,
       is_terminal s = true -> plain_id (repo_id task) ->
       db (transition_state e task s d0).2
       = if sqlite_fails e (SqlDelete (repo_id task)) then db d0
         else filter (λ r, col_repo_id r ≠ repo_id task) (db d0))
  ∧ (∀ e task er d0,
       plain_id (repo_id task) ->
       db (transition_to_error e task er d0).2
       = if sqlite_fails e (SqlDelete (repo_id task)) then db d0
         else filter (λ r, col_repo_id r ≠ repo_id task) (db d0))
  ∧ (∀ e rq a d0 d1,
       plain_request rq ->
       seaf_clone_manager_add_task e rq d0 = Ret (a, d1) ->
       added_repo_id a ≠ None ->
       ∃ t wt,
         tasks d1 !! req_repo_id rq = Some t
         ∧ strip_tail (req_worktree_in rq) = Some wt
         ∧ db d1
           = db_after e (req_repo_id rq) (state t)
               (db d0 ++ [mkRow (req_repo_id rq) (req_repo_name rq)
                            (req_token rq) (req_peer_id rq) wt (req_passwd rq)
                            (req_peer_addr rq) (req_peer_port rq)
                            (req_email rq)])%list).
Proof.
  intros Hreach. split; [|split; [|split]].
  - pose proof (rows_inv_reachable d Hreach id) as Hinv.
    destruct (tasks d !! id) as [t|].
    + by destruct Hinv as (_ & ?).
    + rewrite Hinv. apply not_elem_of_nil.
  - intros e task s d0 Hterm Hplain.
    unfold transition_state, remove_task_from_db, sqlite_query_exec,
      is_terminal in *.
    rewrite Hterm.
    destruct (sqlite_fails e (SqlDelete (repo_id task))); [done|]. simpl.
    unfold sql_result. by rewrite (plain_delete _ Hplain).
  - intros e task er d0 Hplain.
    unfold transition_to_error, remove_task_from_db, sqlite_query_exec.
    destruct (sqlite_fails e (SqlDelete (repo_id task))); [done|]. simpl.
    unfold sql_result. by rewrite (plain_delete _ Hplain).
  - intros e rq a d0 d1 Hplain Hadd Hsome.
    apply add_task_post in Hadd
      as [(Hnone & _)|(t & wt & _ & _ & Hs & Hwt & Hlen & Hpeer & _)];
      [done|].
    rewrite (admitted_row e rq wt) in Hs by done.
    unfold started in Hs. destruct Hs as (_ & _ & _ & Ht & _ & _ & _ & Hdb & _).
    exists t, wt. rewrite Ht, lookup_insert_eq. done.
Qed.

Lemma quiet_env_dependable : dependable quiet_env.
Proof. split; [done|]. intros id r H. vm_compute in H. discriminate. Qed.

Lemma sample_request_plain wt name :
  quote_free wt = true -> quote_free name = true ->
  plain_request (sample_request wt name).
Proof. intros Hw Hn. unfold plain_request. simpl. by rewrite Hw, Hn. Qed.

Lemma rows_follow_tasks_witness :
  match tasks fetching_daemon !! sample_repo_id with
  | Some t =>
      has_row sample_repo_id (db fetching_daemon)
      <-> is_terminal (state t) = false
  | None => ¬ has_row sample_repo_id (db fetching_daemon)
  end.
Proof.
  apply (rows_follow_tasks fetching_daemon sample_repo_id).
  apply (by_step _ _ _ quiet_env (EvAddTask (sample_request "/tmp/foo" "foo"))
           fresh_daemon);
    [apply quiet_env_dependable|by apply sample_request_plain| |reflexivity].
  apply (by_init _ _ _ quiet_env []);
    [apply quiet_env_dependable| |reflexivity].
  split; [apply NoDup_nil_2|]. by intros row ?%elem_of_nil.
Defined.

(** A DELETE that SQLite refuses leaves the row of a task that has gone to
    CANCELED: the run has plain values and a table that starts empty, and
    only the DELETE fails. *)
Lemma failed_delete_leaves_row :
  reachable_by (λ _, True) plain_rows plain_event stale_row_daemon
  ∧ ∃ t, tasks stale_row_daemon !! sample_repo_id = Some t
         ∧ state t = CLONE_STATE_CANCELED
         ∧ is_terminal (state t) = true
         ∧ has_row sample_repo_id (db stale_row_daemon).
Proof.
  split.
  - eapply (by_step _ _ _ no_delete_env (EvCancelTask sample_repo_id));
      [done|done| |reflexivity].
    eapply (by_step _ _ _ no_delete_env
              (EvAddTask (sample_request "/tmp/foo" "foo")) fresh_daemon);
      [done|by apply sample_request_plain| |reflexivity].
    apply (by_init _ _ _ quiet_env []); [done| |reflexivity].
    split; [apply NoDup_nil_2|]. by intros row ?%elem_of_nil.
  - eexists. split; [reflexivity|]. split; [reflexivity|].
    split; [reflexivity|]. unfold has_row.
    replace (db stale_row_daemon)
      with [row_of_task (sample_task CLONE_STATE_INIT None)] by reflexivity.
    simpl. apply list_elem_of_here.
Qed.

(** ** C1: what follows a cancellation *)














(** The sample runs are runs. *)
Lemma sample_env_dependable repo verify index_rc entries peer tx lstat access :
  dependable
    (sample_env repo verify index_rc entries peer tx (λ _, false) lstat access).
Proof.
  split; [done|]. intros id r H. simpl in H.
  destruct repo as [r0|]; [|done]. case_bool_decide; by simplify_eq.
Qed.

Lemma waiting_env_dependable : dependable waiting_env.
Proof. apply sample_env_dependable. Qed.

Lemma fresh_daemon_reachable : reachable dependable distinct_rows fresh_daemon.
Proof.
  apply (reach_init _ _ quiet_env []);
    [apply quiet_env_dependable|apply NoDup_nil_2|reflexivity].
Qed.


Lemma fetching_daemon_reachable :
  reachable dependable distinct_rows fetching_daemon.
Proof.
  apply (reach_step _ _ quiet_env (EvAddTask (sample_request "/tmp/foo" "foo"))
           fresh_daemon);
    [apply quiet_env_dependable|apply fresh_daemon_reachable|reflexivity].
Qed.

Lemma connect_daemon_reachable :
  reachable dependable distinct_rows connect_daemon.
Proof.
  apply (reach_step _ _ waiting_env (EvAddTask (sample_request "/tmp/foo" "foo"))
           fresh_daemon);
    [apply waiting_env_dependable|apply fresh_daemon_reachable|reflexivity].
Qed.

Lemma canceled_daemon_reachable :
  reachable dependable distinct_rows canceled_daemon.
Proof.
  apply (reach_step _ _ waiting_env (EvCancelTask sample_repo_id) connect_daemon);
    [apply waiting_env_dependable|apply connect_daemon_reachable|reflexivity].
Qed.





(** ** Further properties of the code *)

(** *** State and error names *)

Lemma state_str_NoDup : NoDup state_str.
Proof. apply (bool_decide_unpack _). by vm_compute. Qed.

(** X1: [clone_task_state_to_str] and [clone_task_error_to_str] return a
    name exactly for the codes inside the enumeration, and NULL for a
    negative code or one past the last state or error. *)
Theorem state_and_error_names (z : Z) :
  (is_Some (clone_task_state_to_str z) <-> 0 <= z < N_CLONE_STATES)
  ∧ (is_Some (clone_task_error_to_str z) <-> 0 <= z < N_CLONE_ERRORS).
Proof.
  unfold clone_task_state_to_str, clone_task_error_to_str, N_CLONE_STATES,
    N_CLONE_ERRORS.
  split.
  - destruct (z <? 0) eqn:Hlo; [|destruct (10 <=? z) eqn:Hhi]; simpl.
    + split; [by intros [? ?]|lia].
    + split; [by intros [? ?]|lia].
    + rewrite lookup_lt_is_Some. simpl. lia.
  - destruct (z <? 0) eqn:Hlo; [|destruct (8 <=? z) eqn:Hhi]; simpl.
    + split; [by intros [? ?]|lia].
    + split; [by intros [? ?]|lia].
    + rewrite lookup_lt_is_Some. simpl. lia.
Qed.

(** X2: the names of the states are pairwise distinct: two codes with the
    same name are the same code, and every state of the enumeration has a
    name. *)
Theorem state_names_distinct (a b : Z) (s : string) :
  clone_task_state_to_str a = Some s ->
  clone_task_state_to_str b = Some s ->
  a = b ∧ ∃ st, state_code st = a.
Proof.
  unfold clone_task_state_to_str, N_CLONE_STATES. intros Ha Hb.
  destruct (a <? 0) eqn:Hal; [done|]. destruct (10 <=? a) eqn:Hah; [done|].
  destruct (b <? 0) eqn:Hbl; [done|]. destruct (10 <=? b) eqn:Hbh; [done|].
  simpl in Ha, Hb.
  pose proof (NoDup_lookup _ _ _ _ state_str_NoDup Ha Hb) as Heq.
  split; [lia|].
  assert (a = 0 ∨ a = 1 ∨ a = 2 ∨ a = 3 ∨ a = 4 ∨ a = 5 ∨ a = 6 ∨ a = 7
          ∨ a = 8 ∨ a = 9) as Hcases by lia.
  destruct Hcases as [->|[->|[->|[->|[->|[->|[->|[->|[->| ->]]]]]]]]].
  - by exists CLONE_STATE_INIT.
  - by exists CLONE_STATE_CONNECT.
  - by exists CLONE_STATE_INDEX.
  - by exists CLONE_STATE_FETCH.
  - by exists CLONE_STATE_CHECKOUT.
  - by exists CLONE_STATE_MERGE.
  - by exists CLONE_STATE_DONE.
  - by exists CLONE_STATE_ERROR.
  - by exists CLONE_STATE_CANCEL_PENDING.
  - by exists CLONE_STATE_CANCELED.
Qed.

Lemma state_names_distinct_witness :
  3 = 3 ∧ ∃ st, state_code st = 3.
Proof. apply (state_names_distinct 3 3 "fetch"); reflexivity. Defined.

(** *** Removing and cancelling *)

(** X3: [seaf_clone_manager_remove_task] returns 0 or -1; it returns 0
    exactly when the registry has a task under the id in DONE, ERROR or
    CANCELED; a refused removal changes nothing; a removal that succeeds
    takes the task out of the registry, leaves every other task, the table
    and the pending work as they are, and asks the transfer manager to
    remove the transfer exactly when the task has a transfer id. *)
Theorem remove_task_spec (e : Env) (rid : string) (d : daemon) :
  let r := seaf_clone_manager_remove_task e rid d in
  (r.1 = 0 ∨ r.1 = -1)
  ∧ (r.1 = 0 <-> ∃ t, tasks d !! rid = Some t ∧ is_terminal (state t) = true)
  ∧ (r.1 = -1 -> r.2 = d)
  ∧ (r.1 = 0 ->
     seaf_clone_manager_get_task r.2 rid = None
     ∧ (∀ id, id ≠ rid ->
          seaf_clone_manager_get_task r.2 id = seaf_clone_manager_get_task d id)
     ∧ db r.2 = db d ∧ pending r.2 = pending d
     ∧ ∃ t, tasks d !! rid = Some t
          ∧ calls r.2
            = (calls d ++ match tx_id t with
                          | Some tx => [RemoveTransfer tx]
                          | None => []
                          end)%list).
Proof.
  unfold seaf_clone_manager_remove_task, seaf_clone_manager_get_task.
  destruct (tasks d !! rid) as [t|] eqn:Hl.
  - destruct (is_terminal (state t)) eqn:Hterm; simpl.
    + split; [by left|]. split; [split; [by eauto|done]|].
      split; [done|]. intros _.
      split; [by destruct (tx_id t); simpl; apply lookup_delete_eq|].
      split; [by intros id Hne; destruct (tx_id t); simpl;
                apply lookup_delete_ne|].
      split; [by destruct (tx_id t)|]. split; [by destruct (tx_id t)|].
      exists t. split; [done|].
      destruct (tx_id t); simpl; [done|by rewrite app_nil_r].
    + split; [by right|]. split; [|done].
      split; [done|]. intros (t' & ? & ?). simplify_eq. congruence.
  - simpl. split; [by right|]. split; [|done].
    split; [done|]. by intros (t' & ? & ?).
Qed.

(** X4: a second [seaf_clone_manager_cancel_task] for the same id, after
    one that returned 0, changes nothing: the task is in CANCEL_PENDING
    (the call is a no-op) or in CANCELED (the call is refused). *)
Theorem cancel_task_again (e e' : Env) (rid : string) (d : daemon) :
  let r := seaf_clone_manager_cancel_task e rid d in
  r.1 = 0 ->
  (seaf_clone_manager_cancel_task e' rid r.2).2 = r.2
  ∧ ∃ t, tasks r.2 !! rid = Some t
       ∧ (state t = CLONE_STATE_CANCEL_PENDING ∨ state t = CLONE_STATE_CANCELED).
Proof.
  unfold seaf_clone_manager_cancel_task.
  destruct (tasks d !! rid) as [t|] eqn:Hl; [|done].
  destruct (state t) eqn:Hst; simpl; try done; intros _;
    rewrite ?lookup_insert_eq, ?Hl, ?Hst; simpl; eauto 6.
Qed.

Lemma cancel_task_again_witness :
  let r := seaf_clone_manager_cancel_task quiet_env sample_repo_id
             fetching_daemon in
  (seaf_clone_manager_cancel_task quiet_env sample_repo_id r.2).2 = r.2
  ∧ ∃ t, tasks r.2 !! sample_repo_id = Some t
       ∧ (state t = CLONE_STATE_CANCEL_PENDING ∨ state t = CLONE_STATE_CANCELED).
Proof.
  apply (cancel_task_again quiet_env quiet_env sample_repo_id fetching_daemon).
  reflexivity.
Defined.

(** *** Fast-forward check *)

Lemma traverse_with_spec (commits : list SeafCommit.t) (aux : CompareAux) :
  traverse_with commits aux
  = (mkCompareAux
       (fast_forward aux
        || existsb (λ c, bool_decide (SeafCommit.root_id c = aux_root_id aux))
             commits)
       (aux_root_id aux), true).
Proof.
  revert aux. induction commits as [|c cs IH]; intros [ff root]; simpl.
  - by rewrite orb_false_r.
  - unfold compare_root. simpl. destruct ff; simpl.
    + by rewrite IH.
    + case_bool_decide; rewrite IH; simpl; [done|done].
Qed.

(** X5: [check_fast_forward] answers TRUE exactly when the traversal of
    the history of [head] succeeds and one of the commits it visits has the
    root [root_id]; [compare_root] never ends the traversal itself. *)
Theorem check_fast_forward_spec (e : Env) (head : SeafCommit.t) (root : string) :
  let r := seaf_commit_manager_traverse_commit_tree e (SeafCommit.commit_id head) in
  (check_fast_forward e head root = true
   <-> r.2 = true ∧ ∃ c, c ∈ r.1 ∧ SeafCommit.root_id c = root)
  ∧ ∀ commits aux, (traverse_with commits aux).2 = true.
Proof.
  split; [|by intros; rewrite traverse_with_spec].
  unfold check_fast_forward.
  destruct (seaf_commit_manager_traverse_commit_tree e _) as [commits ok].
  rewrite traverse_with_spec. simpl. rewrite andb_true_r.
  destruct ok; simpl.
  - rewrite existsb_exists. split.
    + intros (c & Hin & Hc). split; [done|]. exists c.
      split; [by apply list_elem_of_In|by apply bool_decide_eq_true in Hc].
    + intros (_ & c & Hin & Hc). exists c.
      split; [by apply list_elem_of_In|by apply bool_decide_eq_true].
  - split; [done|by intros [? _]].
Qed.

(** *** Placing the worktree *)

(** X6: the loop at the head of [make_worktree] cuts the trailing slashes
    and backslashes and nothing else: the path it keeps, followed by the
    separators cut, is the path given, and the kept path ends in a byte that
    is not a separator.  It runs off the start of the buffer exactly when
    the path is empty or made of separators only. *)
Theorem strip_tail_spec (worktree : string) :
  match strip_tail worktree with
  | Some wt =>
      ∃ seps, worktree = wt +:+ seps
              ∧ Forall (λ x, is_wt_sep x = true) (String.list_ascii_of_string seps)
              ∧ ∃ c, last (String.list_ascii_of_string wt) = Some c
                     ∧ is_wt_sep c = false
  | None =>
      Forall (λ x, is_wt_sep x = true) (String.list_ascii_of_string worktree)
  end.
Proof.
  unfold strip_tail.
  pose proof (strip_tail_rev_spec (rev (String.list_ascii_of_string worktree)))
    as H.
  destruct (strip_tail_rev _) as [r'|]; simpl.
  - destruct H as (seps & c & r'' & Hr & -> & Hc & Hseps).
    exists (String.string_of_list_ascii (rev seps)).
    rewrite !String.list_ascii_of_string_of_list_ascii.
    split; [|split].
    + rewrite <- string_of_list_ascii_app, <- rev_app_distr, <- Hr, rev_involutive.
      by rewrite String.string_of_list_ascii_of_string.
    + by apply Forall_rev.
    + exists c. split; [|done]. simpl. by rewrite last_snoc.
  - apply Forall_rev in H. by rewrite rev_involutive in H.
Qed.

(** X7: [try_worktree] returns the numbered path of the first number,
    counted from 1, for which nothing exists: when [worktree-k] is free and
    every [worktree-j] with [j < k] is taken, the result is [worktree-k].
    The loop always returns (within [2 ^ 32 - 2] turns). *)
Theorem try_worktree_first_free (e : Env) (wt : string) (k : Z) :
  1 <= k < UINT_MAX ->
  g_access e (numbered wt k) < 0 ->
  (∀ j, 1 <= j < k -> 0 <= g_access e (numbered wt j)) ->
  try_worktree e wt = Some (numbered wt k)
  ∧ ∃ r, loop_pow2 32 (try_worktree_body e wt) 1 = inr r.
Proof.
  intros Hk Hfree Htaken. split; [|apply try_worktree_returns].
  pose proof (try_worktree_spec e wt) as H.
  destruct (try_worktree e wt) as [p|].
  - destruct H as (k' & Hk' & -> & Hfree' & Htaken').
    assert (k' = k) as ->; [|done].
    destruct (Z.lt_trichotomy k' k) as [Hlt|[->|Hgt]]; [|done|].
    + specialize (Htaken k'). lia.
    + specialize (Htaken' k). lia.
  - specialize (H k). lia.
Qed.

Lemma try_worktree_first_free_witness :
  try_worktree file_in_the_way_env "/tmp/foo" = Some (numbered "/tmp/foo" 1)
  ∧ ∃ r, loop_pow2 32 (try_worktree_body file_in_the_way_env "/tmp/foo") 1
         = inr r.
Proof.
  apply (try_worktree_first_free file_in_the_way_env "/tmp/foo" 1).
  - unfold UINT_MAX. lia.
  - vm_compute. reflexivity.
  - intros j Hj. lia.
Defined.

(** X8: [is_worktree_of_repo] answers TRUE exactly when a repository has
    the path as its worktree, or a task that is not in DONE, ERROR or
    CANCELED has: the worktree of a finished task is free again. *)
Theorem is_worktree_of_repo_spec (e : Env) (d : daemon) (path : string) :
  is_worktree_of_repo e d path = true
  <-> (∃ repo, repo ∈ seaf_repo_manager_get_repo_list e
               ∧ SeafRepo.worktree repo = Some path)
      ∨ (∃ id t, tasks d !! id = Some t ∧ is_terminal (state t) = false
                 ∧ worktree t = path).
Proof.
  unfold is_worktree_of_repo. rewrite orb_true_iff, !existsb_exists.
  split.
  - intros [(repo & Hin & Hw)|([id t] & Hin & Hw)].
    + left. exists repo. split; [by apply list_elem_of_In|].
      by apply bool_decide_eq_true in Hw.
    + right. exists id, t. apply list_elem_of_In, elem_of_map_to_list in Hin.
      apply andb_true_iff in Hw as [Hterm Hw]. simpl in *.
      split; [done|]. split; [by apply negb_true_iff|].
      by apply bool_decide_eq_true in Hw.
  - intros [(repo & Hin & Hw)|(id & t & Hl & Hterm & Hw)].
    + left. exists repo. split; [by apply list_elem_of_In|].
      by apply bool_decide_eq_true.
    + right. exists (id, t). split.
      * by apply list_elem_of_In, elem_of_map_to_list.
      * simpl. rewrite Hterm. simpl. by apply bool_decide_eq_true.
Qed.

(** X9: a [make_worktree] that is not a dry run never moves the clone to
    another place: a path it returns is the path asked for without its
    trailing separators, with no error set.  It changes neither the
    registry nor the table nor the pending work, creates a directory only
    where nothing exists, refuses with "Already in sync" exactly when the
    path is a directory that is the worktree of a repository or of a
    running task, and with "Invalid local directory" exactly when the path
    is not a directory or cannot be examined. *)
Theorem make_worktree_commit (e : Env) (worktree wt : string) (d : daemon) :
  strip_tail worktree = Some wt ->
  ∃ placed d',
    make_worktree e worktree false d = Ret (placed, d')
    ∧ tasks d' = tasks d ∧ db d' = db d ∧ pending d' = pending d
    ∧ (∀ p, placed_path placed = Some p -> p = wt ∧ placed_error placed = None)
    ∧ (calls d' = calls d
       ∨ (calls d' = (calls d ++ [Mkdir wt])%list ∧ g_lstat e wt = StatNoEnt))
    ∧ (placed_error placed = Some "Already in sync"
       <-> g_lstat e wt = StatMode true ∧ is_worktree_of_repo e d wt = true)
    ∧ (placed_error placed = Some "Invalid local directory"
       <-> g_lstat e wt = StatFail ∨ g_lstat e wt = StatMode false).
Proof.
  intros Hwt. unfold make_worktree, mk_dir. rewrite Hwt.
  destruct (g_lstat e wt) as [| |[|]] eqn:Hst; simpl;
    try destruct (g_mkdir_with_parents e wt <? 0);
    try destruct (is_worktree_of_repo e d wt);
    simpl; eexists _, _; (split; [reflexivity|]); simpl;
    intuition (try congruence; try discriminate; auto).
Qed.

Lemma make_worktree_commit_witness :
  ∃ placed d',
    make_worktree quiet_env "/tmp/foo//" false fresh_daemon = Ret (placed, d')
    ∧ tasks d' = tasks fresh_daemon ∧ db d' = db fresh_daemon
    ∧ pending d' = pending fresh_daemon
    ∧ (∀ p, placed_path placed = Some p ->
            p = "/tmp/foo" ∧ placed_error placed = None)
    ∧ (calls d' = calls fresh_daemon
       ∨ (calls d' = (calls fresh_daemon ++ [Mkdir "/tmp/foo"])%list
          ∧ g_lstat quiet_env "/tmp/foo" = StatNoEnt))
    ∧ (placed_error placed = Some "Already in sync"
       <-> g_lstat quiet_env "/tmp/foo" = StatMode true
           ∧ is_worktree_of_repo quiet_env fresh_daemon "/tmp/foo" = true)
    ∧ (placed_error placed = Some "Invalid local directory"
       <-> g_lstat quiet_env "/tmp/foo" = StatFail
           ∨ g_lstat quiet_env "/tmp/foo" = StatMode false).
Proof.
  apply (make_worktree_commit quiet_env "/tmp/foo//" "/tmp/foo" fresh_daemon).
  reflexivity.
Defined.

(** *** Admission *)

Lemma start_checkout_fields e repo task d :
  same_request task (start_checkout e repo task d).1.
Proof.
  unfold same_request. unfold_all.
  repeat (case_match; simpl; simplify_eq); done.
Qed.

Lemma start_connect_fields e task d :
  same_request task (start_connect_task_relay e task d).1.
Proof.
  unfold same_request. unfold_all.
  repeat (case_match; simpl; simplify_eq); done.
Qed.

Lemma start_index_or_transfer_fields e task d :
  same_request task (start_index_or_transfer e task d).1.2.
Proof.
  unfold same_request. unfold_all.
  repeat (case_match; simpl; simplify_eq); done.
Qed.

(** The message [start_index_or_transfer] leaves is the transfer
    manager's. *)
Lemma start_index_or_transfer_message e task d :
  (start_index_or_transfer e task d).1.1.2 = None
  ∨ (start_index_or_transfer e task d).1.1.2
    = add_download_error e (repo_id task) (peer_id task) "fetch_head" "master"
        (token task).
Proof.
  unfold start_index_or_transfer, add_transfer_task.
  repeat (case_match; simpl; simplify_eq); auto.
Qed.

(** The task [add_task] puts in the registry, and the message it leaves:
    none, unless the download was requested at once, and then the one of
    the transfer manager. *)
Lemma add_task_fields e rq d a d' :
  seaf_clone_manager_add_task e rq d = Ret (a, d') ->
  added_repo_id a ≠ None ->
  terminated 41 (req_peer_id rq) = true
  ∧ (added_error a = None
     ∨ (seaf_repo_manager_get_repo e (req_repo_id rq) = None
        ∧ added_error a
          = add_download_error e (req_repo_id rq) (req_peer_id rq)
              "fetch_head" "master" (req_token rq)))
  ∧ ∃ t wt,
      strip_tail (req_worktree_in rq) = Some wt
      ∧ tasks d' !! req_repo_id rq = Some t
      ∧ same_request
          (clone_task_new 0 (req_repo_id rq) (req_peer_id rq)
             (Some (req_repo_name rq)) (req_token rq) wt (req_passwd rq)
             (req_peer_addr rq) (req_peer_port rq) (req_email rq)) t.
Proof.
  unfold seaf_clone_manager_add_task. intros H Hid.
  destruct (Nat.eqb_spec (String.length (req_repo_id rq)) 36) as [Hlen|];
    [|done]. cbn [negb] in H.
  destruct (match seaf_repo_manager_get_repo e (req_repo_id rq) with
            | Some r => bool_decide (SeafRepo.head r ≠ None)
            | None => false
            end); [by simplify_eq|].
  destruct (is_duplicate_task d (req_repo_id rq)); [by simplify_eq|].
  destruct (negb _); [by simplify_eq|].
  destruct (make_worktree e (req_worktree_in rq) false d) as [[placed d1]|] eqn:Hmk;
    [|done].
  destruct (placed_path placed) as [wt|] eqn:Hpath; [|by simplify_eq].
  apply (make_worktree_path _ _ _ _ _ wt) in Hmk; [|done].
  destruct (terminated 41 (req_peer_id rq)) eqn:Hpeer; [|done].
  cbn [negb] in H.
  unfold alloc, save_task_to_db, sqlite_query_exec in H.
  rewrite clone_task_new_fits in H by auto using terminated_36.
  set (task := mkCloneTask _ _ _ _ _ _ _ _ _ _ _ _ _ _ _) in H.
  destruct (sqlite_fails e (SqlReplace (row_of_task task)));
    [by simpl in H; simplify_eq|].
  simpl in H. set (d3 := with_db _ _) in H.
  split; [done|].
  assert (∀ t1 d4 er, same_request task t1 ->
            Ret (mkAdded (Some (req_repo_id rq)) er, table_insert t1 d4)
            = Ret (a, d') ->
            added_error a = er
            ∧ ∃ t wt0, Some wt = Some wt0
                ∧ tasks d' !! req_repo_id rq = Some t
                ∧ same_request
                    (clone_task_new 0 (req_repo_id rq) (req_peer_id rq)
                       (Some (req_repo_name rq)) (req_token rq) wt0
                       (req_passwd rq) (req_peer_addr rq) (req_peer_port rq)
                       (req_email rq)) t) as Hfin.
  { intros t1 d4 er Hsame Heq. simplify_eq. split; [done|]. exists t1, wt.
    split; [done|]. unfold table_insert. simpl.
    rewrite clone_task_new_fits by auto using terminated_36.
    destruct Hsame as (Hr & ?). simpl in Hr. rewrite Hr, lookup_insert_eq.
    done. }
  rewrite Hmk.
  destruct (seaf_repo_manager_get_repo e (req_repo_id rq)) as [repo|].
  - pose proof (start_checkout_fields e repo task d3) as Hs.
    destruct (start_checkout e repo task d3) as [t1 d4].
    eapply Hfin in H as [-> ?]; [|done]. split; [by left|done].
  - destruct (negb (is_task_relay_connected e task)).
    + pose proof (start_connect_fields e task d3) as Hs.
      destruct (start_connect_task_relay e task d3) as [t1 d4].
      eapply Hfin in H as [-> ?]; [|done]. split; [by left|done].
    + pose proof (start_index_or_transfer_fields e task d3) as Hs.
      pose proof (start_index_or_transfer_message e task d3) as Hm.
      destruct (start_index_or_transfer e task d3) as [[[rc er] t1] d4].
      eapply Hfin in H as [-> ?]; [|done]. split; [|done].
      destruct Hm as [Hm|Hm]; [by left|by right].
Qed.

(** A refusal with a message happens before anything is done. *)
Lemma add_task_message e rq d a d' msg :
  seaf_clone_manager_add_task e rq d = Ret (a, d') ->
  added_repo_id a = None ->
  added_error a = Some msg ->
  d' = d
  ∧ (msg = "Repo already exists" ∨ msg = "Task is already in progress"
     ∨ msg = "Invalid local directory name" ∨ msg = "Invalid local directory"
     ∨ msg = "Already in sync").
Proof.
  intros H Hid Hmsg. revert H. unfold seaf_clone_manager_add_task.
  destruct (negb _); [done|].
  destruct (match seaf_repo_manager_get_repo e (req_repo_id rq) with
            | Some r => bool_decide (SeafRepo.head r ≠ None)
            | None => false
            end); [intros; simplify_eq; simpl in *; simplify_eq; auto|].
  destruct (is_duplicate_task d (req_repo_id rq));
    [intros; simplify_eq; simpl in *; simplify_eq; auto|].
  destruct (negb _); [intros; simplify_eq; simpl in *; simplify_eq; auto|].
  destruct (make_worktree e (req_worktree_in rq) false d) as [[placed d1]|] eqn:Hmk;
    [|done].
  destruct (placed_path placed) as [wt|] eqn:Hpath.
  - destruct (negb (terminated 41 (req_peer_id rq))); [done|].
    unfold alloc, save_task_to_db, sqlite_query_exec.
    destruct (sqlite_fails e _); simpl.
    + intros; simplify_eq; simpl in *; simplify_eq.
    + repeat case_match; intros; simplify_eq; simpl in *; simplify_eq.
  - intros; simplify_eq; simpl in *.
    eapply make_worktree_refusal in Hmk as (-> & _ & Hm); [|done].
    split; [done|]. destruct Hm as [->| ->]; auto.
Qed.

(** X10: an admission that is refused leaves no trace in the clone
    manager: when [seaf_clone_manager_add_task] returns NULL the registry,
    the table and the pending work are as before; when it returns NULL and
    has set an error message, the message is one of the five of the code
    and nothing at all has changed (no directory has been created).  An
    admission that returns an id returns the requested one; the only
    message it can leave is the one the transfer manager wrote when the
    download was requested, which happens only for a repository the
    repository manager does not know. *)
Theorem add_task_refused (e : Env) (rq : CloneRequest) (d d' : daemon) (a : Added) :
  seaf_clone_manager_add_task e rq d = Ret (a, d') ->
  (added_repo_id a = None ->
   tasks d' = tasks d ∧ db d' = db d ∧ pending d' = pending d)
  ∧ (∀ msg, added_repo_id a = None -> added_error a = Some msg ->
       d' = d
       ∧ (msg = "Repo already exists" ∨ msg = "Task is already in progress"
          ∨ msg = "Invalid local directory name"
          ∨ msg = "Invalid local directory" ∨ msg = "Already in sync"))
  ∧ (∀ id, added_repo_id a = Some id ->
       id = req_repo_id rq
       ∧ (added_error a = None
          ∨ (seaf_repo_manager_get_repo e (req_repo_id rq) = None
             ∧ added_error a
               = add_download_error e (req_repo_id rq) (req_peer_id rq)
                   "fetch_head" "master" (req_token rq)))).
Proof.
  intros H. split; [|split].
  - intros Hnone.
    apply add_task_post in H as [(_ & ? & ? & ? & _)|(t & wt & Hs & _)];
      [done|congruence].
  - intros msg Hnone Hmsg. by eapply add_task_message.
  - intros id Hid. split.
    + apply add_task_post in H as [(? & _)|(t & wt & Hs & _)]; congruence.
    + apply add_task_fields in H as (_ & ? & _); [done|by rewrite Hid].
Qed.

Lemma add_task_refused_witness :
  let rq := sample_request "/tmp/foo" "foo" in
  ∃ a d',
    seaf_clone_manager_add_task noisy_env rq fresh_daemon = Ret (a, d')
    ∧ added_repo_id a = Some sample_repo_id
    ∧ (added_error a = None
       ∨ (seaf_repo_manager_get_repo noisy_env (req_repo_id rq) = None
          ∧ added_error a = Some "peer not connected")).
Proof.
  intros rq.
  exists (mkAdded (Some sample_repo_id) (Some "peer not connected")).
  eexists. split; [vm_compute; reflexivity|]. split; [reflexivity|].
  eapply (add_task_refused noisy_env rq fresh_daemon).
  - vm_compute. reflexivity.
  - reflexivity.
Defined.

(** X11: the task of an admission that succeeds.  It is registered under
    the requested id and carries the fields of the request (the peer id
    whole when it fits the 41 bytes of [peer_id], that is, has at most 40
    characters); its worktree is the requested path without its trailing
    separators; when [seaf_clone_manager_add_task] returns it is in
    CONNECT, INDEX, FETCH, CHECKOUT, MERGE or ERROR, never still in INIT;
    and no other task of the registry is touched. *)
Theorem add_task_admitted (e : Env) (rq : CloneRequest) (d d' : daemon)
    (a : Added) (id : string) :
  (String.length (req_peer_id rq) <= 40)%nat ->
  seaf_clone_manager_add_task e rq d = Ret (a, d') ->
  added_repo_id a = Some id ->
  id = req_repo_id rq
  ∧ (∃ t wt,
       strip_tail (req_worktree_in rq) = Some wt
       ∧ seaf_clone_manager_get_task d' id = Some t
       ∧ repo_id t = id ∧ worktree t = wt
       ∧ peer_id t = req_peer_id rq ∧ repo_name t = Some (req_repo_name rq)
       ∧ token t = req_token rq ∧ passwd t = req_passwd rq
       ∧ peer_addr t = req_peer_addr rq ∧ peer_port t = req_peer_port rq
       ∧ email t = req_email rq
       ∧ state t ∈ [CLONE_STATE_CONNECT; CLONE_STATE_INDEX; CLONE_STATE_FETCH;
                    CLONE_STATE_CHECKOUT; CLONE_STATE_MERGE; CLONE_STATE_ERROR])
  ∧ (∀ id', id' ≠ id ->
       seaf_clone_manager_get_task d' id' = seaf_clone_manager_get_task d id').
Proof.
  intros Hfit H Hid. unfold seaf_clone_manager_get_task.
  assert (terminated 41 (req_peer_id rq) = true) as Hpeer
    by (unfold terminated; apply Nat.ltb_lt; lia).
  pose proof H as Hf.
  apply add_task_fields in Hf as (_ & _ & t & wt & Hwt & Hl & Hsame);
    [|by rewrite Hid].
  apply add_task_post in H
    as [(? & _)|(t0 & wt0 & Ha & _ & Hs & _ & Hlen & _ & Hdone)];
    [congruence|].
  assert (id = req_repo_id rq) as -> by congruence.
  unfold started in Hs.
  destruct Hs as (_ & _ & _ & Ht & _ & _ & _ & _ & Hinit & Hcan & Hcp & _).
  rewrite Ht, lookup_insert_eq in Hl. simplify_eq.
  rewrite clone_task_new_fits in Hsame by auto using terminated_36.
  split; [done|]. split.
  - exists t, wt. rewrite Ht, lookup_insert_eq.
    destruct Hsame as (? & ? & ? & ? & ? & ? & ? & ? & ?). simpl in *.
    repeat split; try done.
    destruct (state t); try done; set_solver.
  - intros id' Hne. rewrite Ht. by apply lookup_insert_ne.
Qed.

Lemma add_task_admitted_witness :
  ∃ t wt,
    strip_tail (req_worktree_in (sample_request "/tmp/foo" "foo")) = Some wt
    ∧ seaf_clone_manager_get_task fetching_daemon sample_repo_id = Some t
    ∧ repo_id t = sample_repo_id ∧ worktree t = wt
    ∧ peer_id t = sample_peer_id ∧ repo_name t = Some "foo"
    ∧ token t = "token" ∧ passwd t = None
    ∧ peer_addr t = "192.0.2.1" ∧ peer_port t = "10001"
    ∧ email t = "user@example.com"
    ∧ state t ∈ [CLONE_STATE_CONNECT; CLONE_STATE_INDEX; CLONE_STATE_FETCH;
                 CLONE_STATE_CHECKOUT; CLONE_STATE_MERGE; CLONE_STATE_ERROR].
Proof.
  eapply (add_task_admitted quiet_env (sample_request "/tmp/foo" "foo")
            fresh_daemon fetching_daemon _ sample_repo_id);
    [vm_compute; lia|reflexivity|reflexivity].
Defined.

(** X12: when SQLite refuses the REPLACE, [seaf_clone_manager_add_task]
    admits nothing: it returns NULL without a message and the registry, the
    table and the pending work are as before, whatever the request. *)
Theorem add_task_save_fails (e : Env) (rq : CloneRequest) (d d' : daemon)
    (a : Added) :
  (∀ r, sqlite_fails e (SqlReplace r) = true) ->
  seaf_clone_manager_add_task e rq d = Ret (a, d') ->
  added_repo_id a = None
  ∧ tasks d' = tasks d ∧ db d' = db d ∧ pending d' = pending d.
Proof.
  intros Hfail H.
  assert (added_repo_id a = None) as Hnone.
  { revert H. unfold seaf_clone_manager_add_task.
    destruct (negb _); [done|].
    destruct (match seaf_repo_manager_get_repo e (req_repo_id rq) with
              | Some r => bool_decide (SeafRepo.head r ≠ None)
              | None => false
              end); [by intros; simplify_eq|].
    destruct (is_duplicate_task d (req_repo_id rq)); [by intros; simplify_eq|].
    destruct (negb _); [by intros; simplify_eq|].
    destruct (make_worktree e (req_worktree_in rq) false d) as [[placed d1]|];
      [|done].
    destruct (placed_path placed) as [wt|]; [|by intros; simplify_eq].
    destruct (negb (terminated 41 (req_peer_id rq))); [done|].
    unfold alloc, save_task_to_db, sqlite_query_exec. rewrite Hfail. simpl.
    by intros; simplify_eq. }
  split; [done|].
  apply add_task_post in H as [(_ & ? & ? & ? & _)|(t & wt & Hs & _)];
    [done|congruence].
Qed.

Lemma add_task_save_fails_witness :
  ∃ a d',
    seaf_clone_manager_add_task no_replace_env (sample_request "/tmp/foo" "foo")
      fresh_daemon = Ret (a, d')
    ∧ added_repo_id a = None
    ∧ tasks d' = tasks fresh_daemon ∧ db d' = db fresh_daemon
    ∧ pending d' = pending fresh_daemon.
Proof.
  eexists _, _. split; [reflexivity|].
  eapply (add_task_save_fails no_replace_env (sample_request "/tmp/foo" "foo")
            fresh_daemon).
  - intros r. reflexivity.
  - reflexivity.
Defined.

(** *** What holds in every state a run can reach *)

Lemma pending_job_task d j :
  jobs_inv [] d -> j ∈ pending d ->
  ∃ t, tasks d !! job_repo_id j = Some t
       ∧ repo_id t = job_repo_id j
       ∧ jobs_for (job_repo_id j) (pending d) = [j]
       ∧ match j with
         | JIndex _ a =>
             addr t = a ∧ (state t = CLONE_STATE_INDEX
                           ∨ state t = CLONE_STATE_CANCEL_PENDING)
         | JMerge _ a _ =>
             addr t = a ∧ (state t = CLONE_STATE_MERGE
                           ∨ state t = CLONE_STATE_CANCEL_PENDING)
         | JCheckout _ =>
             state t = CLONE_STATE_CHECKOUT
             ∨ state t = CLONE_STATE_CANCEL_PENDING
         | JTransfer _ =>
             state t = CLONE_STATE_FETCH ∨ state t = CLONE_STATE_CANCEL_PENDING
         end.
Proof.
  intros Hinv Hj. specialize (Hinv (job_repo_id j)).
  assert (j ∈ jobs_for (job_repo_id j) (pending d)) as Hin
    by (unfold jobs_for; by apply list_elem_of_filter).
  destruct (tasks d !! job_repo_id j) as [t|].
  - destruct Hinv as (_ & Hid & Hexp). exists t.
    split; [done|]. split; [done|].
    unfold expected in Hexp.
    destruct (state t) eqn:Hst; try done;
      repeat match goal with
             | H : _ ∨ _ |- _ => destruct H
             | H : ∃ _, _ |- _ => destruct H
             end;
      match goal with
      | H : jobs_for _ _ = _ |- _ =>
          rewrite H in Hin |- *;
          first [ by apply not_elem_of_nil in Hin
                | apply list_elem_of_singleton in Hin; subst j; simpl; auto ]
      end.
  - rewrite Hinv in Hin. by apply not_elem_of_nil in Hin.
Qed.

Lemma terminal_no_jobs d id t :
  jobs_inv [] d -> tasks d !! id = Some t -> is_terminal (state t) = true ->
  jobs_for id (pending d) = [].
Proof.
  intros Hinv Hl Hterm. specialize (Hinv id). rewrite Hl in Hinv.
  destruct Hinv as (_ & _ & Hexp). unfold expected in Hexp.
  by destruct (state t).
Qed.

Lemma completion_job e ev d r id :
  dispatch e ev d = Some r -> targets ev id ->
  ∃ j rest, event_job ev = Some j ∧ job_repo_id j = id
            ∧ deliver j (pending d) = Some rest.
Proof.
  destruct ev as [rq|parent name|rid|rid| |rid a|rid a repo|tx|ctask repo];
    simpl; try done.
  - intros H ->. destruct (deliver _ _) as [rest|] eqn:Hdel; [by eexists _, _|done].
  - intros H ->. destruct (deliver _ _) as [rest|] eqn:Hdel; [by eexists _, _|done].
  - intros H [Hc <-]. rewrite Hc in H. simpl in H.
    destruct (deliver _ _) as [rest|] eqn:Hdel; [by eexists _, _|done].
  - intros H <-. destruct (deliver _ _) as [rest|] eqn:Hdel; [by eexists _, _|done].
Qed.

Lemma effect_keeps e ev d d' id :
  effect e ev d d' -> is_Some (tasks d !! id) ->
  is_Some (tasks d' !! id) ∨ ev = EvRemoveTask id.
Proof.
  intros [Hno Ht _ _ _|rq t wt -> _ Hs _|rid t -> Hl _ Ht _ _ _
          |id0 t rest r Hl _ _ Ht _ _ _ _ _ _] Hsome.
  - left. by rewrite Ht.
  - left. destruct Hs as (_ & _ & _ & Ht & _). rewrite Ht.
    destruct (decide (req_repo_id rq = id)) as [->|Hne].
    + by rewrite lookup_insert_eq.
    + by rewrite lookup_insert_ne.
  - destruct (decide (rid = id)) as [->|Hne]; [by right|].
    left. rewrite Ht. by rewrite lookup_delete_ne.
  - left. rewrite Ht. destruct (decide (id0 = id)) as [->|Hne].
    + by rewrite lookup_insert_eq.
    + by rewrite lookup_insert_ne.
Qed.

Lemma dispatch_keeps e ev d d' id :
  dispatch e ev d = Some (Ret d') -> is_Some (tasks d !! id) ->
  is_Some (tasks d' !! id) ∨ ev = EvRemoveTask id.
Proof.
  intros Hd Hsome.
  assert (ev = EvPulse ∨ ev ≠ EvPulse) as [->|Hnp]
    by (destruct ev; (by left) || (by right)).
  - left. simpl in Hd. simplify_eq. rewrite pulse_fold.
    generalize (map_to_list (tasks d)).*1. intros ks. revert d Hsome.
    induction ks as [|k ks IH]; intros d Hsome; [done|]. simpl. apply IH.
    by destruct (effect_keeps _ _ _ _ id (pulse_one_effect e k d) Hsome).
  - eapply effect_keeps; [by apply dispatch_effect|done].
Qed.

(** X13: a task in DONE, ERROR or CANCELED is final.  In every state a
    run with dependable collaborators can reach, no event changes such a
    task: after the event the registry holds the same task under the id,
    unless the event is the removal of the task or a new admission for the
    same repository.  In particular no completion can be delivered to
    it. *)
Theorem terminal_task_stays (e : Env) (ev : Event) (d d' : daemon)
    (id : string) (t : CloneTask) :
  reachable dependable distinct_rows d ->
  dispatch e ev d = Some (Ret d') ->
  tasks d !! id = Some t ->
  is_terminal (state t) = true ->
  tasks d' !! id = Some t
  ∨ ev = EvRemoveTask id
  ∨ ∃ rq, ev = EvAddTask rq ∧ req_repo_id rq = id.
Proof.
  intros Hreach Hd Hl Hterm.
  apply jobs_inv_reachable in Hreach.
  pose proof (terminal_no_jobs _ _ _ Hreach Hl Hterm) as Hnil.
  destruct (dispatch_keeps _ _ _ _ id Hd) as [[t' Hl']|Hrm];
    [by rewrite Hl| |by auto].
  destruct (dispatch_lookup _ _ _ _ _ _ Hd Hl')
    as [[Hsame _]|[(rq & -> & -> & _)|(t0 & Hl0 & _ & _ & _ & Hact & Hch)]].
  - left. congruence.
  - right. right. eauto.
  - exfalso. simplify_eq.
    assert (targets ev id -> False) as Hnot.
    { intros Htg.
      destruct (completion_job _ _ _ _ _ Hd Htg) as (j & rest & _ & Hj & Hdel).
      apply deliver_elem in Hdel.
      assert (j ∈ jobs_for id (pending d)) as Hin
        by (unfold jobs_for; by apply list_elem_of_filter).
      rewrite Hnil in Hin. by apply not_elem_of_nil in Hin. }
    unfold is_terminal in Hterm.
    destruct ev as [rq|parent name|rid|rid| |rid a|rid a repo|tx|ctask repo];
      simpl in Hact, Hch; try done; try (by apply Hnot).
    + destruct Hch as (_ & [[[Hs|Hs] _]|[[Hs|[Hs|[Hs|Hs]]] _]]);
        rewrite Hs in Hterm; done.
    + destruct Hch as (Hs & _). rewrite Hs in Hterm. done.
Qed.

Lemma terminal_task_stays_witness :
  ∃ t d',
    tasks canceled_daemon !! sample_repo_id = Some t
    ∧ state t = CLONE_STATE_CANCELED
    ∧ dispatch quiet_env EvPulse canceled_daemon = Some (Ret d')
    ∧ (tasks d' !! sample_repo_id = Some t
       ∨ EvPulse = EvRemoveTask sample_repo_id
       ∨ ∃ rq, EvPulse = EvAddTask rq ∧ req_repo_id rq = sample_repo_id).
Proof.
  eexists _, _. split; [reflexivity|]. split; [reflexivity|].
  split; [reflexivity|].
  eapply (terminal_task_stays quiet_env EvPulse canceled_daemon).
  - apply canceled_daemon_reachable.
  - reflexivity.
  - reflexivity.
  - reflexivity.
Defined.

(** X14: no work is pending for nobody.  In every state a run with
    dependable collaborators can reach, a pending job belongs to a task of
    the registry, it is the only pending job of that task, an index or merge
    job points to the task object that is registered, and the task is in the
    state that waits for the job (INDEX, MERGE, CHECKOUT or FETCH) or in
    CANCEL_PENDING. *)
Theorem pending_job_has_task (d : daemon) (j : Job) :
  reachable dependable distinct_rows d ->
  j ∈ pending d ->
  ∃ t, tasks d !! job_repo_id j = Some t
       ∧ repo_id t = job_repo_id j
       ∧ jobs_for (job_repo_id j) (pending d) = [j]
       ∧ match j with
         | JIndex _ a =>
             addr t = a ∧ (state t = CLONE_STATE_INDEX
                           ∨ state t = CLONE_STATE_CANCEL_PENDING)
         | JMerge _ a _ =>
             addr t = a ∧ (state t = CLONE_STATE_MERGE
                           ∨ state t = CLONE_STATE_CANCEL_PENDING)
         | JCheckout _ =>
             state t = CLONE_STATE_CHECKOUT
             ∨ state t = CLONE_STATE_CANCEL_PENDING
         | JTransfer _ =>
             state t = CLONE_STATE_FETCH ∨ state t = CLONE_STATE_CANCEL_PENDING
         end.
Proof.
  intros Hreach. apply pending_job_task. by apply jobs_inv_reachable.
Qed.

Lemma pending_job_has_task_witness :
  ∃ t, tasks fetching_daemon !! sample_repo_id = Some t
       ∧ repo_id t = sample_repo_id
       ∧ jobs_for sample_repo_id (pending fetching_daemon)
         = [JTransfer sample_repo_id]
       ∧ (state t = CLONE_STATE_FETCH ∨ state t = CLONE_STATE_CANCEL_PENDING).
Proof.
  apply (pending_job_has_task fetching_daemon (JTransfer sample_repo_id)).
  - apply fetching_daemon_reachable.
  - replace (pending fetching_daemon) with [JTransfer sample_repo_id]
      by reflexivity.
    apply list_elem_of_here.
Defined.

(** X15: the completion handlers never fail.  In every state a run with
    dependable collaborators can reach, a completion that is delivered (of
    an index job, a merge job, a transfer of a clone or a checkout) finds
    its task: the pointer of the job is the registered object, the lookups
    of [on_repo_fetched] and [on_checkout_done] succeed, and the state
    assertions of [merge_job_done] and [on_checkout_done] hold. *)
Theorem completion_never_faults (e : Env) (ev : Event) (d : daemon)
    (r : res daemon) (id : string) :
  reachable dependable distinct_rows d ->
  targets ev id ->
  dispatch e ev d = Some r ->
  ∃ d', r = Ret d'.
Proof.
  intros Hreach Htg Hd. apply jobs_inv_reachable in Hreach.
  destruct (completion_job _ _ _ _ _ Hd Htg) as (j & rest & Hj & Hjid & Hdel).
  pose proof (pending_job_task d j Hreach (deliver_elem _ _ _ Hdel))
    as (t & Hl & _ & _ & Hst).
  destruct ev as [rq|parent name|rid|rid| |rid a|rid a repo|tx|ctask repo];
    simpl in Htg, Hj; try done; injection Hj as <-; simpl in *.
  - rewrite Hdel in Hd. simpl in Hd. rewrite Hl in Hd.
    destruct Hst as [Ha _]. rewrite bool_decide_eq_true_2 in Hd by done.
    destruct (index_files_job e t (with_pending rest d)) as [[ok t1] d1].
    simplify_eq. eauto.
  - rewrite Hdel in Hd. simpl in Hd. rewrite Hl in Hd.
    destruct Hst as [Ha Hst]. rewrite bool_decide_eq_true_2 in Hd by done.
    pose proof (merge_job_post e repo t (with_pending rest d)) as Hfr.
    destruct (merge_job e repo t (with_pending rest d)) as [[ok t1] d1].
    unfold job_frame in Hfr. simpl in Hfr.
    destruct Hfr as (_ & _ & _ & _ & _ & _ & _ & _ & _ & Hst1).
    unfold merge_job_done in Hd. rewrite Hst1 in Hd.
    destruct ok; simpl in Hd; [|simplify_eq; eauto].
    destruct Hst as [Hs|Hs]; rewrite Hs in Hd; simpl in Hd; simplify_eq; eauto.
  - destruct Htg as [Hc _]. rewrite Hc in Hd. simpl in Hd.
    rewrite Hdel in Hd. simpl in Hd. rewrite Hl in Hd. simplify_eq. eauto.
  - rewrite Hdel in Hd. simpl in Hd. rewrite Hl in Hd.
    unfold on_checkout_done in Hd.
    destruct (CheckoutTask.success ctask); simpl in Hd; [|simplify_eq; eauto].
    destruct Hst as [Hs|Hs]; rewrite Hs in Hd; simpl in Hd; simplify_eq; eauto.
Qed.

Lemma completion_never_faults_witness :
  ∃ d', dispatch waiting_env fetched_event fetching_daemon = Some (Ret d').
Proof.
  destruct (completion_never_faults waiting_env fetched_event fetching_daemon
              (default (Fault AssertionFailed)
                 (dispatch waiting_env fetched_event fetching_daemon))
              sample_repo_id) as [d' Hd'].
  - apply fetching_daemon_reachable.
  - split; reflexivity.
  - reflexivity.
  - exists d'. rewrite <- Hd'. reflexivity.
Defined.

Lemma canceled_daemon_plainly_reachable :
  reachable_by dependable plain_rows plain_event canceled_daemon.
Proof.
  apply (by_step _ _ _ waiting_env (EvCancelTask sample_repo_id) connect_daemon);
    [apply waiting_env_dependable|done| |reflexivity].
  apply (by_step _ _ _ waiting_env (EvAddTask (sample_request "/tmp/foo" "foo"))
           fresh_daemon);
    [apply waiting_env_dependable|by apply sample_request_plain| |reflexivity].
  apply (by_init _ _ _ quiet_env []);
    [apply quiet_env_dependable| |reflexivity].
  split; [apply NoDup_nil_2|]. by intros row ?%elem_of_nil.
Qed.

(** X16: the comment of [seaf_clone_manager_remove_task], "on-disk task
    should have been removed", holds in every state reached by a run with
    dependable collaborators in which no value formatted into an SQL
    statement has a quote character (the rows found at startup have ids
    without one, and so have the values of every admission): when the
    removal of a task succeeds, the table has no row for its repository and
    no work is pending for it, before and after the removal. *)
Theorem removed_task_has_no_row (e : Env) (rid : string) (d : daemon) :
  reachable_by dependable plain_rows plain_event d ->
  (seaf_clone_manager_remove_task e rid d).1 = 0 ->
  let d' := (seaf_clone_manager_remove_task e rid d).2 in
  ¬ has_row rid (db d) ∧ jobs_for rid (pending d) = []
  ∧ ¬ has_row rid (db d') ∧ jobs_for rid (pending d') = []
  ∧ tasks d' !! rid = None.
Proof.
  intros Hreach.
  pose proof (rows_inv_reachable d Hreach rid) as Hrows.
  apply (reachable_by_reachable _ _ distinct_rows) in Hreach;
    [|by intros rows [? _]].
  apply jobs_inv_reachable in Hreach.
  unfold seaf_clone_manager_remove_task.
  destruct (tasks d !! rid) as [t|] eqn:Hl; [|done].
  destruct (is_terminal (state t)) eqn:Hterm; [|done]. simpl. intros _.
  destruct Hrows as (_ & Hrow).
  pose proof (terminal_no_jobs _ _ _ Hreach Hl Hterm) as Hnil.
  assert (¬ has_row rid (db d)) as Hno by (rewrite Hrow; congruence).
  destruct (tx_id t); simpl; rewrite lookup_delete_eq; done.
Qed.

Lemma removed_task_has_no_row_witness :
  let d' := (seaf_clone_manager_remove_task quiet_env sample_repo_id
               canceled_daemon).2 in
  ¬ has_row sample_repo_id (db canceled_daemon)
  ∧ jobs_for sample_repo_id (pending canceled_daemon) = []
  ∧ ¬ has_row sample_repo_id (db d')
  ∧ jobs_for sample_repo_id (pending d') = []
  ∧ tasks d' !! sample_repo_id = None.
Proof.
  apply (removed_task_has_no_row quiet_env sample_repo_id canceled_daemon).
  - apply canceled_daemon_plainly_reachable.
  - reflexivity.
Defined.

(** X17: tasks enter the registry by admission only and leave it by
    removal only.  When an event gives a task to an id that had none, the
    event is an admission for that id; when an id that had a task has none
    after the event, the event is the removal of that id.  Cancelling, the
    connection timer and the completions keep the registry's ids. *)
Theorem registry_changes (e : Env) (ev : Event) (d d' : daemon) (id : string) :
  dispatch e ev d = Some (Ret d') ->
  (tasks d !! id = None -> is_Some (tasks d' !! id) ->
   ∃ rq, ev = EvAddTask rq ∧ req_repo_id rq = id)
  ∧ (is_Some (tasks d !! id) -> tasks d' !! id = None -> ev = EvRemoveTask id).
Proof.
  intros Hd. split.
  - intros Hnone [t' Hl'].
    destruct (dispatch_lookup _ _ _ _ _ _ Hd Hl')
      as [[Hsame _]|[(rq & -> & -> & _)|(t0 & Hl0 & _)]];
      [congruence|eauto|congruence].
  - intros Hsome Hnone.
    destruct (dispatch_keeps _ _ _ _ id Hd Hsome) as [[t' Hl']|Hrm];
      [congruence|done].
Qed.

Lemma registry_changes_witness :
  (tasks fresh_daemon !! sample_repo_id = None ->
   is_Some (tasks fetching_daemon !! sample_repo_id) ->
   ∃ rq, EvAddTask (sample_request "/tmp/foo" "foo") = EvAddTask rq
         ∧ req_repo_id rq = sample_repo_id)
  ∧ (is_Some (tasks fresh_daemon !! sample_repo_id) ->
     tasks fetching_daemon !! sample_repo_id = None ->
     EvAddTask (sample_request "/tmp/foo" "foo") = EvRemoveTask sample_repo_id).
Proof.
  apply (registry_changes quiet_env (EvAddTask (sample_request "/tmp/foo" "foo"))
           fresh_daemon fetching_daemon sample_repo_id).
  reflexivity.
Defined.

(** *** Startup *)

Lemma restart_task_fields e row d d' :
  restart_task e row d = Ret d' ->
  terminated 37 (col_repo_id row) = true
  ∧ ∃ t, tasks d' = <[col_repo_id row := t]> (tasks d)
         ∧ same_request (task_of_row row) t.
Proof.
  unfold restart_task, alloc, task_of_row.
  destruct (terminated 37 (col_repo_id row)) eqn:Hlen; [|done].
  cbn [negb].
  set (task := clone_task_new (next_addr d) _ _ _ _ _ _ _ _ _).
  set (d0 := mkDaemon _ _ _ _ _).
  assert (repo_id task = col_repo_id row) as Hkey
    by (simpl; by apply c_array_fits).
  intros H. split; [done|].
  destruct (seaf_repo_manager_get_repo e (col_repo_id row)) as [repo|].
  - destruct (SeafRepo.head repo) as [hd|].
    + exists (set_state CLONE_STATE_DONE task). split; [|done].
      revert H.
      unfold transition_state, table_insert, remove_task_from_db,
        sqlite_query_exec. simpl.
      rewrite (c_array_fits 37) by done.
      destruct (sqlite_fails e (SqlDelete (col_repo_id row)));
        simpl; intros; by simplify_eq.
    + pose proof (start_checkout_post e repo task (table_insert task d0))
        as (Hm & _).
      pose proof (start_checkout_fields e repo task (table_insert task d0))
        as Hsame.
      destruct (start_checkout e repo task (table_insert task d0)) as [t1 d1].
      simplify_eq.
      exists t1. split; [|done]. unfold moved in Hm. simpl in Hm.
      destruct Hm as (Ht & _ & Hid & _). unfold table_insert. simpl.
      rewrite Ht, Hid. simpl. rewrite (c_array_fits 37) by done.
      by rewrite insert_insert_eq.
  - destruct (negb (terminated 41 (col_dest_id row))); [done|].
    destruct (negb (is_task_relay_connected e task)).
    + pose proof (start_connect_post e task d0) as (Hm & _).
      pose proof (start_connect_fields e task d0) as Hsame.
      destruct (start_connect_task_relay e task d0) as [t1 d1].
      simplify_eq.
      exists t1. split; [|done]. unfold moved in Hm. simpl in Hm.
      destruct Hm as (Ht & _ & Hid & _). unfold table_insert. simpl.
      rewrite Ht, Hid. simpl. by rewrite (c_array_fits 37).
    + pose proof (start_index_or_transfer_post e task d0) as (Hm & _).
      pose proof (start_index_or_transfer_fields e task d0) as Hsame.
      destruct (start_index_or_transfer e task d0) as [[[rc er] t1] d1].
      simplify_eq.
      exists t1. split; [|done]. unfold moved in Hm. simpl in Hm.
      destruct Hm as (Ht & _ & Hid & _). unfold table_insert. simpl.
      rewrite Ht, Hid. simpl. by rewrite (c_array_fits 37).
Qed.

Lemma restart_rows_fields e rows d d' :
  NoDup (col_repo_id <$> rows) ->
  restart_rows e rows d = Ret d' ->
  (∀ row, row ∈ rows ->
     terminated 37 (col_repo_id row) = true
     ∧ ∃ t, tasks d' !! col_repo_id row = Some t
            ∧ same_request (task_of_row row) t)
  ∧ (∀ id, id ∉ col_repo_id <$> rows -> tasks d' !! id = tasks d !! id).
Proof.
  revert d. induction rows as [|row rows IH]; intros d Hnd H; simpl in H.
  - simplify_eq. split; [by intros ? ?%elem_of_nil|done].
  - apply NoDup_cons in Hnd as [Hnin Hnd].
    destruct (restart_task e row d) as [d1|] eqn:Hr; [|done].
    destruct (IH d1 Hnd H) as [Hin Hout].
    destruct (restart_task_fields e row d d1 Hr) as (Hlen & t & Ht & Hrow).
    split.
    + intros row' [->|Hin']%elem_of_cons; [|by apply Hin].
      split; [done|].
      exists t. rewrite Hout by done. by rewrite Ht, lookup_insert_eq.
    + intros id Hid. apply not_elem_of_cons in Hid as [Hne Hid].
      rewrite Hout by done. rewrite Ht. by apply lookup_insert_ne.
Qed.

(** X18: what is in the table is what is restarted.  When the table has
    at most one row for a repository and [seaf_clone_manager_init] returns
    0, every row has become a task, registered under the row's repository
    id, that carries the values of the row's columns: its repository id,
    name, token, worktree, passphrase, address, port and email are the
    row's, and its peer id is the first 41 bytes of the row's (the whole of
    it when it has at most 40 characters); and the registry has no task
    besides those of the rows. *)
Theorem init_recovers_rows (e : Env) (rows : list Row) (d : daemon) :
  distinct_rows rows ->
  seaf_clone_manager_init e (seaf_clone_manager_new rows) = Ret (0, d) ->
  (∀ row, row ∈ rows ->
     ∃ t, seaf_clone_manager_get_task d (col_repo_id row) = Some t
          ∧ repo_id t = col_repo_id row
          ∧ peer_id t = c_array 41 (col_dest_id row)
          ∧ ((String.length (col_dest_id row) <= 40)%nat ->
             peer_id t = col_dest_id row)
          ∧ repo_name t = Some (col_repo_name row)
          ∧ token t = col_token row
          ∧ worktree t = col_worktree_parent row
          ∧ passwd t = col_passwd row
          ∧ peer_addr t = col_server_addr row
          ∧ peer_port t = col_server_port row
          ∧ email t = col_email row)
  ∧ (∀ id, is_Some (seaf_clone_manager_get_task d id) <-> has_row id rows).
Proof.
  unfold distinct_rows, seaf_clone_manager_get_task.
  intros Hnd H. apply init_restart in H.
  destruct (restart_rows_fields e rows _ d Hnd H) as [Hin Hout].
  split.
  - intros row Hrow. destruct (Hin row Hrow) as (Hlen & t & Hl & Hsame).
    exists t. split; [done|].
    destruct Hsame as (H1 & H2 & H3 & H4 & H5 & H6 & H7 & H8 & H9).
    unfold task_of_row in *. simpl in *.
    rewrite (c_array_fits 37) in H1 by done.
    repeat split; try done.
    intros Hfit. rewrite H2. apply c_array_fits.
    unfold terminated. apply Nat.ltb_lt. lia.
  - intros id. unfold has_row.
    destruct (decide (id ∈ col_repo_id <$> rows)) as [Hid|Hid].
    + split; [done|]. intros _.
      apply list_elem_of_fmap in Hid as (row & -> & Hrow).
      destruct (Hin row Hrow) as (_ & t & -> & _). done.
    + rewrite Hout by done. simpl. rewrite lookup_empty.
      split; [by intros [? ?]|done].
Qed.

Lemma init_recovers_rows_witness :
  ∃ d,
    seaf_clone_manager_init waiting_env (seaf_clone_manager_new sample_rows)
    = Ret (0, d)
    ∧ (∀ row, row ∈ sample_rows ->
         ∃ t, seaf_clone_manager_get_task d (col_repo_id row) = Some t
              ∧ repo_id t = col_repo_id row
              ∧ peer_id t = c_array 41 (col_dest_id row)
              ∧ ((String.length (col_dest_id row) <= 40)%nat ->
                 peer_id t = col_dest_id row)
              ∧ repo_name t = Some (col_repo_name row)
              ∧ token t = col_token row
              ∧ worktree t = col_worktree_parent row
              ∧ passwd t = col_passwd row
              ∧ peer_addr t = col_server_addr row
              ∧ peer_port t = col_server_port row
              ∧ email t = col_email row)
    ∧ (∀ id, is_Some (seaf_clone_manager_get_task d id)
             <-> has_row id sample_rows).
Proof.
  eexists. split; [reflexivity|].
  eapply (init_recovers_rows waiting_env sample_rows).
  - apply NoDup_singleton.
  - reflexivity.
Defined.

(** *** The connection timer *)



(** *** The merge job, the transfer sink and the checkout *)

(** X20: a merge job whose task already has the root of its worktree
    ([root_id] is set by the index job) does not index the worktree again:
    it keeps the root id and makes no indexing call. *)
Theorem merge_job_known_root (e : Env) (repo : SeafRepo.t) (task : CloneTask)
    (d : daemon) :
  root_id task ≠ "" ->
  let r := merge_job e repo task d in
  r.1.2 = task
  ∧ ∀ rid wt, IndexWorktree rid wt ∈ calls r.2 -> IndexWorktree rid wt ∈ calls d.
Proof.
  intros Hroot. unfold merge_job, fast_forward_checkout, real_merge, call.
  rewrite bool_decide_eq_false_2 by done. simpl.
  repeat (case_match; simplify_eq); simpl; (split; [done|]); intros rid wt;
    rewrite ?elem_of_app, ?list_elem_of_singleton;
    intuition (try discriminate; auto).
Qed.

Lemma merge_job_known_root_witness :
  let task := set_root_id sample_root (sample_task CLONE_STATE_MERGE None) in
  let r := merge_job quiet_env (sample_repo None false 0) task
             (sample_daemon task []) in
  r.1.2 = task
  ∧ ∀ rid wt, IndexWorktree rid wt ∈ calls r.2
              -> IndexWorktree rid wt ∈ calls (sample_daemon task []).
Proof.
  apply (merge_job_known_root quiet_env (sample_repo None false 0)
           (set_root_id sample_root (sample_task CLONE_STATE_MERGE None))).
  simpl. discriminate.
Defined.

(** X21: the merge job sets the head of the repository exactly when it
    succeeds, and then as its last step: on success the local branch and its
    commit exist and the last call is the one that sets the head to that
    commit; on failure no call that sets the head is made.  The job touches
    neither the registry nor the table nor the pending work, and it leaves
    the state of the task alone. *)
Theorem merge_job_sets_head (e : Env) (repo : SeafRepo.t) (task : CloneTask)
    (d : daemon) :
  let r := merge_job e repo task d in
  (r.1.1 = true ->
   ∃ local head,
     seaf_branch_manager_get_branch e (SeafRepo.id repo) "local" = Some local
     ∧ seaf_commit_manager_get_commit e (SeafBranch.commit_id local) = Some head
     ∧ last (calls r.2)
       = Some (SetHead (SeafRepo.id repo) (SeafCommit.commit_id head)))
  ∧ (r.1.1 = false ->
     ∀ rid c, SetHead rid c ∈ calls r.2 -> SetHead rid c ∈ calls d)
  ∧ tasks r.2 = tasks d ∧ db r.2 = db d ∧ pending r.2 = pending d
  ∧ state r.1.2 = state task.
Proof.
  unfold merge_job, fast_forward_checkout, real_merge, call.
  repeat (case_match; simplify_eq); simpl.
  all: split;
    [intros Hok;
     first [ by simplify_eq
           | eexists _, _; split; [done|]; split; [done|]; by rewrite last_snoc ]
    |].
  all: split;
    [intros Hf rid0 cid;
     first [ by simplify_eq
           | rewrite ?elem_of_app, ?list_elem_of_singleton;
             intuition (try discriminate; auto) ]
    |].
  all: done.
Qed.

Lemma start_checkout_calls e repo task d :
  ∃ later, calls (start_checkout e repo task d).2 = (calls d ++ later)%list.
Proof.
  unfold start_checkout, transition_state, transition_to_error,
    remove_task_from_db, sqlite_query_exec, schedule, call, with_pending, with_db.
  repeat case_match; simpl; simplify_eq; simpl;
    first [ by exists []; rewrite app_nil_r | by eexists ].
Qed.

(** X22: what [on_repo_fetched] does depends on the transfer and on the
    repository only, not on the state of the clone task: a cancelled
    transfer gives CANCELED and a failed one ERROR with the error FETCH,
    without any call; a transfer that ended otherwise gives ERROR with the
    error INTERNAL when the repository is unknown, and else the token, the
    email and the relay of the task are written to the repository, in this
    order, before the checkout is started, and the task ends in ERROR,
    CHECKOUT or MERGE, whatever state it was in (CANCEL_PENDING
    included). *)
Theorem on_repo_fetched_cases (e : Env) (tx_task : TransferTask.t)
    (task : CloneTask) (d : daemon) :
  let r := on_repo_fetched e tx_task task d in
  (∀ s, state (on_repo_fetched e tx_task (set_state s task) d).1 = state r.1)
  ∧ match TransferTask.state tx_task with
    | TASK_STATE_CANCELED =>
        state r.1 = CLONE_STATE_CANCELED ∧ calls r.2 = calls d
        ∧ pending r.2 = pending d
    | TASK_STATE_ERROR =>
        state r.1 = CLONE_STATE_ERROR ∧ error r.1 = CLONE_ERROR_FETCH
        ∧ calls r.2 = calls d ∧ pending r.2 = pending d
    | _ =>
        match seaf_repo_manager_get_repo e (TransferTask.repo_id tx_task) with
        | None =>
            state r.1 = CLONE_STATE_ERROR ∧ error r.1 = CLONE_ERROR_INTERNAL
            ∧ calls r.2 = calls d ∧ pending r.2 = pending d
        | Some repo =>
            (state r.1 = CLONE_STATE_ERROR ∨ state r.1 = CLONE_STATE_CHECKOUT
             ∨ state r.1 = CLONE_STATE_MERGE)
            ∧ ∃ later,
                calls r.2
                = (calls d
                   ++ [SetRepoToken (SeafRepo.id repo) (token task);
                       SetRepoEmail (SeafRepo.id repo) (email task);
                       SetRepoRelayInfo (SeafRepo.id repo) (peer_addr task)
                         (peer_port task)]
                   ++ later)%list
        end
    end.
Proof.
  split.
  - intros s. unfold on_repo_fetched.
    repeat case_bool_decide; try done.
    destruct (seaf_repo_manager_get_repo e _) as [repo|]; [|done].
    unfold start_checkout.
    change (passwd (set_state s task)) with (passwd task).
    change (worktree (set_state s task)) with (worktree task).
    destruct (SeafRepo.encrypted repo), (passwd task) as [pw|]; try done;
      repeat match goal with
             | |- context [if ?b then _ else _] => destruct b
             end; done.
  - unfold on_repo_fetched.
    destruct (TransferTask.state tx_task) eqn:Htx;
      repeat case_bool_decide; simplify_eq.
    1, 3: destruct (seaf_repo_manager_get_repo e _) as [repo|].
    1, 3: pose proof (start_checkout_post e repo task
            (call (SetRepoRelayInfo (SeafRepo.id repo) (peer_addr task)
                     (peer_port task))
               (call (SetRepoEmail (SeafRepo.id repo) (email task))
                  (call (SetRepoToken (SeafRepo.id repo) (token task)) d))))
            as (_ & _ & Hst);
          split; [done|];
          destruct (start_checkout_calls e repo task
            (call (SetRepoRelayInfo (SeafRepo.id repo) (peer_addr task)
                     (peer_port task))
               (call (SetRepoEmail (SeafRepo.id repo) (email task))
                  (call (SetRepoToken (SeafRepo.id repo) (token task)) d))))
            as [later ->];
          exists later; simpl; by rewrite <- !app_assoc.
    all: unfold transition_state, transition_to_error, remove_task_from_db,
           sqlite_query_exec; simpl;
         by destruct (sqlite_fails e (SqlDelete (repo_id task))).
Qed.

(** X23: [start_checkout] for a repository whose passphrase is accepted
    (the passphrase verifies, or the repository's [enc_version] is below 1
    and it is not verified).  The passphrase is stored in the repository
    first; when storing fails the task goes to ERROR with the error
    INTERNAL and nothing is scheduled; otherwise exactly one job is
    scheduled: a merge when the worktree is a directory with entries, else
    a checkout. *)
Theorem start_checkout_accepts (e : Env) (repo : SeafRepo.t) (task : CloneTask)
    (d : daemon) (pw : string) :
  SeafRepo.encrypted repo = true ->
  passwd task = Some pw ->
  SeafRepo.enc_version repo < 1 ∨ 0 <= seaf_repo_verify_passwd e repo pw ->
  let r := start_checkout e repo task d in
  calls r.2 = (calls d ++ [SetRepoPasswd (SeafRepo.id repo) pw])%list
  ∧ if seaf_repo_manager_set_repo_passwd e repo pw <? 0
    then state r.1 = CLONE_STATE_ERROR ∧ error r.1 = CLONE_ERROR_INTERNAL
         ∧ pending r.2 = pending d
    else if is_non_empty_directory e (worktree task)
    then state r.1 = CLONE_STATE_MERGE
         ∧ pending r.2 = (pending d ++ [JMerge (repo_id task) (addr task) repo])%list
    else state r.1 = CLONE_STATE_CHECKOUT
         ∧ pending r.2 = (pending d ++ [JCheckout (SeafRepo.id repo)])%list.
Proof.
  intros Henc Hpw Hok. unfold start_checkout. rewrite Henc, Hpw.
  assert ((1 <=? SeafRepo.enc_version repo)
          && (seaf_repo_verify_passwd e repo pw <? 0) = false) as ->.
  { apply andb_false_iff. destruct Hok; [left|right]; lia. }
  unfold transition_state, transition_to_error, remove_task_from_db,
    sqlite_query_exec, schedule, call, with_pending, with_db.
  destruct (seaf_repo_manager_set_repo_passwd e repo pw <? 0); simpl.
  - by destruct (sqlite_fails e (SqlDelete (repo_id task))).
  - by destruct (is_non_empty_directory e (worktree task)).
Qed.

Lemma start_checkout_accepts_witness :
  let repo := sample_repo None true 2 in
  let task := sample_task CLONE_STATE_FETCH (Some "secret") in
  let d := sample_daemon task [] in
  let r := start_checkout encrypted_env repo task d in
  calls r.2 = (calls d ++ [SetRepoPasswd (SeafRepo.id repo) "secret"])%list
  ∧ if seaf_repo_manager_set_repo_passwd encrypted_env repo "secret" <? 0
    then state r.1 = CLONE_STATE_ERROR ∧ error r.1 = CLONE_ERROR_INTERNAL
         ∧ pending r.2 = pending d
    else if is_non_empty_directory encrypted_env (worktree task)
    then state r.1 = CLONE_STATE_MERGE
         ∧ pending r.2 = (pending d ++ [JMerge (repo_id task) (addr task) repo])%list
    else state r.1 = CLONE_STATE_CHECKOUT
         ∧ pending r.2 = (pending d ++ [JCheckout (SeafRepo.id repo)])%list.
Proof.
  apply (start_checkout_accepts encrypted_env (sample_repo None true 2)
           (sample_task CLONE_STATE_FETCH (Some "secret"))
           (sample_daemon (sample_task CLONE_STATE_FETCH (Some "secret")) [])
           "secret").
  - reflexivity.
  - reflexivity.
  - right. vm_compute. discriminate.
Defined.

(** X24: a worktree that already has the content of the head is merged
    without touching a file.  When the task has the root of its worktree,
    the local branch and its commit exist, the root of that commit is the
    root of the worktree and the traversal of the history visits it, the
    merge job succeeds and its only call is the one that sets the head: the
    index is neither read nor written and nothing is checked out. *)
Theorem merge_job_same_root (e : Env) (repo : SeafRepo.t) (task : CloneTask)
    (d : daemon) (local : SeafBranch.t) (head : SeafCommit.t)
    (commits : list SeafCommit.t) :
  root_id task ≠ "" ->
  seaf_branch_manager_get_branch e (SeafRepo.id repo) "local" = Some local ->
  seaf_commit_manager_get_commit e (SeafBranch.commit_id local) = Some head ->
  SeafCommit.root_id head = root_id task ->
  seaf_commit_manager_traverse_commit_tree e (SeafCommit.commit_id head)
  = (commits, true) ->
  head ∈ commits ->
  merge_job e repo task d
  = (true, task, call (SetHead (SeafRepo.id repo) (SeafCommit.commit_id head)) d).
Proof.
  intros Hroot Hlocal Hhead Hsame Htrav Hin.
  unfold merge_job. rewrite bool_decide_eq_false_2 by done. simpl.
  rewrite Hlocal, Hhead.
  assert (check_fast_forward e head (root_id task) = true) as ->.
  { unfold check_fast_forward. rewrite Htrav, traverse_with_spec. simpl.
    apply existsb_exists. exists head.
    split; [by apply list_elem_of_In|by apply bool_decide_eq_true]. }
  unfold fast_forward_checkout. rewrite bool_decide_eq_true_2 by done. done.
Qed.

Lemma merge_job_same_root_witness :
  let task := set_root_id sample_root (sample_task CLONE_STATE_MERGE None) in
  let repo := sample_repo None false 0 in
  merge_job (with_history quiet_env sample_head) repo task (sample_daemon task [])
  = (true, task,
     call (SetHead (SeafRepo.id repo) (SeafCommit.commit_id sample_head))
       (sample_daemon task [])).
Proof.
  apply (merge_job_same_root (with_history quiet_env sample_head)
           (sample_repo None false 0)
           (set_root_id sample_root (sample_task CLONE_STATE_MERGE None))
           (sample_daemon
              (set_root_id sample_root (sample_task CLONE_STATE_MERGE None)) [])
           (SeafBranch.mk (SeafCommit.commit_id sample_head)) sample_head
           [sample_head]).
  - simpl. discriminate.
  - reflexivity.
  - reflexivity.
  - reflexivity.
  - reflexivity.
  - apply list_elem_of_here.
Defined.

(** X25: an admission succeeds even when its first step fails.  Take a
    request that gets as far as the first step: its id has 36 characters
    and its peer id at most 40, the repository is not known locally and has
    no task, the worktree name matches, [make_worktree] yields a path and
    SQLite does not refuse the REPLACE.  When the peer is connected, the
    worktree has no entries and the transfer manager refuses the download,
    [seaf_clone_manager_add_task] still returns the repository id, with the
    message the transfer manager left, if any: the task is registered in
    ERROR with the error FETCH and without a transfer id, and no work is
    pending for it. *)
Theorem add_task_transfer_refused (e : Env) (rq : CloneRequest) (d d1 : daemon)
    (peer : CcnetPeer.t) (placed : Placed) (wt : string) :
  String.length (req_repo_id rq) = 36%nat ->
  (String.length (req_peer_id rq) <= 40)%nat ->
  seaf_repo_manager_get_repo e (req_repo_id rq) = None ->
  is_duplicate_task d (req_repo_id rq) = false ->
  worktree_repo_name_matches (req_worktree_in rq) (req_repo_name rq) = true ->
  make_worktree e (req_worktree_in rq) false d = Ret (placed, d1) ->
  placed_path placed = Some wt ->
  (∀ row, sqlite_fails e (SqlReplace row) = false) ->
  ccnet_get_peer e (req_peer_id rq) = Some peer ->
  CcnetPeer.net_state peer = PEER_CONNECTED ->
  (∀ path, is_non_empty_directory e path = false) ->
  (∀ rid pid from to tok,
     seaf_transfer_manager_add_download e rid pid from to tok = None) ->
  ∃ a d' t,
    seaf_clone_manager_add_task e rq d = Ret (a, d')
    ∧ added_repo_id a = Some (req_repo_id rq)
    ∧ added_error a
      = add_download_error e (req_repo_id rq) (req_peer_id rq) "fetch_head"
          "master" (req_token rq)
    ∧ tasks d' !! req_repo_id rq = Some t
    ∧ state t = CLONE_STATE_ERROR ∧ error t = CLONE_ERROR_FETCH
    ∧ tx_id t = None ∧ pending d' = pending d.
Proof.
  intros Hlen Hfit Hrepo Hdup Hname Hmk Hpath Hsave Hpeer Hconn Hdir Htx.
  assert (terminated 41 (req_peer_id rq) = true) as Hterm
    by (unfold terminated; apply Nat.ltb_lt; lia).
  unfold seaf_clone_manager_add_task.
  rewrite Hlen, Hrepo, Hdup, Hname, Hmk, Hpath, Hterm. cbn [negb Nat.eqb].
  apply make_worktree_frame in Hmk as (_ & _ & Hp1 & _).
  unfold alloc. cbv beta iota zeta.
  rewrite clone_task_new_fits by auto using terminated_36.
  unfold save_task_to_db, sqlite_query_exec. rewrite Hsave.
  simpl. unfold is_task_relay_connected. simpl. rewrite Hpeer, Hconn. simpl.
  unfold start_index_or_transfer. simpl. rewrite Hdir.
  unfold add_transfer_task. simpl. rewrite Htx. simpl.
  unfold transition_to_error, remove_task_from_db, sqlite_query_exec. simpl.
  eexists _, _, _. split; [done|]. simpl. rewrite lookup_insert_eq.
  repeat split; try done.
  by destruct (sqlite_fails e (SqlDelete (req_repo_id rq))).
Qed.

Lemma add_task_transfer_refused_witness :
  let rq := sample_request "/tmp/foo" "foo" in
  ∃ a d' t,
    seaf_clone_manager_add_task noisy_env rq fresh_daemon = Ret (a, d')
    ∧ added_repo_id a = Some sample_repo_id
    ∧ added_error a = Some "peer not connected"
    ∧ tasks d' !! sample_repo_id = Some t
    ∧ state t = CLONE_STATE_ERROR ∧ error t = CLONE_ERROR_FETCH
    ∧ tx_id t = None ∧ pending d' = pending fresh_daemon.
Proof.
  intros rq.
  eapply (add_task_transfer_refused noisy_env rq fresh_daemon _
            (CcnetPeer.mk PEER_CONNECTED)).
  - reflexivity.
  - vm_compute. lia.
  - reflexivity.
  - reflexivity.
  - reflexivity.
  - vm_compute. reflexivity.
  - reflexivity.
  - intros row. reflexivity.
  - reflexivity.
  - reflexivity.
  - intros path. reflexivity.
  - intros rid pid from to tok. reflexivity.
Defined.
